(** * A mutex-protected vector over a logging allocator

    Shallow embedding of [src/main.cpp]: the exception class
    [DataException], the class template [LoggingAllocator<T>], the class
    template [ThreadSafeVector<T, Allocator>] and the driver [main].

    The element type is the driver's [int], modelled as [Z].  [size_t] is
    modelled as [N]; the only place where its width matters is the product
    [n * sizeof(T)] of [allocate], whose wrap-around is written out.

    What the source takes from its environment is gathered in a record
    [Platform]: the width of [size_t], [sizeof(T)], the behaviour of
    [::operator new], the growth policy and [max_size()] of
    [std::vector], and what [std::thread] needs: the sizes of its objects
    and whether a thread can be started.  Every definition takes the
    platform as an argument, and the theorems hold for every platform. *)

From stdpp Require Import base numbers list strings pretty.

Open Scope N_scope.

(** ** Exceptions *)

(** The exceptions that the program can raise.  [DataException] is the
    class of the source (it inherits the constructors of
    [std::runtime_error], so it carries a message); [bad_alloc] is thrown by
    [::operator new]; [length_error] by [std::vector] when it cannot grow.
    [std::system_error] by the constructor of [std::thread] when the thread
    cannot be started.  All four derive from [std::exception]. *)
Inductive exception :=
| DataException (msg : string)
| bad_alloc
| length_error (msg : string)
| system_error (msg : string).

(** [e.what()]. *)
Definition what (e : exception) : string :=
  match e with
  | DataException msg => msg
  | bad_alloc => "std::bad_alloc"
  | length_error msg => msg
  | system_error msg => msg
  end.

(** The outcome of a call: normal return or a thrown exception. *)
Inductive result (A : Type) :=
| Ok (a : A)
| Throw (e : exception).
Arguments Ok {A} a.
Arguments Throw {A} e.

Definition is_Throw {A} (r : result A) : bool :=
  match r with Ok _ => false | Throw _ => true end.

(** ** The environment *)

Record Platform := {
  (** width of [size_t] in bits *)
  size_bits : N;
  (** [sizeof(T)] *)
  sizeof_T : N;
  (** whether the [k]-th call of [::operator new] (counted from 0), asking
      for [bytes] bytes, succeeds *)
  operator_new_ok : nat → N → bool;
  (** [std::vector::max_size()] *)
  vec_max_size : N;
  (** the capacity that a full vector of the given size grows to *)
  vec_check_len : N → N;
  (** [sizeof(std::thread)] *)
  sizeof_thread : N;
  (** the size of the object in which a [std::thread] keeps its function
      and arguments until the thread ends *)
  sizeof_thread_state : N;
  (** whether the [k]-th thread of the program (counted from 0) can be
      started *)
  thread_start_ok : nat → bool;
  (** the message of the [std::system_error] thrown when it cannot *)
  thread_error : string;
}.

(** One complete line of output: what one chain of [<<] writes. *)
Inductive Line :=
| LineAllocate (n : N)
| LineDeallocate (n : N)
| LineTotal (n : N)
| LineFirst (x : Z)
| LineFirstLabel
| LineDataError (msg : string)
| LineGeneralError (msg : string).

(** The line feed that ends a line of the source. *)
Definition endl : string := String (Ascii.ascii_of_nat 10) EmptyString.

(** The text of a line, as the source writes it. *)
Definition render (l : Line) : string :=
  match l with
  | LineAllocate n => "Выделяем память для " +:+ pretty n +:+ " элементов" +:+ endl
  | LineDeallocate n => "Освобождаем память для " +:+ pretty n +:+ " элементов" +:+ endl
  | LineTotal n => "Всего элементов: " +:+ pretty n +:+ endl
  | LineFirst x => "Первый элемент: " +:+ pretty x +:+ endl
  | LineFirstLabel => "Первый элемент: "
  | LineDataError msg => "Ошибка данных: " +:+ msg +:+ endl
  | LineGeneralError msg => "Общая ошибка: " +:+ msg +:+ endl
  end.

(** The part of the world outside the container: the two output streams
    and the raw heap, of which the model keeps the sizes requested from
    [::operator new], in call order, and the blocks given back to
    [::operator delete]; and the blocks that hold the messages of the
    exception objects now alive.  A block is named by the number of the
    call that returned it. *)
Record World := {
  cout : list Line;
  cerr : list Line;
  new_requests : list N;
  deleted : list nat;
  messages : list nat;
}.

Definition world0 : World :=
  {| cout := []; cerr := []; new_requests := []; deleted := []; messages := [] |}.

Definition print_cout (l : Line) (w : World) : World :=
  {| cout := cout w ++ [l]; cerr := cerr w;
     new_requests := new_requests w; deleted := deleted w; messages := messages w |}.

Definition print_cerr (l : Line) (w : World) : World :=
  {| cout := cout w; cerr := cerr w ++ [l];
     new_requests := new_requests w; deleted := deleted w; messages := messages w |}.

(** [::operator new(bytes)]: the request is recorded; the platform decides
    whether it succeeds; on failure [std::bad_alloc] is thrown. *)
Definition operator_new (P : Platform) (bytes : N) (w : World) : result nat * World :=
  let k := length (new_requests w) in
  let w' := {| cout := cout w; cerr := cerr w;
               new_requests := new_requests w ++ [bytes]; deleted := deleted w;
               messages := messages w |} in
  if operator_new_ok P k bytes then (Ok k, w') else (Throw bad_alloc, w').

(** [::operator delete(p)]. *)
Definition operator_delete (p : nat) (w : World) : World :=
  {| cout := cout w; cerr := cerr w;
     new_requests := new_requests w; deleted := deleted w ++ [p];
     messages := messages w |}.

(** ** Exceptions with a message *)

(** [std::runtime_error] and [std::logic_error] keep their message in a
    reference-counted string on the heap: a header of three words, the
    characters and a terminator. *)
Definition message_bytes (P : Platform) (msg : string) : N :=
  3 * (size_bits P `div` 8) + N.of_nat (String.length msg) + 1.

(** [throw e] for an exception [e] of such a class: the message is copied
    into a block obtained from [::operator new], which the exception
    object holds as long as it lives; when the block is refused the
    constructor throws [std::bad_alloc], and that is what is thrown.  The
    result is the exception that leaves. *)
Definition raise (P : Platform) (e : exception) (w : World) : exception * World :=
  match operator_new P (message_bytes P (what e)) w with
  | (Ok p, w1) =>
      (e, {| cout := cout w1; cerr := cerr w1; new_requests := new_requests w1;
             deleted := deleted w1; messages := messages w1 ++ [p] |})
  | (Throw e', w1) => (e', w1)
  end.

(** The end of a handler: the exception object is destroyed and the block
    of its message is given back. *)
Definition exception_destroyed (w : World) : World :=
  {| cout := cout w; cerr := cerr w; new_requests := new_requests w;
     deleted := deleted w ++ messages w; messages := [] |}.

(** The same when a call has thrown, and nothing otherwise. *)
Definition handled {A} (r : result A) (w : World) : World :=
  match r with
  | Throw _ => exception_destroyed w
  | Ok _ => w
  end.

(** ** [LoggingAllocator<T>] *)

Module LoggingAllocator.

(** The argument of [::operator new] in [allocate]: [n * sizeof(T)] in
    [size_t] arithmetic. *)
Definition byte_count (P : Platform) (n : N) : N :=
  (n * sizeof_T P) mod 2 ^ size_bits P.

(** [T* allocate(size_t n)]: the line is written first, then the storage
    is requested. *)
Definition allocate (P : Platform) (n : N) (w : World) : result nat * World :=
  let w1 := print_cout (LineAllocate n) w in
  operator_new P (byte_count P n) w1.

(** [void deallocate(T* p, size_t n)]. *)
Definition deallocate (p : nat) (n : N) (w : World) : World :=
  let w1 := print_cout (LineDeallocate n) w in
  operator_delete p w1.

End LoggingAllocator.

(** ** [std::vector<T, LoggingAllocator<T>>] *)

(** The vector: its elements in order, and the block that holds them with
    its capacity ([None] for the null pointer of a vector that never
    allocated). *)
Record vector := {
  elems : list Z;
  storage : option (nat * N);
}.

Module Vector.

Definition empty : vector := {| elems := []; storage := None |}.

Definition size (v : vector) : N := N.of_nat (length (elems v)).

Definition capacity (v : vector) : N :=
  match storage v with
  | Some (_, c) => c
  | None => 0
  end.

(** [v[i]]; the source only evaluates it for [i < size()]. *)
Definition at_index (v : vector) (i : N) : option Z := elems v !! N.to_nat i.

(** Giving the current block back to the allocator, if there is one. *)
Definition release (v : vector) (w : World) : World :=
  match storage v with
  | Some (p, c) => LoggingAllocator.deallocate p c w
  | None => w
  end.

(** [push_back]: when there is room the element is constructed in place;
    otherwise the vector throws [length_error], an exception with a
    message, if it cannot grow, or
    allocates the new block (which may throw, leaving the vector as it
    was), moves its elements there and gives the old block back. *)
Definition push_back (P : Platform) (x : Z) (v : vector) (w : World)
  : result unit * vector * World :=
  if size v <? capacity v then
    (Ok (), {| elems := elems v ++ [x]; storage := storage v |}, w)
  else if vec_max_size P <=? size v then
    let '(e, w1) := raise P (length_error "vector::_M_realloc_insert") w in
    (Throw e, v, w1)
  else
    let len := vec_check_len P (size v) in
    match LoggingAllocator.allocate P len w with
    | (Throw e, w1) => (Throw e, v, w1)
    | (Ok p, w1) =>
        (Ok (), {| elems := elems v ++ [x]; storage := Some (p, len) |}, release v w1)
    end.

(** The destructor: the elements are trivially destroyed and the block is
    given back. *)
Definition destroy (v : vector) (w : World) : World := release v w.

End Vector.

(** ** [std::mutex] and [std::lock_guard] *)

(** A mutex is free or owned by one thread. *)
Definition mutex := option nat.

Module Mutex.

(** [lock()] by thread [t]: [None] when the mutex is owned, in which case
    the caller cannot proceed. *)
Definition lock (t : nat) (m : mutex) : option mutex :=
  match m with
  | None => Some (Some t)
  | Some _ => None
  end.

(** [unlock()] by thread [t], defined only for the owner. *)
Definition unlock (t : nat) (m : mutex) : option mutex :=
  match m with
  | Some o => if decide (o = t) then Some None else None
  | None => None
  end.

End Mutex.

(** ** [ThreadSafeVector<T, Allocator>] *)

Record ThreadSafeVector := {
  data : vector;
  mtx : mutex;
}.

(** The three operations, and what they return. *)
Inductive Op :=
| Add (value : Z)
| Get (index : N)
| Size.

Inductive Ret :=
| RetVoid
| RetElem (x : Z)
| RetSize (n : N).

Module ThreadSafeVector.

(** The default constructor. *)
Definition new : ThreadSafeVector := {| data := Vector.empty; mtx := None |}.

(** [std::lock_guard<std::mutex> lock(mtx)] in thread [t]. *)
Definition lock_guard (t : nat) (s : ThreadSafeVector) : option ThreadSafeVector :=
  m ← Mutex.lock t (mtx s); Some {| data := data s; mtx := m |}.

(** The destructor of the guard, run when its scope is left, by [return]
    or by an exception. *)
Definition lock_guard_dtor (t : nat) (s : ThreadSafeVector) : option ThreadSafeVector :=
  m ← Mutex.unlock t (mtx s); Some {| data := data s; mtx := m |}.

(** The statement of [add] after the guard. *)
Definition add_body (P : Platform) (value : Z) (s : ThreadSafeVector) (w : World)
  : result unit * ThreadSafeVector * World :=
  let '(r, d, w') := Vector.push_back P value (data s) w in
  (r, {| data := d; mtx := mtx s |}, w').

(** The statements of [get] after the guard.  [DataException] inherits
    the constructors of [std::runtime_error]: throwing it copies the
    message to the heap. *)
Definition get_body (P : Platform) (index : N) (s : ThreadSafeVector) (w : World)
  : result Z * ThreadSafeVector * World :=
  if Vector.size (data s) <=? index then
    let '(e, w1) := raise P (DataException "Индекс за пределами вектора") w in
    (Throw e, s, w1)
  else
    (Ok (default 0%Z (Vector.at_index (data s) index)), s, w).

(** The statement of [size] after the guard. *)
Definition size_body (s : ThreadSafeVector) (w : World)
  : result N * ThreadSafeVector * World :=
  (Ok (Vector.size (data s)), s, w).

(** A member function run by thread [t]: the guard is taken, the body
    runs, and the guard is destroyed on the way out, whatever the body's
    outcome.  [None] when the call cannot proceed because the mutex is
    owned. *)
Definition guarded {A} (t : nat)
    (body : ThreadSafeVector → World → result A * ThreadSafeVector * World)
    (s : ThreadSafeVector) (w : World)
  : option (result A * ThreadSafeVector * World) :=
  s1 ← lock_guard t s;
  let '(r, s2, w2) := body s1 w in
  s3 ← lock_guard_dtor t s2;
  Some (r, s3, w2).

(** [void add(T&& value)] *)
Definition add (P : Platform) (t : nat) (value : Z) :=
  guarded t (add_body P value).

(** [T get(size_t index) const] *)
Definition get (P : Platform) (t : nat) (index : N) :=
  guarded t (get_body P index).

(** [size_t size() const] *)
Definition size (t : nat) :=
  guarded t size_body.

(** The implicit destructor: the vector member is destroyed. *)
Definition destroy (s : ThreadSafeVector) (w : World) : World :=
  Vector.destroy (data s) w.

(** The bodies under one type, for the thread machine below. *)
Definition tag {A} (f : A → Ret) (x : result A * ThreadSafeVector * World)
  : result Ret * ThreadSafeVector * World :=
  match x with
  | (Ok a, s, w) => (Ok (f a), s, w)
  | (Throw e, s, w) => (Throw e, s, w)
  end.

Definition body (P : Platform) (op : Op) (s : ThreadSafeVector) (w : World)
  : result Ret * ThreadSafeVector * World :=
  match op with
  | Add value => tag (λ _, RetVoid) (add_body P value s w)
  | Get index => tag RetElem (get_body P index s w)
  | Size => tag RetSize (size_body s w)
  end.

Definition call (P : Platform) (t : nat) (op : Op) (s : ThreadSafeVector) (w : World)
  : option (result Ret * ThreadSafeVector * World) :=
  match op with
  | Add value => tag (λ _, RetVoid) <$> add P t value s w
  | Get index => tag RetElem <$> get P t index s w
  | Size => tag RetSize <$> size t s w
  end.

End ThreadSafeVector.

(** ** Threads calling into one container *)

(** Where a thread is with respect to the member function it runs. *)
Inductive Phase :=
| Outside
| Inside (op : Op)
| Leaving (op : Op) (r : result Ret).

(** A thread: the calls it still has to make, its phase, and the calls it
    has completed with their outcomes. *)
Record Thread := {
  prog : list Op;
  phase : Phase;
  done : list (Op * result Ret);
}.

Record Machine := {
  obj : ThreadSafeVector;
  world : World;
  threads : list Thread;
  aborted : bool;
}.

Definition spawn (p : list Op) : Thread :=
  {| prog := p; phase := Outside; done := [] |}.

Definition boot (progs : list (list Op)) : Machine :=
  {| obj := ThreadSafeVector.new; world := world0;
     threads := spawn <$> progs; aborted := false |}.

Definition finished (th : Thread) : bool :=
  match phase th, prog th with
  | Outside, [] => true
  | _, _ => false
  end.

(** One step of thread [t].  Entering a call constructs the guard and is
    possible only when the mutex is free; then the body runs; then the
    guard is destroyed and the call's outcome reaches the caller.  With
    [catches = true] the caller catches an exception that leaves the call,
    by reference, and its handler ends at once, which destroys the
    exception.  With [catches = false] the exception leaves the thread
    function too, and [std::terminate] ends the process. *)
Definition step (P : Platform) (catches : bool) (t : nat) (m : Machine) : option Machine :=
  if aborted m then None else
  th ← threads m !! t;
  match phase th with
  | Outside =>
      match prog th with
      | [] => None
      | op :: rest =>
          s ← ThreadSafeVector.lock_guard t (obj m);
          Some {| obj := s; world := world m;
                  threads := <[t := {| prog := rest; phase := Inside op; done := done th |}]> (threads m);
                  aborted := false |}
      end
  | Inside op =>
      let '(r, s, w) := ThreadSafeVector.body P op (obj m) (world m) in
      Some {| obj := s; world := w;
              threads := <[t := {| prog := prog th; phase := Leaving op r; done := done th |}]> (threads m);
              aborted := false |}
  | Leaving op r =>
      s ← ThreadSafeVector.lock_guard_dtor t (obj m);
      Some {| obj := s; world := if catches then handled r (world m) else world m;
              threads := <[t := {| prog := prog th; phase := Outside; done := done th ++ [(op, r)] |}]> (threads m);
              aborted := is_Throw r && negb catches |}
  end.

(** A run: the steps of a schedule, each of which must be possible. *)
Fixpoint run (P : Platform) (catches : bool) (sched : list nat) (m : Machine) : option Machine :=
  match sched with
  | [] => Some m
  | t :: sched' => m' ← step P catches t m; run P catches sched' m'
  end.

(** The steps of [step] as a relation, case by case. *)
Inductive Step (P : Platform) (catches : bool) (t : nat) (m : Machine) : Machine → Prop :=
| Step_enter th op rest :
    aborted m = false → threads m !! t = Some th →
    phase th = Outside → prog th = op :: rest → mtx (obj m) = None →
    Step P catches t m {| obj := {| data := data (obj m); mtx := Some t |}; world := world m;
                threads := <[t := {| prog := rest; phase := Inside op; done := done th |}]> (threads m);
                aborted := false |}
| Step_body th op r s w :
    aborted m = false → threads m !! t = Some th →
    phase th = Inside op → ThreadSafeVector.body P op (obj m) (world m) = (r, s, w) →
    Step P catches t m {| obj := s; world := w;
                threads := <[t := {| prog := prog th; phase := Leaving op r; done := done th |}]> (threads m);
                aborted := false |}
| Step_leave th op r :
    aborted m = false → threads m !! t = Some th →
    phase th = Leaving op r → mtx (obj m) = Some t →
    Step P catches t m {| obj := {| data := data (obj m); mtx := None |};
                world := if catches then handled r (world m) else world m;
                threads := <[t := {| prog := prog th; phase := Outside; done := done th ++ [(op, r)] |}]> (threads m);
                aborted := is_Throw r && negb catches |}.

(** The values whose [add] returned normally, per thread and overall. *)
Definition added_by (th : Thread) : list Z :=
  omap (λ c, match c with (Add v, Ok _) => Some v | _ => None end) (done th).

Definition added (m : Machine) : list Z := concat (added_by <$> threads m).

(** The values that a program supplies to [add]. *)
Definition supplied (p : list Op) : list Z :=
  omap (λ op, match op with Add v => Some v | _ => None end) p.

(** The same, counting the call whose body has run and whose guard is
    not yet destroyed. *)
Definition landing (th : Thread) : list Z :=
  match phase th with
  | Leaving (Add v) (Ok _) => [v]
  | _ => []
  end.

Definition landed (th : Thread) : list Z := added_by th ++ landing th.

(** The calls of a thread's program: made, under way, and to come. *)
Definition current (th : Thread) : list Op :=
  match phase th with
  | Outside => []
  | Inside op => [op]
  | Leaving op _ => [op]
  end.

Definition script (th : Thread) : list Op := (done th).*1 ++ current th ++ prog th.

Definition inside (th : Thread) : bool :=
  match phase th with
  | Outside => false
  | _ => true
  end.

(** Whether a call of the thread has thrown. *)
Definition threw (th : Thread) : bool := existsb (λ c, is_Throw c.2) (done th).

(** [get(i)], [get(i + 1)], ... for [count] indices, by thread [t], which
    catches what a [get] throws. *)
Fixpoint get_range (P : Platform) (t : nat) (i : N) (count : nat)
    (s : ThreadSafeVector) (w : World)
  : option (list (result Z) * ThreadSafeVector * World) :=
  match count with
  | O => Some ([], s, w)
  | S k =>
      '(r, s1, w1) ← ThreadSafeVector.get P t i s w;
      '(rs, s2, w2) ← get_range P t (i + 1) k s1 (handled r w1);
      Some (r :: rs, s2, w2)
  end.

(** What a reader sees who calls [size()] and then [get] for every index
    below it. *)
Definition read_all (P : Platform) (t : nat) (s : ThreadSafeVector) (w : World)
  : option (list (result Z) * ThreadSafeVector * World) :=
  '(rn, s1, w1) ← ThreadSafeVector.size t s w;
  match rn with
  | Ok n => get_range P t 0 (N.to_nat n) s1 w1
  | Throw _ => None
  end.

(** ** Reading the allocator's lines *)

(** The counts named by the lines of [allocate], and of [deallocate]. *)
Definition acquired (out : list Line) : list N :=
  omap (λ l, match l with LineAllocate n => Some n | _ => None end) out.

Definition released (out : list Line) : list N :=
  omap (λ l, match l with LineDeallocate n => Some n | _ => None end) out.


(** Whether every call of [::operator new] so far has succeeded. *)
Definition all_granted (P : Platform) (w : World) : bool :=
  forallb (λ kb, operator_new_ok P kb.1 kb.2) (imap pair (new_requests w)).

(** The container's life: threads call into it as scheduled, then it is
    destroyed. *)
Definition lifetime (P : Platform) (catches : bool) (progs : list (list Op)) (sched : list nat)
  : option World :=
  m ← run P catches sched (boot progs);
  Some (ThreadSafeVector.destroy (obj m) (world m)).

(** ** Invariants of the thread machine *)

(** The threads inside a member function are exactly the owner of the
    mutex, and the owner is one of the threads. *)
Definition mutex_inv (m : Machine) : Prop :=
  (∀ t th, threads m !! t = Some th → inside th = true ↔ mtx (obj m) = Some t)
  ∧ (∀ t, mtx (obj m) = Some t → is_Some (threads m !! t)).

(** The elements are the values whose [add] has gone through. *)
Definition content_inv (m : Machine) : Prop :=
  elems (data (obj m)) ≡ₚ concat (landed <$> threads m).


(** ** The driver *)

(** The worker with identifier [id]: [add(id * 100 + i)] for [i] from 0 to 2. *)
Definition worker (id : Z) : list Op := (λ i, Add (id * 100 + i)%Z) <$> [0; 1; 2]%Z.

(** The five workers, with identifiers 1 to 5. *)
Definition workers : list (list Op) := (λ i, worker (i + 1)%Z) <$> [0; 1; 2; 3; 4]%Z.

(** How the process ends: [main] returns, or [std::terminate] is called. *)
Inductive Outcome :=
| Returned (code : Z)
| Terminated.



(** The thread of [main], after the five workers. *)
Definition main_thread : nat := 5.

(** The two output statements at the end of the [try] block. *)
Definition report (P : Platform) (s : ThreadSafeVector) (w : World)
  : option (result unit * ThreadSafeVector * World) :=
  '(rn, s1, w1) ← ThreadSafeVector.size main_thread s w;
  match rn with
  | Throw e => Some (Throw e, s1, w1)
  | Ok n =>
      let w2 := print_cout (LineTotal n) w1 in
      '(rx, s2, w3) ← ThreadSafeVector.get P main_thread 0 s1 w2;
      match rx with
      | Ok x => Some (Ok (), s2, print_cout (LineFirst x) w3)
      | Throw e => Some (Throw e, s2, print_cout LineFirstLabel w3)
      end
  end.

(** The two handlers, tried in order. *)
Definition main_catch (e : exception) (w : World) : World :=
  match e with
  | DataException _ => print_cerr (LineDataError (what e)) w
  | _ => print_cerr (LineGeneralError (what e)) w
  end.

(** Where [main] is: in [threads.emplace_back(worker, i + 1)], before the
    storage of [threads] is looked at ([Emplace]), before the thread
    object is constructed ([Make]), before the thread is started, the
    state [st] of the thread object being allocated ([Start]), before
    the old storage of [threads] is given back ([Settle]); in [t.join()]
    for thread [i]; before the output statements; or at its end. *)
Inductive Pc :=
| Emplace (i : nat)
| Make (i : nat)
| Start (i : nat) (st : nat)
| Settle (i : nat)
| Join (i : nat)
| Report
| Ended (o : Outcome).

(** The process: [safeVec], the world and the workers started so far; the
    storage of [threads], block and capacity, and its new storage while
    [threads] grows; for every worker started, the block of its state,
    until the thread has ended; and where [main] is. *)
Record Driver := {
  mach : Machine;
  handles : option (nat * N);
  fresh : option (nat * N);
  states : list (option nat);
  pc : Pc;
}.

Definition driver0 : Driver :=
  {| mach := boot []; handles := None; fresh := None; states := []; pc := Emplace 0 |}.

Definition set_world (w : World) (m : Machine) : Machine :=
  {| obj := obj m; world := w; threads := threads m; aborted := aborted m |}.

(** The end of the [try] block when no thread is joinable: [threads] is
    destroyed, then [safeVec]. *)
Definition scope_exit (d : Driver) (w : World) : World :=
  ThreadSafeVector.destroy (obj (mach d))
    match handles d with
    | Some (q, _) => operator_delete q w
    | None => w
    end.

(** An exception leaves the [try] block.  When a thread is joinable the
    destructor of [threads] calls [std::terminate].  Otherwise [threads]
    and [safeVec] are destroyed, the handler runs, the exception is
    destroyed and [main] returns 0. *)
Definition leave_try (joinable : bool) (e : exception) (d : Driver) (w : World)
  : Outcome * World :=
  if joinable then (Terminated, w)
  else (Returned 0, exception_destroyed (main_catch e (scope_exit d w))).

Definition ended (o : Outcome) (w : World) (d : Driver) : Driver :=
  {| mach := set_world w (mach d); handles := handles d; fresh := None;
     states := states d; pc := Ended o |}.

(** An exception leaves [emplace_back]: the new storage of [threads], if
    there is one, is given back, and the exception leaves the [try] block,
    with the threads started so far joinable. *)
Definition fail_spawn (e : exception) (d : Driver) (w : World) : Driver :=
  let w1 := match fresh d with
            | Some (q, _) => operator_delete q w
            | None => w
            end in
  let '(o, w2) := leave_try (if states d is [] then false else true) e d w1 in
  ended o w2 d.

(** The constructor of [std::thread] allocates the state of the thread. *)
Definition make (P : Platform) (i : nat) (d : Driver) : Driver :=
  match operator_new P (sizeof_thread_state P) (world (mach d)) with
  | (Ok st, w1) =>
      {| mach := set_world w1 (mach d); handles := handles d; fresh := fresh d;
         states := states d; pc := Start i st |}
  | (Throw e, w1) => fail_spawn e d w1
  end.

(** The [std::system_error] of a thread that cannot be started: the text
    of the error is first a [std::string], on the heap when it has more
    than 15 characters, which is copied into the message of the exception
    and then destroyed. *)
Definition throw_thread_error (P : Platform) (w : World) : exception * World :=
  let msg := thread_error P in
  if (15 <? String.length msg)%nat then
    match operator_new P (N.of_nat (String.length msg) + 1) w with
    | (Throw e, w1) => (e, w1)
    | (Ok tmp, w1) =>
        let '(e, w2) := raise P (system_error msg) w1 in
        (e, operator_delete tmp w2)
    end
  else raise P (system_error msg) w.

Definition after_emplace (i : nat) : Pc :=
  if decide (S i < length workers)%nat then Emplace (S i) else Join 0.

Definition after_join (i : nat) : Pc :=
  if decide (S i < length workers)%nat then Join (S i) else Report.

Definition handles_capacity (d : Driver) : N :=
  match handles d with
  | Some (_, c) => c
  | None => 0
  end.

(** One step of [main].  [threads] grows as the vector does: when it is
    full, new storage is allocated, the new thread is constructed in it,
    and the old storage is given back.  [join] waits for the thread to
    have ended.  [None] when [main] cannot go on. *)
Definition main_step (P : Platform) (d : Driver) : option Driver :=
  match pc d with
  | Emplace i =>
      if N.of_nat i <? handles_capacity d then Some (make P i d)
      else
        let cap := vec_check_len P (N.of_nat i) in
        match operator_new P (cap * sizeof_thread P) (world (mach d)) with
        | (Ok q, w1) =>
            Some {| mach := set_world w1 (mach d); handles := handles d;
                    fresh := Some (q, cap); states := states d; pc := Make i |}
        | (Throw e, w1) => Some (fail_spawn e d w1)
        end
  | Make i => Some (make P i d)
  | Start i st =>
      if thread_start_ok P i then
        let m1 := {| obj := obj (mach d); world := world (mach d);
                     threads := threads (mach d) ++ [spawn (default [] (workers !! i))];
                     aborted := aborted (mach d) |} in
        Some match fresh d, handles d with
             | Some f, Some _ =>
                 {| mach := m1; handles := handles d; fresh := fresh d;
                    states := states d ++ [Some st]; pc := Settle i |}
             | Some f, None =>
                 {| mach := m1; handles := Some f; fresh := None;
                    states := states d ++ [Some st]; pc := after_emplace i |}
             | None, _ =>
                 {| mach := m1; handles := handles d; fresh := None;
                    states := states d ++ [Some st]; pc := after_emplace i |}
             end
      else
        let '(e, w1) := throw_thread_error P (world (mach d)) in
        Some (fail_spawn e d (operator_delete st w1))
  | Settle i =>
      Some {| mach := match handles d with
                      | Some (q, _) => set_world (operator_delete q (world (mach d))) (mach d)
                      | None => mach d
                      end;
              handles := fresh d; fresh := None; states := states d;
              pc := after_emplace i |}
  | Join i =>
      match states d !! i with
      | Some None =>
          Some {| mach := mach d; handles := handles d; fresh := fresh d;
                  states := states d; pc := after_join i |}
      | _ => None
      end
  | Report =>
      '(r, s, w) ← report P (obj (mach d)) (world (mach d));
      let d1 := {| mach := {| obj := s; world := w; threads := threads (mach d);
                              aborted := aborted (mach d) |};
                   handles := handles d; fresh := fresh d; states := states d;
                   pc := pc d |} in
      Some match r with
           | Ok _ => ended (Returned 0) (scope_exit d1 w) d1
           | Throw e => let '(o, w') := leave_try false e d1 w in ended o w' d1
           end
  | Ended _ => None
  end.

(** One step of worker [t].  While its function runs it steps as a thread
    of the machine, without a handler, so that an exception ends the
    process.  When its function has returned the state of the thread
    object is destroyed, which ends the thread. *)
Definition worker_step (P : Platform) (t : nat) (d : Driver) : option Driver :=
  match pc d with
  | Ended _ => None
  | _ =>
      th ← threads (mach d) !! t;
      if finished th then
        match states d !! t with
        | Some (Some st) =>
            Some {| mach := set_world (operator_delete st (world (mach d))) (mach d);
                    handles := handles d; fresh := fresh d;
                    states := <[t := None]> (states d); pc := pc d |}
        | _ => None
        end
      else
        m ← step P false t (mach d);
        Some {| mach := m; handles := handles d; fresh := fresh d; states := states d;
                pc := if aborted m then Ended Terminated else pc d |}
  end.

(** One step of the process, by [main] or by a worker. *)
Definition dstep (P : Platform) (a : nat) (d : Driver) : option Driver :=
  if decide (a = main_thread) then main_step P d else worker_step P a d.

Fixpoint drive (P : Platform) (sched : list nat) (d : Driver) : option Driver :=
  match sched with
  | [] => Some d
  | a :: sched' => d' ← dstep P a d; drive P sched' d'
  end.

(** [main], for a schedule of its own steps and those of the workers: how
    the process ends, and the world then.  The pause after each [add]
    only bears on which schedule is seen.  [None] when the schedule stops
    before the process has ended, or asks for a step that cannot be
    taken. *)
Definition main (P : Platform) (sched : list nat) : option (Outcome * World) :=
  d ← drive P sched driver0;
  match pc d with
  | Ended o => Some (o, world (mach d))
  | _ => None
  end.

(** ** Platforms used in the examples *)

(** A 64-bit platform with 4-byte [int], the growth policy of libstdc++
    (double the size, from 1), and a heap that never fails. *)
Definition libstdcxx : Platform :=
  {| size_bits := 64; sizeof_T := 4;
     operator_new_ok := λ _ _, true;
     vec_max_size := (2 ^ 63 - 1) `div` 4;
     vec_check_len := λ n, N.min (n + N.max n 1) ((2 ^ 63 - 1) `div` 4);
     sizeof_thread := 8; sizeof_thread_state := 24;
     thread_start_ok := λ _, true;
     thread_error := "Resource temporarily unavailable" |}.

(** The same with a heap on which only the first [k] calls of
    [::operator new] succeed. *)
Definition failing_after (k : nat) : Platform :=
  {| size_bits := 64; sizeof_T := 4;
     operator_new_ok := λ i _, bool_decide (i < k)%nat;
     vec_max_size := (2 ^ 63 - 1) `div` 4;
     vec_check_len := λ n, N.min (n + N.max n 1) ((2 ^ 63 - 1) `div` 4);
     sizeof_thread := 8; sizeof_thread_state := 24;
     thread_start_ok := λ _, true;
     thread_error := "Resource temporarily unavailable" |}.

(** The same with a heap that never fails, on which only the first [k]
    threads can be started. *)
Definition threads_up_to (k : nat) : Platform :=
  {| size_bits := 64; sizeof_T := 4;
     operator_new_ok := λ _ _, true;
     vec_max_size := (2 ^ 63 - 1) `div` 4;
     vec_check_len := λ n, N.min (n + N.max n 1) ((2 ^ 63 - 1) `div` 4);
     sizeof_thread := 8; sizeof_thread_state := 24;
     thread_start_ok := λ i, bool_decide (i < k)%nat;
     thread_error := "Resource temporarily unavailable" |}.

(** The schedule in which the workers run one after the other. *)
Definition one_by_one : list nat :=
  t ← [0; 1; 2; 3; 4]%nat; replicate 9 t.

(** The schedule in which the workers take turns, one call each. *)
Definition round_robin : list nat :=
  _ ← [0; 1; 2]%nat; t ← [0; 1; 2; 3; 4]%nat; replicate 3 t.

(** A schedule of the whole process: [main] starts the five threads, the
    workers make their calls as in [calls], each thread ends, and [main]
    joins them and reports. *)
Definition main_first (calls : list nat) : list nat :=
  replicate 17 main_thread ++ calls ++ [0; 1; 2; 3; 4]%nat ++ replicate 6 main_thread.

(** A schedule in which the first worker adds its first value while
    [main] is still starting the others. *)
Definition early_bird : list nat :=
  replicate 3 main_thread ++ [0; 0; 0]%nat ++ replicate 14 main_thread
  ++ drop 3 one_by_one ++ [4; 3; 2; 1; 0]%nat ++ replicate 6 main_thread.

(** ** Further readings of a run *)

(** The call of a thread whose body has run and whose guard is not yet
    destroyed, with its outcome. *)
Definition leaving (th : Thread) : list (Op * result Ret) :=
  match phase th with
  | Leaving op r => [(op, r)]
  | _ => []
  end.

(** The calls of a thread whose bodies have run, in order. *)
Definition answered (th : Thread) : list (Op * result Ret) := done th ++ leaving th.

(** Calls made one after the other, each by the thread named with it, with
    their outcomes; the caller catches what a call throws, and the
    exception is destroyed before the next call. *)
Fixpoint seq_calls (P : Platform) (calls : list (nat * Op)) (s : ThreadSafeVector) (w : World)
  : option (list (nat * Op * result Ret) * ThreadSafeVector * World) :=
  match calls with
  | [] => Some ([], s, w)
  | (t, op) :: calls' =>
      '(r, s1, w1) ← ThreadSafeVector.call P t op s w;
      '(log, s2, w2) ← seq_calls P calls' s1 (handled r w1);
      Some ((t, op, r) :: log, s2, w2)
  end.

(** The calls of thread [t] in a log of calls. *)
Definition calls_of (t : nat) (log : list (nat * Op * result Ret)) : list (Op * result Ret) :=
  omap (λ c, if decide (c.1.1 = t) then Some (c.1.2, c.2) else None) log.

(** What a step of a run is to the call it belongs to: the guard takes
    the mutex, the body runs, the guard is destroyed and the call's
    outcome reaches the caller. *)
Inductive Event :=
| EvEnter (t : nat) (op : Op)
| EvBody (t : nat) (op : Op) (r : result Ret)
| EvReturn (t : nat) (op : Op) (r : result Ret).

(** The event that the next step of thread [t] is. *)
Definition event (P : Platform) (t : nat) (m : Machine) : option Event :=
  th ← threads m !! t;
  match phase th with
  | Outside =>
      match prog th with
      | op :: _ => Some (EvEnter t op)
      | [] => None
      end
  | Inside op => Some (EvBody t op (ThreadSafeVector.body P op (obj m) (world m)).1.1)
  | Leaving op r => Some (EvReturn t op r)
  end.

(** A run with its history: the events of its steps, in the order of
    the run. *)
Fixpoint history (P : Platform) (catches : bool) (sched : list nat) (m : Machine)
  : option (list Event * Machine) :=
  match sched with
  | [] => Some ([], m)
  | t :: sched' =>
      e ← event P t m;
      m' ← step P catches t m;
      '(evs, m'') ← history P catches sched' m';
      Some (e :: evs, m'')
  end.

(** The calls whose bodies have run, with their outcomes, in the order in
    which the bodies ran. *)
Definition effects (evs : list Event) : list (nat * Op * result Ret) :=
  omap (λ e, match e with EvBody t op r => Some (t, op, r) | _ => None end) evs.

(** Which event can come after which: a call is entered when no call is
    under way; the body that runs is that of the call entered; the call
    that returns is the one whose body ran, with the body's outcome. *)
Definition follows (prev : option Event) (e : Event) : Prop :=
  match prev, e with
  | None, EvEnter _ _ => True
  | Some (EvReturn _ _ _), EvEnter _ _ => True
  | Some (EvEnter t op), EvBody t' op' _ => t' = t ∧ op' = op
  | Some (EvBody t op r), EvReturn t' op' r' => t' = t ∧ op' = op ∧ r' = r
  | _, _ => False
  end.

(** A history of whole calls, one after another, the last one possibly
    under way. *)
Fixpoint one_at_a_time (prev : option Event) (evs : list Event) : Prop :=
  match evs with
  | [] => True
  | e :: evs' => follows prev e ∧ one_at_a_time (Some e) evs'
  end.

(** Whether an exception is on its way to a handler, or has ended the
    process. *)
Definition pending (m : Machine) : Prop :=
  aborted m = true
  ∨ ∃ t th op e, threads m !! t = Some th ∧ phase th = Leaving op (Throw e).

(** What a history keeps of the run that made it: it is a chain of whole
    calls; its last event tells where the owner of the mutex is; an
    exception's message is alive only while the exception is; and the
    calls whose bodies have run, made one after the other in that order
    on a new container, give the outcomes, the elements and, pending
    exceptions apart, the world of the run. *)
Definition linear (P : Platform) (m : Machine) (evs : list Event) : Prop :=
  one_at_a_time None evs
  ∧ match last evs with
    | None | Some (EvReturn _ _ _) => mtx (obj m) = None
    | Some (EvEnter t op) => ∃ th, threads m !! t = Some th ∧ phase th = Inside op
    | Some (EvBody t op r) => ∃ th, threads m !! t = Some th ∧ phase th = Leaving op r
    end
  ∧ (messages (world m) = [] ∨ pending m)
  ∧ seq_calls P (effects evs).*1 ThreadSafeVector.new world0
    = Some (effects evs, {| data := data (obj m); mtx := None |}, exception_destroyed (world m))
  ∧ ∀ t th, threads m !! t = Some th → calls_of t (effects evs) = answered th.

(** The counts of the lines of [allocate] whose request was granted, when
    the request of the [i]-th line was the [ks !! i]-th call of
    [::operator new]. *)
Definition granted_counts (P : Platform) (ks : list nat) (ns : list N) : list N :=
  omap (λ kn, if operator_new_ok P kn.1 (LoggingAllocator.byte_count P kn.2)
              then Some kn.2 else None)
       (zip ks ns).

(** The blocks that [::operator new] has returned. *)
Definition granted_blocks (P : Platform) (w : World) : list nat :=
  omap (λ kb, if operator_new_ok P kb.1 kb.2 then Some kb.1 else None)
       (imap pair (new_requests w)).

(** The block that the vector holds. *)
Definition held (v : vector) : list nat :=
  match storage v with
  | Some (p, _) => [p]
  | None => []
  end.

(** The capacity of the block that the vector holds. *)
Definition caps (v : vector) : list N :=
  match storage v with
  | Some (_, c) => [c]
  | None => []
  end.

(** The books of the allocator: the lines of [allocate] stand, in order,
    for the calls numbered [ks] of [::operator new], each for the bytes of
    its count; the lines of [deallocate] and the block held account, by
    count and in order, for those of them that were granted. *)
Definition books (P : Platform) (v : vector) (w : World) (ks : list nat) : Prop :=
  ks `sublist_of` seq 0 (length (new_requests w))
  ∧ Forall2 (λ k n, new_requests w !! k = Some (LoggingAllocator.byte_count P n))
            ks (acquired (cout w))
  ∧ granted_counts P ks (acquired (cout w)) = released (cout w) ++ caps v.

(** The blocks: those deleted, the one that the vector holds and those of
    the exceptions alive are the blocks that [::operator new] has
    returned. *)
Definition blocks_inv (P : Platform) (v : vector) (w : World) : Prop :=
  deleted w ++ held v ++ messages w ≡ₚ granted_blocks P w.

(** The steps that a thread has left: three for each call to come, two
    after the guard is taken, one after the body has run. *)
Definition weight (th : Thread) : nat :=
  (3 * length (prog th) +
   match phase th with Outside => 0 | Inside _ => 2 | Leaving _ _ => 1 end)%nat.

Definition remaining (m : Machine) : nat := sum_list (weight <$> threads m).

(** Whether a call of the thread has thrown, the call under way
    included. *)
Definition failing (th : Thread) : bool :=
  threw th || match phase th with Leaving _ (Throw _) => true | _ => false end.

(** What a thread has been answered stays true of the elements [els]: a
    size it was told is not above the present size, an element it was
    given is at its index, a value it added is among the elements. *)
Definition still_true (els : list Z) (c : Op * result Ret) : Prop :=
  match c with
  | (Size, Ok (RetSize n)) => n ≤ N.of_nat (length els)
  | (Get index, Ok (RetElem x)) => els !! N.to_nat index = Some x
  | (Add value, Ok _) => value ∈ els
  | _ => True
  end.

(** ** Readings of the driver *)

(** The steps that [main] has left, at most, by where it is. *)
Definition pc_weight (c : Pc) : nat :=
  match c with
  | Emplace i => 4 * (5 - i) + 6
  | Make i => 4 * (5 - i) + 5
  | Start i _ => 4 * (5 - i) + 4
  | Settle i => 4 * (5 - i) + 3
  | Join i => 6 - i
  | Report => 1
  | Ended _ => 0
  end.

(** The steps of [main_step] as a relation, by what they do to the
    process: a block is asked for and granted, or given back, and [main]
    moves on within [emplace_back]; a thread is started; a thread that
    has ended is joined; [emplace_back] fails, of a request refused or of
    a thread that cannot be started; the output statements run. *)
Inductive MainStep (P : Platform) (d : Driver) : Driver → Prop :=
| MS_alloc i w' h' f' c' :
    pc d = Emplace i ∨ pc d = Make i →
    c' = Make i ∨ (∃ st, c' = Start i st) →
    (pc_weight c' < pc_weight (pc d))%nat →
    cout w' = cout (world (mach d)) → cerr w' = cerr (world (mach d)) →
    (∃ extra, new_requests w' = new_requests (world (mach d)) ++ extra) →
    all_granted P w' = all_granted P (world (mach d)) →
    MainStep P d {| mach := set_world w' (mach d); handles := h'; fresh := f';
                    states := states d; pc := c' |}
| MS_settle i w' h' f' :
    pc d = Settle i →
    cout w' = cout (world (mach d)) → cerr w' = cerr (world (mach d)) →
    new_requests w' = new_requests (world (mach d)) →
    MainStep P d {| mach := set_world w' (mach d); handles := h'; fresh := f';
                    states := states d; pc := after_emplace i |}
| MS_spawn i st h' f' c' :
    pc d = Start i st → thread_start_ok P i = true →
    c' = Settle i ∨ c' = after_emplace i →
    MainStep P d {| mach := {| obj := obj (mach d); world := world (mach d);
                               threads := threads (mach d) ++ [spawn (default [] (workers !! i))];
                               aborted := aborted (mach d) |};
                    handles := h'; fresh := f'; states := states d ++ [Some st]; pc := c' |}
| MS_join i :
    pc d = Join i → states d !! i = Some None →
    MainStep P d {| mach := mach d; handles := handles d; fresh := fresh d;
                    states := states d; pc := after_join i |}
| MS_fail i e w1 :
    pc d = Emplace i ∨ pc d = Make i ∨ (∃ st, pc d = Start i st) →
    cout w1 = cout (world (mach d)) → cerr w1 = cerr (world (mach d)) →
    (∃ extra, new_requests w1 = new_requests (world (mach d)) ++ extra) →
    (∀ msg, e ≠ DataException msg) →
    all_granted P w1 = false ∨ thread_start_ok P i = false →
    MainStep P d (fail_spawn e d w1)
| MS_report r s w' d' :
    pc d = Report →
    report P (obj (mach d)) (world (mach d)) = Some (r, s, w') →
    main_step P d = Some d' →
    MainStep P d d'.

(** Where [main] is agrees with the threads started: there is a state
    for each thread; the threads run the first workers; a thread whose
    state is gone has returned from its function; and [main] has started
    the threads before the one it is starting and joined the threads
    before the one it is joining. *)
Definition aligned (d : Driver) : Prop :=
  length (states d) = length (threads (mach d))
  ∧ script <$> threads (mach d) = take (length (threads (mach d))) workers
  ∧ (∀ t, states d !! t = Some None →
       ∃ th, threads (mach d) !! t = Some th ∧ finished th = true)
  ∧ match pc d with
    | Emplace i | Make i | Start i _ => length (threads (mach d)) = i ∧ (i < 5)%nat
    | Settle i => length (threads (mach d)) = S i ∧ (i < 5)%nat
    | Join i =>
        length (threads (mach d)) = 5%nat ∧ (i < 5)%nat
        ∧ ∀ j, (j < i)%nat → states d !! j = Some None
    | Report =>
        length (threads (mach d)) = 5%nat
        ∧ ∀ j, (j < 5)%nat → states d !! j = Some None
    | Ended _ => True
    end.

(** What holds of the process while [main] has not ended. *)
Definition running (P : Platform) (d : Driver) : Prop :=
  aligned d
  ∧ aborted (mach d) = false
  ∧ mutex_inv (mach d)
  ∧ content_inv (mach d)
  ∧ existsb threw (threads (mach d)) = false
  ∧ cerr (world (mach d)) = []
  ∧ (threads (mach d) = [] →
       cout (world (mach d)) = [] ∧ storage (data (obj (mach d))) = None)
  ∧ (storage (data (obj (mach d))) = None → elems (data (obj (mach d))) = [])
  ∧ (∀ x, head (elems (data (obj (mach d)))) = Some x →
       ∃ t th, threads (mach d) !! t = Some th ∧ head (landed th) = Some x)
  ∧ (all_granted P (world (mach d)) = false → existsb failing (threads (mach d)) = true)
  ∧ (existsb failing (threads (mach d)) = true →
       all_granted P (world (mach d)) = false ∨ vec_max_size P ≤ 15)
  ∧ ∃ ks, books P (data (obj (mach d))) (world (mach d)) ks.

(** What holds of the process when it has ended.  [main] returns 0, after
    its report or after its handler; the handler runs only for a failure
    of [main] itself before any thread was started, and not for a
    [DataException].  The process is terminated only with threads
    started.  Either failure has a cause: a request refused, a vector at
    its maximal size, or a thread that cannot be started. *)
Definition final (P : Platform) (o : Outcome) (d : Driver) : Prop :=
  match o with
  | Returned code =>
      code = 0%Z
      ∧ ((cerr (world (mach d)) = []
          ∧ all_granted P (world (mach d)) = true
          ∧ released (cout (world (mach d))) = acquired (cout (world (mach d)))
          ∧ ∃ pre x c,
              cout (world (mach d)) = pre ++ [LineTotal 15; LineFirst x; LineDeallocate c]
              ∧ x ∈ [100; 200; 300; 400; 500]%Z)
         ∨ (threads (mach d) = []
            ∧ cout (world (mach d)) = []
            ∧ (all_granted P (world (mach d)) = false ∨ thread_start_ok P 0 = false)
            ∧ ∃ e, (∀ msg, e ≠ DataException msg)
                   ∧ cerr (world (mach d)) = [LineGeneralError (what e)]))
  | Terminated =>
      cerr (world (mach d)) = []
      ∧ threads (mach d) ≠ []
      ∧ (all_granted P (world (mach d)) = false ∨ vec_max_size P ≤ 15
         ∨ ∃ i, thread_start_ok P i = false)
  end.

Definition driver_inv (P : Platform) (d : Driver) : Prop :=
  match pc d with
  | Ended o => final P o d
  | _ => running P d
  end.

(** The steps that the process has left, at most: those of [main]; those
    of the calls of the workers; one for the end of each thread; and all
    of these for each thread yet to be started. *)
Definition togo (d : Driver) : nat :=
  (pc_weight (pc d) + remaining (mach d)
   + sum_list ((λ o : option nat, if o is Some _ then 1 else 0) <$> states d)
   + 10 * (5 - length (threads (mach d))))%nat.

(** * Properties *)

(** ** The allocator *)

Section allocator.
Context (P : Platform).

Lemma operator_new_cout bytes w :
  cout (operator_new P bytes w).2 = cout w.
Proof. unfold operator_new. by destruct (operator_new_ok _ _ _). Qed.

Lemma operator_new_requests bytes w :
  new_requests (operator_new P bytes w).2 = new_requests w ++ [bytes].
Proof. unfold operator_new. by destruct (operator_new_ok _ _ _). Qed.

Lemma allocate_cout n w :
  cout (LoggingAllocator.allocate P n w).2 = cout w ++ [LineAllocate n].
Proof. unfold LoggingAllocator.allocate. by rewrite operator_new_cout. Qed.

Lemma allocate_requests n w :
  new_requests (LoggingAllocator.allocate P n w).2
  = new_requests w ++ [LoggingAllocator.byte_count P n].
Proof. unfold LoggingAllocator.allocate. by rewrite operator_new_requests. Qed.

Lemma allocate_Throw n w e w' :
  LoggingAllocator.allocate P n w = (Throw e, w') →
  e = bad_alloc
  ∧ operator_new_ok P (length (new_requests w)) (LoggingAllocator.byte_count P n) = false.
Proof.
  unfold LoggingAllocator.allocate, operator_new. simpl.
  destruct (operator_new_ok _ _ _); intros [= <- <-]; done.
Qed.

Lemma allocate_Ok n w p w' :
  LoggingAllocator.allocate P n w = (Ok p, w') →
  p = length (new_requests w)
  ∧ operator_new_ok P (length (new_requests w)) (LoggingAllocator.byte_count P n) = true.
Proof.
  unfold LoggingAllocator.allocate, operator_new. simpl.
  destruct (operator_new_ok _ _ _); intros [= <- <-]; done.
Qed.

Lemma deallocate_cout p n w :
  cout (LoggingAllocator.deallocate p n w) = cout w ++ [LineDeallocate n].
Proof. done. Qed.

Lemma deallocate_requests p n w :
  new_requests (LoggingAllocator.deallocate p n w) = new_requests w.
Proof. done. Qed.

End allocator.

(** C5, as the code has it: a failing [allocate(n)] has written its line,
    exactly one and naming [n], by the time [std::bad_alloc] reaches the
    caller; this is so for every failing call. *)
Theorem allocate_failure_logs_first (P : Platform) (n : N) (w w' : World) (e : exception) :
  LoggingAllocator.allocate P n w = (Throw e, w') →
  e = bad_alloc ∧ cout w' = cout w ++ [LineAllocate n].
Proof.
  intros H. split.
  - by destruct (allocate_Throw P _ _ _ _ H).
  - by rewrite <- (allocate_cout P n w), H.
Qed.

Lemma allocate_failure_logs_first_witness :
  LoggingAllocator.allocate (failing_after 0) 1 world0
    = (Throw bad_alloc,
       {| cout := [LineAllocate 1]; cerr := []; new_requests := [4]; deleted := []; messages := [] |})
  ∧ bad_alloc = bad_alloc
  ∧ [LineAllocate 1] = [] ++ [LineAllocate 1].
Proof.
  split; [reflexivity|].
  apply (allocate_failure_logs_first (failing_after 0) 1 world0
           {| cout := [LineAllocate 1]; cerr := []; new_requests := [4]; deleted := []; messages := [] |}
           bad_alloc).
  reflexivity.
Defined.

(** C5, as the specification words it, does not hold: it is not the case
    that every failing [allocate] leaves the diagnostic stream as it
    found it. *)
Lemma allocate_failure_silent_counterexample :
  ¬ (∀ (P : Platform) (n : N) (w w' : World) (e : exception),
       LoggingAllocator.allocate P n w = (Throw e, w') → cout w' = cout w).
Proof.
  intros H.
  specialize (H (failing_after 0) 1 world0 _ _ eq_refl).
  discriminate H.
Qed.

(** C10: [allocate(n)] asks [::operator new] for [(n * sizeof(T)) mod 2^w]
    bytes, [w] the width of [size_t], and its line reports [n] itself;
    when [T] takes at least two bytes, every [n] from [2^(w-1)] on asks
    for fewer bytes than [n] elements need. *)
Theorem allocate_byte_count_wraps (P : Platform) :
  0 < size_bits P →
  1 < sizeof_T P →
  (∀ n w,
     new_requests (LoggingAllocator.allocate P n w).2
       = new_requests w ++ [(n * sizeof_T P) mod 2 ^ size_bits P]
     ∧ cout (LoggingAllocator.allocate P n w).2 = cout w ++ [LineAllocate n])
  ∧ (∀ n w,
       2 ^ (size_bits P - 1) ≤ n →
       ∃ bytes,
         last (new_requests (LoggingAllocator.allocate P n w).2) = Some bytes
         ∧ bytes < n * sizeof_T P).
Proof.
  intros Hw Hs. split.
  - intros n w. by rewrite allocate_requests, allocate_cout.
  - intros n w Hn. exists (LoggingAllocator.byte_count P n).
    rewrite allocate_requests, last_snoc. split; [done|].
    unfold LoggingAllocator.byte_count.
    assert (2 ^ size_bits P = 2 * 2 ^ (size_bits P - 1)) as Hpow.
    { rewrite <- N.pow_succ_r'. f_equal. lia. }
    assert (0 < 2 ^ (size_bits P - 1)) by (apply N.neq_0_lt_0, N.pow_nonzero; lia).
    eapply N.lt_le_trans; [apply N.mod_lt; lia|].
    rewrite Hpow. nia.
Qed.

Lemma allocate_byte_count_wraps_witness :
  LoggingAllocator.byte_count libstdcxx (2 ^ 62) = 0
  ∧ ∃ bytes,
      last (new_requests (LoggingAllocator.allocate libstdcxx (2 ^ 63) world0).2) = Some bytes
      ∧ bytes < 2 ^ 63 * sizeof_T libstdcxx.
Proof.
  split; [reflexivity|].
  apply (allocate_byte_count_wraps libstdcxx); [reflexivity | reflexivity |].
  vm_compute. discriminate.
Defined.

(** ** The container, one call at a time *)

Section container.
Context (P : Platform).

Lemma guarded_free {A} t (body : ThreadSafeVector → World → result A * ThreadSafeVector * World) s w :
  mtx s = None →
  ThreadSafeVector.guarded t body s w
  = let '(r, s2, w2) := body {| data := data s; mtx := Some t |} w in
    if decide (mtx s2 = Some t) then Some (r, {| data := data s2; mtx := None |}, w2) else None.
Proof.
  intros Hfree. unfold ThreadSafeVector.guarded, ThreadSafeVector.lock_guard. rewrite Hfree. simpl.
  destruct (body _ _) as [[r s2] w2].
  unfold ThreadSafeVector.lock_guard_dtor, Mutex.unlock.
  destruct (mtx s2) as [o|]; simpl.
  - destruct (decide (o = t)) as [->|Hne]; simpl.
    + by rewrite decide_True.
    + rewrite decide_False; [done|congruence].
  - done.
Qed.

Lemma guarded_Some {A} t (body : ThreadSafeVector → World → result A * ThreadSafeVector * World) s w x :
  ThreadSafeVector.guarded t body s w = Some x → mtx s = None.
Proof.
  unfold ThreadSafeVector.guarded, ThreadSafeVector.lock_guard, Mutex.lock.
  by destruct (mtx s).
Qed.

Lemma push_back_Ok x v w v' w' :
  Vector.push_back P x v w = (Ok (), v', w') → elems v' = elems v ++ [x].
Proof.
  unfold Vector.push_back.
  destruct (_ <? _); [by intros [= <- <-]|].
  destruct (_ <=? _); [by destruct (raise _ _ _)|].
  destruct (LoggingAllocator.allocate _ _ _) as [[p|e] w1]; [|done].
  by intros [= <- <-].
Qed.

Lemma push_back_Throw x v w e v' w' :
  Vector.push_back P x v w = (Throw e, v', w') → v' = v.
Proof.
  unfold Vector.push_back.
  destruct (_ <? _); [done|].
  destruct (_ <=? _); [destruct (raise _ _ _); by intros [= <- <- <-]|].
  destruct (LoggingAllocator.allocate _ _ _) as [[p|e'] w1]; [done|].
  by intros [= <- <- <-].
Qed.

Lemma add_free t value s w :
  mtx s = None →
  ThreadSafeVector.add P t value s w
  = let '(r, d, w') := Vector.push_back P value (data s) w in
    Some (r, {| data := d; mtx := None |}, w').
Proof.
  intros Hfree. unfold ThreadSafeVector.add. rewrite guarded_free by done.
  unfold ThreadSafeVector.add_body. simpl.
  destruct (Vector.push_back _ _ _ _) as [[r d] w']. simpl. by rewrite decide_True.
Qed.

Lemma raise_cout e w : cout (raise P e w).2 = cout w.
Proof. unfold raise, operator_new. by destruct (operator_new_ok _ _ _). Qed.

Lemma raise_cerr e w : cerr (raise P e w).2 = cerr w.
Proof. unfold raise, operator_new. by destruct (operator_new_ok _ _ _). Qed.

Lemma raise_requests e w :
  new_requests (raise P e w).2 = new_requests w ++ [message_bytes P (what e)].
Proof. unfold raise, operator_new. by destruct (operator_new_ok _ _ _). Qed.

Lemma get_free t index s w :
  mtx s = None →
  ThreadSafeVector.get P t index s w
  = Some ((ThreadSafeVector.get_body P index s w).1.1, s,
          (ThreadSafeVector.get_body P index s w).2).
Proof.
  intros Hfree. unfold ThreadSafeVector.get. rewrite guarded_free by done.
  unfold ThreadSafeVector.get_body. simpl. destruct s as [d m]. simpl in *. subst m.
  destruct (_ <=? _); simpl; [destruct (raise _ _ _) as [e w1]; simpl|];
    by rewrite decide_True.
Qed.

(** [get] inside the elements returns the element and touches nothing. *)
Lemma get_inside t index s w x :
  mtx s = None → elems (data s) !! N.to_nat index = Some x →
  ThreadSafeVector.get P t index s w = Some (Ok x, s, w).
Proof.
  intros Hfree Hx. rewrite get_free by done.
  unfold ThreadSafeVector.get_body, Vector.size, Vector.at_index.
  pose proof (lookup_lt_Some _ _ _ Hx).
  destruct (N.leb_spec (N.of_nat (length (elems (data s)))) index); [lia|]. simpl.
  by rewrite Hx.
Qed.

Lemma size_free t s w :
  mtx s = None →
  ThreadSafeVector.size t s w = Some (Ok (Vector.size (data s)), s, w).
Proof.
  intros Hfree. unfold ThreadSafeVector.size. rewrite guarded_free by done.
  unfold ThreadSafeVector.size_body. simpl. destruct s as [d m]. simpl in *. subst m.
  by rewrite decide_True.
Qed.

(** A failed [add] leaves the container as it was, whatever was thrown. *)
Lemma add_Throw_unchanged t value s w e s' w' :
  ThreadSafeVector.add P t value s w = Some (Throw e, s', w') → s' = s.
Proof.
  intros H. pose proof (guarded_Some _ _ _ _ _ H) as Hfree.
  rewrite add_free in H by done.
  destruct (Vector.push_back _ _ _ _) as [[r d] w1] eqn:Hpb.
  injection H as -> <- <-.
  apply push_back_Throw in Hpb as ->. destruct s; simpl in *; by subst.
Qed.

End container.

(** C1, as the code has it: with [n] the current length, [get(index)]
    fails exactly when [index >= n].  The failure is a [DataException]
    with a message when the store for that message is granted, and
    [std::bad_alloc] when it is refused; either way the request for the
    message is the one thing that happened, and the container is
    untouched.  When [index < n] the call returns the element at [index]
    and nothing else changes. *)
Theorem get_bounds (P : Platform) (t : nat) (index : N) (s : ThreadSafeVector) (w : World) :
  mtx s = None →
  (Vector.size (data s) ≤ index →
     ∃ msg, msg ≠ ""
       ∧ ThreadSafeVector.get P t index s w
         = Some (if operator_new_ok P (length (new_requests w)) (message_bytes P msg)
                 then (Throw (DataException msg), s,
                       {| cout := cout w; cerr := cerr w;
                          new_requests := new_requests w ++ [message_bytes P msg];
                          deleted := deleted w;
                          messages := messages w ++ [length (new_requests w)] |})
                 else (Throw bad_alloc, s,
                       {| cout := cout w; cerr := cerr w;
                          new_requests := new_requests w ++ [message_bytes P msg];
                          deleted := deleted w; messages := messages w |})))
  ∧ (index < Vector.size (data s) →
     ∃ x, elems (data s) !! N.to_nat index = Some x
          ∧ ThreadSafeVector.get P t index s w = Some (Ok x, s, w))
  ∧ ((∃ e s' w', ThreadSafeVector.get P t index s w = Some (Throw e, s', w'))
     ↔ Vector.size (data s) ≤ index).
Proof.
  intros Hfree. rewrite get_free by done. unfold ThreadSafeVector.get_body.
  destruct (N.leb_spec (Vector.size (data s)) index) as [Hge|Hlt]; simpl.
  - split; [|split].
    + intros _. exists "Индекс за пределами вектора". split; [done|].
      unfold raise, operator_new. simpl.
      by destruct (operator_new_ok _ _ _).
    + lia.
    + split; [done|]. intros _.
      destruct (raise _ _ _) as [e w1]. by do 3 eexists.
  - assert (is_Some (elems (data s) !! N.to_nat index)) as [x Hx].
    { apply lookup_lt_is_Some. unfold Vector.size in Hlt. lia. }
    split; [|split].
    + lia.
    + intros _. exists x. split; [done|]. unfold Vector.at_index. by rewrite Hx.
    + split; [|lia]. by intros (e & s' & w' & [=]).
Qed.

Lemma get_bounds_witness :
  ThreadSafeVector.get libstdcxx 0 2
    {| data := {| elems := [10; 20; 30]%Z; storage := Some (2%nat, 4) |}; mtx := None |} world0
  = Some (Ok 30%Z, {| data := {| elems := [10; 20; 30]%Z; storage := Some (2%nat, 4) |}; mtx := None |}, world0)
  ∧ ThreadSafeVector.get libstdcxx 0 3
      {| data := {| elems := [10; 20; 30]%Z; storage := Some (2%nat, 4) |}; mtx := None |} world0
    = Some (Throw (DataException "Индекс за пределами вектора"),
            {| data := {| elems := [10; 20; 30]%Z; storage := Some (2%nat, 4) |}; mtx := None |},
            {| cout := []; cerr := []; new_requests := [76]; deleted := []; messages := [0%nat] |})
  ∧ ((∃ e s' w',
        ThreadSafeVector.get libstdcxx 0 3
          {| data := {| elems := [10; 20; 30]%Z; storage := Some (2%nat, 4) |}; mtx := None |} world0
        = Some (Throw e, s', w'))
     ↔ 3 ≤ 3).
Proof.
  split; [reflexivity|]. split; [reflexivity|].
  apply (get_bounds libstdcxx 0 3
           {| data := {| elems := [10; 20; 30]%Z; storage := Some (2%nat, 4) |}; mtx := None |} world0).
  reflexivity.
Defined.

(** C1, as the specification words it, does not hold: an index past the
    end does not always make [get] fail with a [DataException].  On a
    heap that refuses the store for the exception's message, [get(0)] on
    the empty container fails with [std::bad_alloc]. *)
Lemma get_bounds_counterexample :
  ThreadSafeVector.get (failing_after 0) 0 0 ThreadSafeVector.new world0
  = Some (Throw bad_alloc, ThreadSafeVector.new,
          {| cout := []; cerr := []; new_requests := [76]; deleted := []; messages := [] |})
  ∧ ¬ (∀ (P : Platform) (t : nat) (index : N) (s : ThreadSafeVector) (w : World),
         mtx s = None → Vector.size (data s) ≤ index →
         ∃ msg s' w', ThreadSafeVector.get P t index s w = Some (Throw (DataException msg), s', w')).
Proof.
  split; [reflexivity|].
  intros H.
  destruct (H (failing_after 0) 0%nat 0 ThreadSafeVector.new world0 eq_refl) as (msg & s' & w' & Hget).
  - vm_compute. discriminate.
  - vm_compute in Hget. discriminate Hget.
Qed.

(** C2: when [add(value)] returns, the elements are the old ones, in
    their order, followed by [value]: the length is one more, [value] is
    at the last position, and the mutex is free again. *)
Theorem add_appends (P : Platform) (t : nat) (value : Z) (s s' : ThreadSafeVector) (w w' : World) :
  ThreadSafeVector.add P t value s w = Some (Ok (), s', w') →
  Vector.size (data s') = Vector.size (data s) + 1
  ∧ elems (data s') !! N.to_nat (Vector.size (data s)) = Some value
  ∧ elems (data s') = elems (data s) ++ [value]
  ∧ mtx s' = mtx s.
Proof.
  intros H. pose proof (guarded_Some _ _ _ _ _ H) as Hfree.
  rewrite add_free in H by done.
  destruct (Vector.push_back _ _ _ _) as [[r d] w1] eqn:Hpb.
  injection H as -> <- <-. apply push_back_Ok in Hpb. simpl.
  unfold Vector.size. rewrite Hpb, length_app, Nat2N.id. simpl.
  split; [lia|]. split; [|done].
  rewrite lookup_app_r by done. by rewrite Nat.sub_diag.
Qed.

Lemma add_appends_witness :
  Vector.size (data {| data := {| elems := [10; 20; 30]%Z; storage := Some (3%nat, 4) |}; mtx := None |})
  = Vector.size (data {| data := {| elems := [10; 20]%Z; storage := Some (3%nat, 4) |}; mtx := None |}) + 1
  ∧ [10; 20; 30]%Z !! 2%nat = Some 30%Z
  ∧ [10; 20; 30]%Z = [10; 20]%Z ++ [30]%Z
  ∧ @None nat = None.
Proof.
  apply (add_appends libstdcxx 0 30
           {| data := {| elems := [10; 20]%Z; storage := Some (3%nat, 4) |}; mtx := None |}
           {| data := {| elems := [10; 20; 30]%Z; storage := Some (3%nat, 4) |}; mtx := None |}
           world0 world0).
  reflexivity.
Defined.

(** C6: when [add] has to allocate and [allocate] throws, [add] throws
    that same exception, and the container is exactly as before the call:
    same elements, same storage, mutex free. *)
Theorem add_allocation_failure (P : Platform) (t : nat) (value : Z) (s : ThreadSafeVector)
    (w w1 : World) (e : exception) :
  mtx s = None →
  Vector.capacity (data s) ≤ Vector.size (data s) →
  Vector.size (data s) < vec_max_size P →
  LoggingAllocator.allocate P (vec_check_len P (Vector.size (data s))) w = (Throw e, w1) →
  ThreadSafeVector.add P t value s w = Some (Throw e, s, w1).
Proof.
  intros Hfree Hfull Hmax Halloc. rewrite add_free by done.
  unfold Vector.push_back.
  destruct (N.ltb_spec (Vector.size (data s)) (Vector.capacity (data s))); [lia|].
  destruct (N.leb_spec (vec_max_size P) (Vector.size (data s))); [lia|].
  rewrite Halloc. destruct s; simpl in *; by subst.
Qed.

Lemma add_allocation_failure_witness :
  ThreadSafeVector.add (failing_after 2) 0 30
    {| data := {| elems := [10; 20]%Z; storage := Some (1%nat, 2) |}; mtx := None |}
    {| cout := [LineAllocate 1; LineAllocate 2; LineDeallocate 1]; cerr := [];
       new_requests := [4; 8]; deleted := [0%nat]; messages := [] |}
  = Some (Throw bad_alloc,
          {| data := {| elems := [10; 20]%Z; storage := Some (1%nat, 2) |}; mtx := None |},
          {| cout := [LineAllocate 1; LineAllocate 2; LineDeallocate 1; LineAllocate 4]; cerr := [];
             new_requests := [4; 8; 16]; deleted := [0%nat]; messages := [] |}).
Proof.
  apply (add_allocation_failure (failing_after 2) 0 30
           {| data := {| elems := [10; 20]%Z; storage := Some (1%nat, 2) |}; mtx := None |}).
  - reflexivity.
  - vm_compute. discriminate.
  - reflexivity.
  - reflexivity.
Defined.

(** ** Threads *)

Section machine.
Context (P : Platform) (catches : bool).

Lemma step_Step t m m' : step P catches t m = Some m' ↔ Step P catches t m m'.
Proof.
  split.
  - unfold step. destruct (aborted m) eqn:Hab; [done|].
    destruct (threads m !! t) as [th|] eqn:Hth; [|done]. simpl.
    destruct (phase th) as [|op|op r] eqn:Hph.
    + destruct (prog th) as [|op rest] eqn:Hprog; [done|].
      unfold ThreadSafeVector.lock_guard, Mutex.lock.
      destruct (mtx (obj m)) eqn:Hm; [done|]. simpl. intros [= <-].
      by eapply Step_enter.
    + destruct (ThreadSafeVector.body _ _ _ _) as [[r s] w] eqn:Hb. intros [= <-].
      by eapply Step_body.
    + unfold ThreadSafeVector.lock_guard_dtor, Mutex.unlock.
      destruct (mtx (obj m)) as [o|] eqn:Hm; [|done]. simpl.
      destruct (decide (o = t)) as [->|]; [|done]. simpl. intros [= <-].
      by eapply Step_leave.
  - intros [th op rest Hab Hth Hph Hprog Hm | th op r s w Hab Hth Hph Hb | th op r Hab Hth Hph Hm];
      unfold step; rewrite Hab, Hth; simpl; rewrite Hph.
    + rewrite Hprog. unfold ThreadSafeVector.lock_guard. by rewrite Hm.
    + by rewrite Hb.
    + unfold ThreadSafeVector.lock_guard_dtor. rewrite Hm. simpl. by rewrite decide_True.
Qed.

(** What holds at the start and is kept by every step holds after a run. *)
Lemma run_invariant (I : Machine → Prop) :
  (∀ t m m', I m → Step P catches t m m' → I m') →
  ∀ sched m m', I m → run P catches sched m = Some m' → I m'.
Proof.
  intros Hstep sched. induction sched as [|t sched IH]; intros m m' Hm; simpl.
  - by intros [= <-].
  - destruct (step P catches t m) as [m1|] eqn:Hs; [|done]. simpl.
    apply IH. eapply Hstep; [done|]. by apply step_Step.
Qed.

(** *** What the bodies do *)

Lemma body_mtx op s w : mtx (ThreadSafeVector.body P op s w).1.2 = mtx s.
Proof.
  destruct op as [v|i|]; simpl.
  - unfold ThreadSafeVector.add_body.
    by destruct (Vector.push_back _ _ _ _) as [[[[]|e] d] w'].
  - unfold ThreadSafeVector.get_body.
    destruct (_ <=? _); [by destruct (raise _ _ _)|done].
  - done.
Qed.

Lemma body_elems op s w r s' w' :
  ThreadSafeVector.body P op s w = (r, s', w') →
  elems (data s') = elems (data s) ++ match op, r with Add v, Ok _ => [v] | _, _ => [] end.
Proof.
  destruct op as [v|i|]; simpl.
  - unfold ThreadSafeVector.add_body.
    destruct (Vector.push_back _ _ _ _) as [[[[]|e] d] w1] eqn:Hpb; intros [= <- <- <-]; simpl.
    + by eapply push_back_Ok.
    + apply push_back_Throw in Hpb as ->. by rewrite app_nil_r.
  - unfold ThreadSafeVector.get_body.
    destruct (_ <=? _); [destruct (raise _ _ _)|]; intros [= <- <- <-]; by rewrite app_nil_r.
  - intros [= <- <- <-]. by rewrite app_nil_r.
Qed.

Lemma body_cerr op s w : cerr (ThreadSafeVector.body P op s w).2 = cerr w.
Proof.
  destruct op as [v|i|]; simpl.
  - unfold ThreadSafeVector.add_body, Vector.push_back.
    destruct (_ <? _); [done|].
    destruct (_ <=? _).
    { pose proof (raise_cerr P (length_error "vector::_M_realloc_insert") w) as H.
      by destruct (raise _ _ _). }
    unfold LoggingAllocator.allocate, operator_new. simpl.
    destruct (operator_new_ok _ _ _); simpl; [|done].
    unfold Vector.release. by destruct (storage (data s)) as [[p c]|].
  - unfold ThreadSafeVector.get_body. destruct (_ <=? _); [|done].
    pose proof (raise_cerr P (DataException "Индекс за пределами вектора") w) as H.
    by destruct (raise _ _ _).
  - done.
Qed.

End machine.

(** *** What a handler's end does *)

Lemma handled_if_cout {A} (c : bool) (r : result A) w :
  cout (if c then handled r w else w) = cout w.
Proof. by destruct c, r. Qed.

Lemma handled_if_cerr {A} (c : bool) (r : result A) w :
  cerr (if c then handled r w else w) = cerr w.
Proof. by destruct c, r. Qed.

Lemma handled_if_requests {A} (c : bool) (r : result A) w :
  new_requests (if c then handled r w else w) = new_requests w.
Proof. by destruct c, r. Qed.

Lemma handled_if_granted {A} (P : Platform) (c : bool) (r : result A) w :
  all_granted P (if c then handled r w else w) = all_granted P w.
Proof. by destruct c, r. Qed.

(** *** Invariants *)

Lemma concat_fmap_insert {A B} (f : A → list B) (l : list A) (t : nat) (x x' : A) (extra : list B) :
  l !! t = Some x → f x' = f x ++ extra →
  concat (f <$> <[t := x']> l) ≡ₚ concat (f <$> l) ++ extra.
Proof.
  intros Hl Hf. revert t Hl. induction l as [|y l IH]; intros [|t] Hl; simplify_eq/=.
  - rewrite Hf, <- !app_assoc. f_equiv. apply Permutation_app_comm.
  - rewrite (IH t) by done. by rewrite app_assoc.
Qed.

Lemma existsb_insert_fresh {A} (f : A → bool) (l : list A) (t : nat) (x x' : A) :
  existsb f l = false → l !! t = Some x → existsb f (<[t := x']> l) = f x'.
Proof.
  revert t. induction l as [|y l IH]; intros [|t] Hall Hl; simplify_eq/=;
    apply orb_false_iff in Hall as [Hy Hall].
  - by rewrite Hall, orb_false_r.
  - by rewrite Hy, (IH t).
Qed.

Section invariants.
Context (P : Platform) (catches : bool).

Lemma mutex_inv_boot progs : mutex_inv (boot progs).
Proof.
  split; [|done]. intros t th Hth. simpl in *.
  apply list_lookup_fmap_Some in Hth as (p & -> & _). done.
Qed.

Lemma mutex_inv_step t m m' : mutex_inv m → Step P catches t m m' → mutex_inv m'.
Proof.
  intros [Hin Hown] [th op rest Hab Hth Hph Hprog Hm | th op r s w Hab Hth Hph Hb | th op r Hab Hth Hph Hm];
    (split; simpl; [intros t' th' Hth'|intros t' Hm']).
  - apply list_lookup_insert_Some in Hth' as [(<- & <- & _)|[Hne Hth']]; [done|].
    rewrite (Hin _ _ Hth'), Hm. split; intros [=]; congruence.
  - injection Hm' as <-. rewrite list_lookup_insert_eq; [done|]. by eapply lookup_lt_Some.
  - pose proof (body_mtx P op (obj m) (world m)) as Hmtx. rewrite Hb in Hmtx. simpl in Hmtx.
    rewrite Hmtx.
    apply list_lookup_insert_Some in Hth' as [(<- & <- & _)|[Hne Hth']]; [|by apply Hin].
    rewrite <- (Hin _ _ Hth). unfold inside. simpl. by rewrite Hph.
  - pose proof (body_mtx P op (obj m) (world m)) as Hmtx. rewrite Hb in Hmtx. simpl in Hmtx.
    rewrite Hmtx in Hm'. apply Hown in Hm' as [th' Hth'].
    destruct (decide (t = t')) as [<-|Hne].
    + rewrite list_lookup_insert_eq; [done|]. by eapply lookup_lt_Some.
    + by rewrite list_lookup_insert_ne.
  - apply list_lookup_insert_Some in Hth' as [(<- & <- & _)|[Hne Hth']]; [done|].
    rewrite (Hin _ _ Hth'), Hm. split; intros [=]; congruence.
  - done.
Qed.

Lemma run_mutex_inv progs sched m :
  run P catches sched (boot progs) = Some m → mutex_inv m.
Proof.
  apply (run_invariant P catches mutex_inv); [|apply mutex_inv_boot].
  intros t m1 m2. apply mutex_inv_step.
Qed.

Lemma added_by_snoc th op r :
  omap (λ c : Op * result Ret, match c with (Add v, Ok _) => Some v | _ => None end)
       (done th ++ [(op, r)])
  = added_by th ++ match op, r with Add v, Ok _ => [v] | _, _ => [] end.
Proof.
  rewrite omap_app. unfold added_by. f_equal.
  by destruct op as [v|i|], r as [a|e].
Qed.

Lemma content_inv_step t m m' : content_inv m → Step P catches t m m' → content_inv m'.
Proof.
  unfold content_inv.
  intros Hc [th op rest Hab Hth Hph Hprog Hm | th op r s w Hab Hth Hph Hb | th op r Hab Hth Hph Hm]; simpl.
  - rewrite (concat_fmap_insert landed _ _ th _ []); [by rewrite app_nil_r|done|].
    rewrite app_nil_r. unfold landed, landing. simpl. by rewrite Hph.
  - rewrite (body_elems P _ _ _ _ _ _ Hb), Hc.
    rewrite (concat_fmap_insert landed _ _ th _ (match op, r with Add v, Ok _ => [v] | _, _ => [] end));
      [done|done|].
    unfold landed, landing. simpl. rewrite Hph, app_nil_r.
    by destruct op as [v|i|], r as [a|e].
  - rewrite (concat_fmap_insert landed _ _ th _ []); [by rewrite app_nil_r|done|].
    rewrite app_nil_r. unfold landed, landing. simpl. rewrite Hph, app_nil_r.
    unfold added_by at 1. simpl. rewrite added_by_snoc.
    by destruct op as [v|i|], r as [a|e].
Qed.

Lemma run_content_inv progs sched m :
  run P catches sched (boot progs) = Some m → content_inv m.
Proof.
  apply (run_invariant P catches content_inv).
  - intros t m1 m2. apply content_inv_step.
  - unfold content_inv. simpl. induction progs as [|p progs IH]; [done|]. simpl. by rewrite <- IH.
Qed.

Lemma script_step t m m' : Step P catches t m m' → script <$> threads m' = script <$> threads m.
Proof.
  intros [th op rest Hab Hth Hph Hprog Hm | th op r s w Hab Hth Hph Hb | th op r Hab Hth Hph Hm];
    simpl; rewrite list_fmap_insert; apply list_insert_id; rewrite list_lookup_fmap, Hth; simpl;
    f_equal; unfold script, current; simpl; rewrite Hph.
  - by rewrite Hprog.
  - done.
  - by rewrite fmap_app, <- app_assoc.
Qed.

Lemma run_script progs sched m :
  run P catches sched (boot progs) = Some m → script <$> threads m = progs.
Proof.
  apply (run_invariant P catches (λ m, script <$> threads m = progs)).
  - intros t m1 m2 <-. apply script_step.
  - simpl. rewrite <- list_fmap_compose. by rewrite <- (list_fmap_id progs) at 2.
Qed.

Lemma run_cerr progs sched m :
  run P catches sched (boot progs) = Some m → cerr (world m) = [].
Proof.
  apply (run_invariant P catches (λ m, cerr (world m) = [])); [|done].
  intros t m1 m2 Hc [th op rest Hab Hth Hph Hprog Hm | th op r s w Hab Hth Hph Hb | th op r Hab Hth Hph Hm];
    simpl; [done| |by rewrite handled_if_cerr].
  pose proof (body_cerr P op (obj m1) (world m1)) as H. rewrite Hb in H. simpl in H. congruence.
Qed.

End invariants.

(** *** The allocator's lines *)


Lemma all_granted_operator_new (P : Platform) bytes w :
  all_granted P (operator_new P bytes w).2
  = all_granted P w && operator_new_ok P (length (new_requests w)) bytes.
Proof.
  unfold all_granted. rewrite operator_new_requests, imap_app, forallb_app. simpl.
  by rewrite Nat.add_0_r, andb_true_r.
Qed.

Lemma all_granted_raise (P : Platform) e w :
  all_granted P (raise P e w).2
  = all_granted P w && operator_new_ok P (length (new_requests w)) (message_bytes P (what e)).
Proof.
  rewrite <- all_granted_operator_new. unfold all_granted, raise.
  by destruct (operator_new _ _ _) as [[p|e'] w1].
Qed.

Section balance.
Context (P : Platform).


Lemma release_granted v w : all_granted P (Vector.release v w) = all_granted P w.
Proof. unfold Vector.release. by destruct (storage v) as [[p c]|]. Qed.

Lemma push_back_granted x v w :
  all_granted P (Vector.push_back P x v w).2 = true → all_granted P w = true.
Proof.
  unfold Vector.push_back.
  destruct (_ <? _); [done|].
  destruct (_ <=? _).
  { pose proof (all_granted_raise P (length_error "vector::_M_realloc_insert") w) as Hg.
    destruct (raise _ _ _) as [e w1]. simpl in *. rewrite Hg.
    by intros [H _]%andb_true_iff. }
  destruct (LoggingAllocator.allocate _ _ _) as [[p|e] w1] eqn:Ha; simpl;
    [rewrite release_granted|];
    pose proof (all_granted_operator_new P
                  (LoggingAllocator.byte_count P (vec_check_len P (Vector.size v)))
                  (print_cout (LineAllocate (vec_check_len P (Vector.size v))) w)) as Hg;
    unfold LoggingAllocator.allocate in Ha; rewrite Ha in Hg; simpl in Hg; rewrite Hg;
    intros [H _]%andb_true_iff; exact H.
Qed.




End balance.

(** *** Exceptions that leave a thread *)

Lemma existsb_lookup_false {A} (f : A → bool) (l : list A) (t : nat) (x : A) :
  existsb f l = false → l !! t = Some x → f x = false.
Proof.
  intros Hall Hl. rewrite <- (existsb_insert_fresh f l t x x Hall Hl).
  by rewrite list_insert_id.
Qed.

Lemma run_aborted (P : Platform) progs sched m :
  run P false sched (boot progs) = Some m → aborted m = existsb threw (threads m).
Proof.
  apply (run_invariant P false (λ m, aborted m = existsb threw (threads m))).
  - intros t m1 m2 Hinv [th op rest Hab Hth Hph Hprog Hm | th op r s w Hab Hth Hph Hb | th op r Hab Hth Hph Hm];
      simpl; rewrite Hab in Hinv; symmetry in Hinv;
      rewrite (existsb_insert_fresh threw _ _ th) by done;
      pose proof (existsb_lookup_false threw _ _ _ Hinv Hth) as Hno; unfold threw in *; simpl.
    + done.
    + done.
    + by rewrite existsb_app, Hno, andb_true_r; simpl; rewrite orb_false_r.
  - simpl. induction progs as [|p progs IH]; [done|]. exact IH.
Qed.

(** *** Reading the elements back *)

Lemma get_range_free (P : Platform) t i k s w :
  mtx s = None →
  (N.to_nat i + k ≤ length (elems (data s)))%nat →
  get_range P t i k s w = Some (Ok <$> take k (drop (N.to_nat i) (elems (data s))), s, w).
Proof.
  intros Hfree. revert i. induction k as [|k IH]; intros i Hk; simpl; [done|].
  assert (is_Some (elems (data s) !! N.to_nat i)) as [x Hx] by (apply lookup_lt_is_Some; lia).
  rewrite (get_inside P t i s w x) by done. simpl.
  rewrite IH by lia. simpl.
  rewrite (drop_S _ _ _ Hx). simpl.
  by replace (N.to_nat (i + 1)) with (S (N.to_nat i)) by lia.
Qed.

Lemma read_all_free (P : Platform) t s w :
  mtx s = None → read_all P t s w = Some (Ok <$> elems (data s), s, w).
Proof.
  intros Hfree. unfold read_all. rewrite size_free by done. simpl.
  rewrite get_range_free by (done || (unfold Vector.size; simpl; lia)). simpl.
  unfold Vector.size. by rewrite Nat2N.id, drop_0, firstn_all.
Qed.

(** *** Who can move *)

Lemma forallb_false_lookup {A} (f : A → bool) (l : list A) :
  forallb f l = false → ∃ t x, l !! t = Some x ∧ f x = false.
Proof.
  induction l as [|y l IH]; simpl; [done|].
  destruct (f y) eqn:Hy; simpl.
  - intros (t & x & Hl & Hx)%IH. by exists (S t), x.
  - intros _. by exists 0%nat, y.
Qed.

Lemma finished_all_outside (m : Machine) :
  mutex_inv m → forallb finished (threads m) = true → mtx (obj m) = None.
Proof.
  intros [Hin Hown] Hfin. destruct (mtx (obj m)) as [t|] eqn:Hm; [|done].
  destruct (Hown t eq_refl) as [th Hth].
  pose proof (proj2 (Hin _ _ Hth) eq_refl) as Hins.
  rewrite forallb_forall in Hfin. specialize (Hfin th).
  rewrite <- list_elem_of_In in Hfin. specialize (Hfin (list_elem_of_lookup_2 _ _ _ Hth)).
  unfold finished, inside in *. by destruct (phase th).
Qed.

Lemma finished_landed (m : Machine) :
  forallb finished (threads m) = true → landed <$> threads m = added_by <$> threads m.
Proof.
  intros Hfin. apply list_fmap_ext. intros t th Hth.
  rewrite forallb_forall in Hfin. specialize (Hfin th).
  rewrite <- list_elem_of_In in Hfin. specialize (Hfin (list_elem_of_lookup_2 _ _ _ Hth)).
  unfold landed, landing, finished in *. destruct (phase th); [|done..]. by rewrite app_nil_r.
Qed.

Lemma progress (P : Platform) (catches : bool) (m : Machine) :
  mutex_inv m → aborted m = false →
  forallb finished (threads m) = true ∨ ∃ t, is_Some (step P catches t m).
Proof.
  intros [Hin Hown] Hab.
  destruct (mtx (obj m)) as [t|] eqn:Hm.
  - right. exists t. destruct (Hown t eq_refl) as [th Hth].
    pose proof (proj2 (Hin _ _ Hth) eq_refl) as Hins.
    unfold step. rewrite Hab, Hth. simpl. unfold inside in Hins.
    destruct (phase th) as [|op|op r]; [done| |].
    + by destruct (ThreadSafeVector.body _ _ _ _) as [[r s] w].
    + unfold ThreadSafeVector.lock_guard_dtor. rewrite Hm. simpl. by rewrite decide_True.
  - destruct (forallb finished (threads m)) eqn:Hfin; [by left|right].
    apply forallb_false_lookup in Hfin as (t & th & Hth & Hnf). exists t.
    assert (inside th = false) as Hout.
    { destruct (inside th) eqn:Hi; [|done]. apply (Hin _ _ Hth) in Hi. congruence. }
    unfold step. rewrite Hab, Hth. simpl. unfold inside in Hout. unfold finished in Hnf.
    destruct (phase th); [|done..]. destruct (prog th); [done|].
    unfold ThreadSafeVector.lock_guard. by rewrite Hm.
Qed.

Lemma added_by_supplied (th : Thread) :
  threw th = false → added_by th = supplied (done th).*1.
Proof.
  unfold threw, added_by, supplied. induction (done th) as [|[op r] l IH]; simpl; [done|].
  intros [Hr Hl]%orb_false_iff. specialize (IH Hl).
  destruct r as [a|e]; [|done]. destruct op; simpl; [f_equal|..]; exact IH.
Qed.

Lemma finished_script (th : Thread) : finished th = true → script th = (done th).*1.
Proof.
  unfold finished, script, current. destruct (phase th); [|done..].
  destruct (prog th); [|done]. by rewrite !app_nil_r.
Qed.

Lemma finished_added (P : Platform) catches progs sched m :
  run P catches sched (boot progs) = Some m →
  forallb finished (threads m) = true →
  existsb threw (threads m) = false →
  added m = concat (supplied <$> progs).
Proof.
  intros Hrun Hfin Hno. rewrite <- (run_script P catches progs sched m Hrun).
  unfold added. f_equal. rewrite <- list_fmap_compose. apply list_fmap_ext.
  intros t th Hth. simpl.
  rewrite forallb_forall in Hfin. specialize (Hfin th).
  rewrite <- list_elem_of_In in Hfin. specialize (Hfin (list_elem_of_lookup_2 _ _ _ Hth)).
  rewrite finished_script by done. apply added_by_supplied.
  by eapply existsb_lookup_false.
Qed.

(** ** A call is three steps *)

Lemma call_free (P : Platform) t op s w :
  mtx s = None →
  ThreadSafeVector.call P t op s w
  = let '(r, s2, w2) := ThreadSafeVector.body P op {| data := data s; mtx := Some t |} w in
    Some (r, {| data := data s2; mtx := None |}, w2).
Proof.
  intros Hfree. destruct op as [v|i|]; simpl;
    unfold ThreadSafeVector.add, ThreadSafeVector.get, ThreadSafeVector.size;
    rewrite guarded_free by done.
  - unfold ThreadSafeVector.add_body. simpl.
    destruct (Vector.push_back _ _ _ _) as [[[[]|e] d] w1]; simpl; by rewrite decide_True.
  - unfold ThreadSafeVector.get_body. simpl.
    destruct (_ <=? _); simpl; [destruct (raise _ _ _)|]; simpl; by rewrite decide_True.
  - simpl. by rewrite decide_True.
Qed.

(** The member functions of the sequential reading are the thread
    machine's three steps taken in a row by one thread. *)
Lemma call_run (P : Platform) (catches : bool) t op rest th m r s' w' :
  aborted m = false → threads m !! t = Some th →
  phase th = Outside → prog th = op :: rest →
  ThreadSafeVector.call P t op (obj m) (world m) = Some (r, s', w') →
  run P catches [t; t; t] m
  = Some {| obj := s'; world := if catches then handled r w' else w';
            threads := <[t := {| prog := rest; phase := Outside; done := done th ++ [(op, r)] |}]> (threads m);
            aborted := is_Throw r && negb catches |}.
Proof.
  intros Hab Hth Hph Hprog Hcall.
  assert (mtx (obj m) = None) as Hfree.
  { destruct op; simpl in Hcall;
      unfold ThreadSafeVector.add, ThreadSafeVector.get, ThreadSafeVector.size in Hcall;
      destruct (ThreadSafeVector.guarded _ _ _ _) as [x|] eqn:Hg; try done;
      by eapply guarded_Some. }
  rewrite call_free in Hcall by done.
  pose proof (body_mtx P op {| data := data (obj m); mtx := Some t |} (world m)) as Hmtx.
  destruct (ThreadSafeVector.body _ _ _ _) as [[r2 s2] w2] eqn:Hb.
  injection Hcall as -> <- <-. simpl in Hmtx.
  pose proof (lookup_lt_Some _ _ _ Hth) as Hlt.
  set (m1 := {| obj := {| data := data (obj m); mtx := Some t |}; world := world m;
                threads := <[t := {| prog := rest; phase := Inside op; done := done th |}]> (threads m);
                aborted := false |}).
  set (m2 := {| obj := s2; world := w2;
                threads := <[t := {| prog := rest; phase := Leaving op r; done := done th |}]> (threads m1);
                aborted := false |}).
  assert (step P catches t m = Some m1) as H1.
  { apply step_Step. by eapply Step_enter. }
  assert (step P catches t m1 = Some m2) as H2.
  { apply step_Step.
    eapply (Step_body _ _ _ _ {| prog := rest; phase := Inside op; done := done th |}); simpl; try done.
    by rewrite list_lookup_insert_eq. }
  assert (Step P catches t m2
            {| obj := {| data := data (obj m2); mtx := None |};
               world := if catches then handled r (world m2) else world m2;
               threads := <[t := {| prog := rest; phase := Outside; done := done th ++ [(op, r)] |}]> (threads m2);
               aborted := is_Throw r && negb catches |}) as H3%step_Step.
  { eapply (Step_leave _ _ _ _ {| prog := rest; phase := Leaving op r; done := done th |}); simpl; try done.
    rewrite list_lookup_insert_eq; [done|]. by rewrite length_insert. }
  cbn [run]. rewrite H1. cbn [mbind option_bind]. rewrite H2. cbn [mbind option_bind].
  rewrite H3. cbn [mbind option_bind]. simpl. by rewrite !list_insert_insert_eq.
Qed.



(** C3: once every thread has made all its calls, [size()] returns the
    number of [add] calls that returned normally, whatever the schedule
    and however many threads made them; every call of the programs has
    been made; and a container just constructed has size 0. *)
Theorem size_counts_adds (P : Platform) (catches : bool) (progs : list (list Op))
    (sched : list nat) (m : Machine) (t : nat) :
  run P catches sched (boot progs) = Some m →
  forallb finished (threads m) = true →
  ThreadSafeVector.size t (obj m) (world m)
    = Some (Ok (N.of_nat (length (added m))), obj m, world m)
  ∧ (λ th, (done th).*1) <$> threads m = progs
  ∧ ThreadSafeVector.size t ThreadSafeVector.new world0
    = Some (Ok 0, ThreadSafeVector.new, world0).
Proof.
  intros Hrun Hfin. split; [|split; [|by rewrite size_free]].
  - rewrite size_free by (eapply finished_all_outside; [by eapply run_mutex_inv|done]).
    assert (length (elems (data (obj m))) = length (added m)) as Hlen.
    { pose proof (run_content_inv P catches progs sched m Hrun) as Hc.
      unfold content_inv in Hc. unfold added. by rewrite Hc, finished_landed. }
    unfold Vector.size. by rewrite Hlen.
  - rewrite <- (run_script P catches progs sched m Hrun).
    apply list_fmap_ext. intros i th Hth.
    rewrite forallb_forall in Hfin. specialize (Hfin th).
    rewrite <- list_elem_of_In in Hfin. specialize (Hfin (list_elem_of_lookup_2 _ _ _ Hth)).
    by rewrite finished_script.
Qed.

Lemma size_counts_adds_witness :
  ∃ m, run (failing_after 2) true round_robin (boot workers) = Some m
       ∧ added m = [100; 200]%Z
       ∧ ThreadSafeVector.size 5 (obj m) (world m) = Some (Ok 2, obj m, world m).
Proof.
  eexists. split; [vm_compute; reflexivity|]. split; [vm_compute; reflexivity|].
  refine (proj1 (size_counts_adds (failing_after 2) true workers round_robin _ 5 _ _));
    vm_compute; reflexivity.
Defined.

(** C4: once every thread has made all its calls, reading [get(i)] for
    every [i] below [size()] succeeds and yields, up to order, the values
    whose [add] returned normally; when no call has thrown these are the
    values that the programs supply to [add]. *)
Theorem read_back_is_added (P : Platform) (catches : bool) (progs : list (list Op))
    (sched : list nat) (m : Machine) (t : nat) :
  run P catches sched (boot progs) = Some m →
  forallb finished (threads m) = true →
  ∃ xs, read_all P t (obj m) (world m) = Some (Ok <$> xs, obj m, world m)
        ∧ xs ≡ₚ added m
        ∧ (existsb threw (threads m) = false → xs ≡ₚ concat (supplied <$> progs)).
Proof.
  intros Hrun Hfin. exists (elems (data (obj m))).
  assert (elems (data (obj m)) ≡ₚ added m) as Hperm.
  { pose proof (run_content_inv P catches progs sched m Hrun) as Hc.
    unfold content_inv in Hc. unfold added. by rewrite Hc, finished_landed. }
  split; [|split; [done|]].
  - apply read_all_free. eapply finished_all_outside; [by eapply run_mutex_inv|done].
  - intros Hno. by rewrite Hperm, (finished_added P catches progs sched m).
Qed.

Lemma read_back_is_added_witness :
  ∃ m, run libstdcxx false round_robin (boot workers) = Some m
       ∧ ∃ xs, read_all libstdcxx 5 (obj m) (world m) = Some (Ok <$> xs, obj m, world m)
               ∧ xs ≡ₚ added m
               ∧ (existsb threw (threads m) = false →
                  xs ≡ₚ [100; 101; 102; 200; 201; 202; 300; 301; 302;
                         400; 401; 402; 500; 501; 502]%Z).
Proof.
  eexists. split; [vm_compute; reflexivity|].
  refine (read_back_is_added libstdcxx false workers round_robin _ 5 _ _);
    vm_compute; reflexivity.
Defined.




(** C9: every call of [add], [get] or [size] on a free mutex takes it,
    runs its body as the owner, returns and leaves the mutex free, whether
    the body returned or threw, and a call cannot start while the mutex
    is held; a [get] past the end throws, and after it an [add] by any
    thread goes through and leaves the mutex free.  In every state that
    threads can reach, the threads inside [add], [get] or [size] are
    exactly the owner of the mutex, so there is at most one; a thread
    about to run the body of a member function, and a thread whose step
    changes the vector or the world, owns the mutex; and as long as the
    process lives and a thread has calls left, some thread can step. *)
Theorem mutex_discipline (P : Platform) (catches : bool) (progs : list (list Op))
    (sched : list nat) (m : Machine) :
  run P catches sched (boot progs) = Some m →
  (∀ t th, threads m !! t = Some th → inside th = true ↔ mtx (obj m) = Some t)
  ∧ (∀ t1 t2 th1 th2,
       threads m !! t1 = Some th1 → threads m !! t2 = Some th2 →
       inside th1 = true → inside th2 = true → t1 = t2)
  ∧ (∀ t th op, threads m !! t = Some th → phase th = Inside op → mtx (obj m) = Some t)
  ∧ (∀ t m', step P catches t m = Some m' →
       data (obj m') ≠ data (obj m) ∨ world m' ≠ world m
       ∨ (∃ th th', threads m !! t = Some th ∧ threads m' !! t = Some th'
                    ∧ inside th = true ∧ inside th' = true) →
       mtx (obj m) = Some t)
  ∧ (∀ t op s w,
       mtx s = None →
       ∃ r s1 w',
         ThreadSafeVector.body P op {| data := data s; mtx := Some t |} w = (r, s1, w')
         ∧ mtx s1 = Some t
         ∧ ThreadSafeVector.call P t op s w = Some (r, {| data := data s1; mtx := None |}, w'))
  ∧ (∀ t op s w, mtx s ≠ None → ThreadSafeVector.call P t op s w = None)
  ∧ (∀ t op s w r s' w',
       ThreadSafeVector.call P t op s w = Some (r, s', w') → mtx s = None ∧ mtx s' = None)
  ∧ (∀ t t' index value s w,
       mtx s = None → Vector.size (data s) ≤ index →
       ∃ e s' w' r s'' w'',
         ThreadSafeVector.get P t index s w = Some (Throw e, s', w')
         ∧ ThreadSafeVector.add P t' value s' w' = Some (r, s'', w'')
         ∧ mtx s'' = None)
  ∧ (aborted m = false →
     forallb finished (threads m) = true ∨ ∃ t, is_Some (step P catches t m)).
Proof.
  intros Hrun. pose proof (run_mutex_inv P catches progs sched m Hrun) as Hinv.
  pose proof Hinv as [Hin Hown].
  assert (∀ t th op, threads m !! t = Some th → phase th = Inside op → mtx (obj m) = Some t) as Hbody.
  { intros t th op Hth Hph. apply (Hin _ _ Hth). unfold inside. by rewrite Hph. }
  assert (∀ t op s w,
            mtx s = None →
            ∃ r s1 w',
              ThreadSafeVector.body P op {| data := data s; mtx := Some t |} w = (r, s1, w')
              ∧ mtx s1 = Some t
              ∧ ThreadSafeVector.call P t op s w
                = Some (r, {| data := data s1; mtx := None |}, w')) as Hcall.
  { intros t op s w Hfree. rewrite call_free by done.
    pose proof (body_mtx P op {| data := data s; mtx := Some t |} w) as Hmtx.
    destruct (ThreadSafeVector.body _ _ _ _) as [[r s1] w'].
    by exists r, s1, w'. }
  assert (∀ t op s w r s' w',
            ThreadSafeVector.call P t op s w = Some (r, s', w') → mtx s = None) as Hfree.
  { intros t op s w r s' w' Hc. destruct op; simpl in Hc;
      unfold ThreadSafeVector.add, ThreadSafeVector.get, ThreadSafeVector.size in Hc;
      destruct (ThreadSafeVector.guarded _ _ _ _) as [x|] eqn:Hg; try done;
      by eapply guarded_Some. }
  split; [done|]. split; [|split; [done|split; [|split; [done|split; [|split; [|split]]]]]].
  - intros t1 t2 th1 th2 H1 H2 Hi1 Hi2.
    apply (Hin _ _ H1) in Hi1. apply (Hin _ _ H2) in Hi2. congruence.
  - intros t m' Hstep%step_Step Hch.
    destruct Hstep as [th op rest Hab Hth Hph Hprog Hm | th op r s w Hab Hth Hph Hb | th op r Hab Hth Hph Hm];
      [|by eapply Hbody|done].
    simpl in Hch. destruct Hch as [?|[?|(th1 & th2 & H1 & _ & Hi & _)]]; [done..|].
    rewrite Hth in H1. injection H1 as <-. unfold inside in Hi. by rewrite Hph in Hi.
  - intros t op s w Hheld.
    destruct op; simpl;
      unfold ThreadSafeVector.add, ThreadSafeVector.get, ThreadSafeVector.size,
        ThreadSafeVector.guarded, ThreadSafeVector.lock_guard, Mutex.lock;
      by destruct (mtx s).
  - intros t op s w r s' w' Hc. pose proof (Hfree _ _ _ _ _ _ _ Hc) as Hf.
    split; [done|].
    destruct (Hcall t op s w Hf) as (r1 & s1 & w1 & _ & _ & Hc1).
    rewrite Hc in Hc1. by injection Hc1 as -> -> ->.
  - intros t t' index value s w Hf Hout.
    pose proof (get_free P t index s w Hf) as Hget.
    unfold ThreadSafeVector.get_body in Hget.
    destruct (N.leb_spec (Vector.size (data s)) index) as [_|]; [|lia].
    destruct (raise _ _ _) as [e w2]. simpl in Hget.
    pose proof (add_free P t' value s w2 Hf) as Hadd.
    destruct (Vector.push_back _ _ _ _) as [[r d] w3].
    by exists e, s, w2, r, {| data := d; mtx := None |}, w3.
  - intros Hab. by apply progress.
Qed.

Lemma mutex_discipline_witness :
  ∃ m, run libstdcxx true [0; 0; 1]%nat (boot [[Get 0; Add 1]; [Add 2]]) = None
       ∧ run libstdcxx true [0; 0; 0; 1; 1]%nat (boot [[Get 0; Add 1]; [Add 2]]) = Some m
       ∧ done <$> threads m = [[(Get 0, Throw (DataException "Индекс за пределами вектора"))]; []]
       ∧ mtx (obj m) = Some 1%nat
       ∧ (∀ t th, threads m !! t = Some th → inside th = true ↔ mtx (obj m) = Some t)
       ∧ (∃ r s1 w',
            ThreadSafeVector.body libstdcxx (Get 0) {| data := Vector.empty; mtx := Some 3%nat |} world0
              = (r, s1, w')
            ∧ mtx s1 = Some 3%nat
            ∧ ThreadSafeVector.call libstdcxx 3 (Get 0) ThreadSafeVector.new world0
              = Some (r, {| data := data s1; mtx := None |}, w'))
       ∧ ThreadSafeVector.call libstdcxx 3 Size (obj m) (world m) = None
       ∧ (∃ e s' w' r s'' w'',
            ThreadSafeVector.get libstdcxx 3 0 ThreadSafeVector.new world0 = Some (Throw e, s', w')
            ∧ ThreadSafeVector.add libstdcxx 4 7 s' w' = Some (r, s'', w'')
            ∧ mtx s'' = None).
Proof.
  eexists. split; [vm_compute; reflexivity|]. split; [vm_compute; reflexivity|].
  split; [reflexivity|]. split; [reflexivity|].
  destruct (mutex_discipline libstdcxx true [[Get 0; Add 1]; [Add 2]] [0; 0; 0; 1; 1]%nat _
              ltac:(vm_compute; reflexivity))
    as (Hin & _ & _ & _ & Hcall & Hheld & _ & Hnext & _).
  split; [exact Hin|]. split; [|split].
  - exact (Hcall 3%nat (Get 0) ThreadSafeVector.new world0 eq_refl).
  - apply Hheld. vm_compute. discriminate.
  - apply (Hnext 3%nat 4%nat 0 7%Z ThreadSafeVector.new world0); [reflexivity|].
    vm_compute. discriminate.
Defined.

(** ** Scenarios *)

(** One thread appends 10, 20 and 30; then the size is 3, [get(0)] is 10,
    [get(2)] is 30 and [get(3)] throws. *)
Example single_thread_scenario :
  run libstdcxx true (replicate 21 0%nat) (boot [[Add 10; Add 20; Add 30; Size; Get 0; Get 2; Get 3]])
  = Some {| obj := {| data := {| elems := [10; 20; 30]%Z; storage := Some (2%nat, 4) |}; mtx := None |};
            world := {| cout := [LineAllocate 1; LineAllocate 2; LineDeallocate 1;
                                 LineAllocate 4; LineDeallocate 2];
                        cerr := []; new_requests := [4; 8; 16; 76]; deleted := [0; 1; 3]%nat;
                        messages := [] |};
            threads := [ {| prog := []; phase := Outside;
                            done := [(Add 10%Z, Ok RetVoid); (Add 20%Z, Ok RetVoid);
                                     (Add 30%Z, Ok RetVoid); (Size, Ok (RetSize 3));
                                     (Get 0, Ok (RetElem 10)); (Get 2, Ok (RetElem 30));
                                     (Get 3, Throw (DataException "Индекс за пределами вектора"))] |} ];
            aborted := false |}.
Proof. vm_compute. reflexivity. Qed.

(** Construct, append one value, destroy: one line of [allocate] and one
    of [deallocate], for one element each. *)
Example one_value_lifetime :
  cout <$> lifetime libstdcxx true [[Add 7]] [0; 0; 0]%nat
  = Some [LineAllocate 1; LineDeallocate 1].
Proof. vm_compute. reflexivity. Qed.

(** On a heap that gives out after two blocks, the third [add] throws
    [std::bad_alloc] and the size stays 2. *)
Example failing_heap_scenario :
  (λ m, (Vector.size (data (obj m)), done <$> threads m))
    <$> run (failing_after 2) true (replicate 12 0%nat) (boot [[Add 10; Add 20; Add 30; Size]])
  = Some (2, [[(Add 10%Z, Ok RetVoid); (Add 20%Z, Ok RetVoid);
               (Add 30%Z, Throw bad_alloc); (Size, Ok (RetSize 2))]]).
Proof. vm_compute. reflexivity. Qed.

(** The text of the lines. *)
Example render_allocate : render (LineAllocate 16) = "Выделяем память для 16 элементов" +:+ endl.
Proof. vm_compute. reflexivity. Qed.

(** * Further properties *)

(** ** The elements only grow *)

Section growth.
Context (P : Platform) (catches : bool).

Lemma run_app sched1 sched2 m :
  run P catches (sched1 ++ sched2) m
  = m1 ← run P catches sched1 m; run P catches sched2 m1.
Proof.
  revert m. induction sched1 as [|t sched1 IH]; intros m; simpl; [done|].
  destruct (step P catches t m) as [m1|]; simpl; [apply IH|done].
Qed.

(** The same as [run_invariant], for what relates the end of a run to its
    start. *)
Lemma run_relation (R : Machine → Machine → Prop) :
  (∀ m, R m m) →
  (∀ m1 m2 m3, R m1 m2 → R m2 m3 → R m1 m3) →
  (∀ t m m', Step P catches t m m' → R m m') →
  ∀ sched m m', run P catches sched m = Some m' → R m m'.
Proof.
  intros Hrefl Htrans Hstep sched. induction sched as [|t sched IH]; intros m m'; simpl.
  - intros [= <-]. apply Hrefl.
  - destruct (step P catches t m) as [m1|] eqn:Hs; [|done]. simpl. intros Hrun.
    eapply Htrans; [|by apply IH]. apply (Hstep t). by apply step_Step.
Qed.

Lemma step_elems_prefix t m m' :
  Step P catches t m m' → elems (data (obj m)) `prefix_of` elems (data (obj m')).
Proof.
  intros [th op rest Hab Hth Hph Hprog Hm | th op r s w Hab Hth Hph Hb | th op r Hab Hth Hph Hm];
    simpl; [done| |done].
  rewrite (body_elems P _ _ _ _ _ _ Hb). by eexists.
Qed.

End growth.

(** X1: whatever the threads do, the vector only grows at its end: the
    elements at the start of a run are a prefix of the elements at its
    end, the size never decreases, and a [get] that has returned an
    element returns the same element at the same index ever after. *)
Theorem elements_are_stable (P : Platform) (catches : bool) (sched : list nat)
    (m m' : Machine) :
  run P catches sched m = Some m' →
  elems (data (obj m)) `prefix_of` elems (data (obj m'))
  ∧ Vector.size (data (obj m)) ≤ Vector.size (data (obj m'))
  ∧ (∀ t index x s1 w1 w,
       ThreadSafeVector.get P t index (obj m) (world m) = Some (Ok x, s1, w1) →
       mtx (obj m') = None →
       ThreadSafeVector.get P t index (obj m') w = Some (Ok x, obj m', w)).
Proof.
  intros Hrun.
  assert (elems (data (obj m)) `prefix_of` elems (data (obj m'))) as Hpre.
  { revert Hrun. apply (run_relation P catches
      (λ m m', elems (data (obj m)) `prefix_of` elems (data (obj m')))).
    - done.
    - intros m1 m2 m3 H12 H23. by etrans.
    - intros t m1 m2 Hs. by eapply step_elems_prefix. }
  split; [done|]. split.
  - unfold Vector.size. apply prefix_length in Hpre. lia.
  - intros t index x s1 w1 w Hget Hfree'.
    pose proof (guarded_Some _ _ _ _ _ Hget) as Hfree.
    rewrite get_free in Hget by done.
    unfold ThreadSafeVector.get_body, Vector.size, Vector.at_index in Hget.
    destruct (N.leb_spec (N.of_nat (length (elems (data (obj m))))) index) as [|Hlt].
    { by destruct (raise _ _ _). }
    simpl in Hget. injection Hget as <- _ _.
    assert (is_Some (elems (data (obj m)) !! N.to_nat index)) as [x Hx]
      by (apply lookup_lt_is_Some; lia).
    rewrite Hx. simpl. apply get_inside; [done|].
    by apply (prefix_lookup_Some _ _ _ _ Hx Hpre).
Qed.

Lemma elements_are_stable_witness :
  ∃ m m', run libstdcxx true [0; 0; 0]%nat (boot [[Add 10; Add 20]; [Add 30]]) = Some m
          ∧ run libstdcxx true [1; 1; 1; 0; 0; 0]%nat m = Some m'
          ∧ elems (data (obj m)) = [10]%Z
          ∧ elems (data (obj m')) = [10; 30; 20]%Z
          ∧ elems (data (obj m)) `prefix_of` elems (data (obj m')).
Proof.
  eexists. eexists. split; [vm_compute; reflexivity|]. split; [vm_compute; reflexivity|].
  split; [reflexivity|]. split; [reflexivity|].
  refine (proj1 (elements_are_stable libstdcxx true [1; 1; 1; 0; 0; 0]%nat _ _ _)).
  vm_compute; reflexivity.
Defined.

(** ** Each thread's values keep their order *)

Lemma added_by_sublist_supplied (th : Thread) : added_by th `sublist_of` supplied (done th).*1.
Proof.
  unfold added_by, supplied. induction (done th) as [|[op r] l IH]; [done|].
  destruct op as [v|i|], r as [a|e]; simpl; try exact IH.
  - by apply sublist_skip.
  - by apply sublist_cons.
Qed.

Lemma supplied_app (p q : list Op) : supplied (p ++ q) = supplied p ++ supplied q.
Proof. apply omap_app. Qed.

Lemma landed_sublist_step (P : Platform) catches t m m' :
  (∀ i th, threads m !! i = Some th → landed th `sublist_of` elems (data (obj m))) →
  Step P catches t m m' →
  ∀ i th, threads m' !! i = Some th → landed th `sublist_of` elems (data (obj m')).
Proof.
  intros Hinv [th op rest Hab Hth Hph Hprog Hm | th op r s w Hab Hth Hph Hb | th op r Hab Hth Hph Hm]
    i th' Hth'; simpl in *;
    apply list_lookup_insert_Some in Hth' as [(<- & <- & _)|[Hne Hth']].
  - specialize (Hinv _ _ Hth). unfold landed, landing in *. simpl. rewrite Hph in Hinv.
    by rewrite app_nil_r in *.
  - by eapply Hinv.
  - rewrite (body_elems P _ _ _ _ _ _ Hb).
    specialize (Hinv _ _ Hth). unfold landed, landing in *. simpl. rewrite Hph in Hinv.
    rewrite app_nil_r in Hinv. apply sublist_app; [done|].
    destruct op as [v|j|], r as [a|e]; done || apply sublist_nil_l.
  - rewrite (body_elems P _ _ _ _ _ _ Hb). apply sublist_inserts_r. by eapply Hinv.
  - specialize (Hinv _ _ Hth). unfold landed, landing in *. simpl. rewrite Hph in Hinv.
    unfold added_by at 1. simpl. rewrite added_by_snoc, app_nil_r.
    by destruct op as [v|j|], r as [a|e]; rewrite ?app_nil_r in *.
  - by eapply Hinv.
Qed.

(** X2: in every state that the threads can reach, the values that a
    thread has added are in the vector in the order in which the thread
    added them, and they are, in that order, among the values that its
    program supplies. *)
Theorem thread_order_kept (P : Platform) (catches : bool) (progs : list (list Op))
    (sched : list nat) (m : Machine) (t : nat) (th : Thread) :
  run P catches sched (boot progs) = Some m →
  threads m !! t = Some th →
  added_by th `sublist_of` elems (data (obj m))
  ∧ ∃ p, progs !! t = Some p ∧ added_by th `sublist_of` supplied p.
Proof.
  intros Hrun Hth. split.
  - assert (landed th `sublist_of` elems (data (obj m))) as Hl.
    { revert t th Hth. revert Hrun.
      apply (run_invariant P catches
        (λ m, ∀ i th, threads m !! i = Some th → landed th `sublist_of` elems (data (obj m)))).
      - intros i m1 m2. apply landed_sublist_step.
      - intros i th Hth. apply list_lookup_fmap_Some in Hth as (p & -> & _). done. }
    etrans; [|exact Hl]. unfold landed. by apply sublist_inserts_r.
  - exists (script th). split.
    + rewrite <- (run_script P catches progs sched m Hrun). by rewrite list_lookup_fmap, Hth.
    + unfold script. rewrite supplied_app. apply sublist_inserts_r, added_by_sublist_supplied.
Qed.

Lemma thread_order_kept_witness :
  ∃ m th, run (failing_after 2) true round_robin (boot workers) = Some m
          ∧ threads m !! 1%nat = Some th
          ∧ added_by th = [200]%Z
          ∧ elems (data (obj m)) = [100; 200]%Z
          ∧ added_by th `sublist_of` elems (data (obj m)).
Proof.
  eexists. eexists. split; [vm_compute; reflexivity|]. split; [vm_compute; reflexivity|].
  split; [reflexivity|]. split; [reflexivity|].
  refine (proj1 (thread_order_kept (failing_after 2) true workers round_robin _ 1 _ _ _));
    vm_compute; reflexivity.
Defined.


(** ** The calls take effect one at a time *)

Lemma exception_destroyed_id (w : World) : messages w = [] → exception_destroyed w = w.
Proof. destruct w. unfold exception_destroyed. simpl. intros ->. by rewrite app_nil_r. Qed.

Lemma exception_destroyed_handled {A} (c : bool) (r : result A) (w : World) :
  exception_destroyed (if c then handled r w else w) = exception_destroyed w.
Proof.
  destruct c, r; try done. unfold handled, exception_destroyed. simpl.
  by rewrite app_nil_r.
Qed.

Lemma handled_exception_destroyed {A} (r : result A) (w : World) :
  (is_Throw r = false → messages w = []) → handled r w = exception_destroyed w.
Proof.
  destruct r; simpl; [|done]. intros H. by rewrite exception_destroyed_id by auto.
Qed.

Lemma push_back_messages (P : Platform) x v w :
  is_Throw (Vector.push_back P x v w).1.1 = false →
  messages (Vector.push_back P x v w).2 = messages w.
Proof.
  unfold Vector.push_back.
  destruct (_ <? _); [done|].
  destruct (_ <=? _); [by destruct (raise _ _ _)|].
  unfold LoggingAllocator.allocate, operator_new. simpl.
  destruct (operator_new_ok _ _ _); simpl; [|done].
  intros _. unfold Vector.release. by destruct (storage v) as [[p c]|].
Qed.

Lemma body_messages (P : Platform) op s w :
  is_Throw (ThreadSafeVector.body P op s w).1.1 = false →
  messages (ThreadSafeVector.body P op s w).2 = messages w.
Proof.
  destruct op as [v|i|]; simpl.
  - unfold ThreadSafeVector.add_body.
    pose proof (push_back_messages P v (data s) w) as H.
    by destruct (Vector.push_back _ _ _ _) as [[[[]|e] d] w1].
  - unfold ThreadSafeVector.get_body.
    destruct (_ <=? _); [by destruct (raise _ _ _)|done].
  - done.
Qed.

Lemma one_at_a_time_snoc prev evs e :
  one_at_a_time prev evs →
  follows (match last evs with Some x => Some x | None => prev end) e →
  one_at_a_time prev (evs ++ [e]).
Proof.
  revert prev. induction evs as [|x evs IH]; intros prev; simpl; [done|].
  intros [Hx Hevs] He. split; [done|]. apply IH; [done|].
  rewrite last_cons in He. by destruct (last evs).
Qed.

Lemma one_at_a_time_lookup prev evs k e :
  one_at_a_time prev evs → evs !! k = Some e →
  follows (match k with O => prev | S j => evs !! j end) e.
Proof.
  revert prev k. induction evs as [|x evs IH]; intros prev [|k]; simpl; try done.
  - by intros [Hx _] [= <-].
  - intros [_ Hevs] He. specialize (IH _ _ Hevs He). by destruct k.
Qed.

Lemma effects_snoc evs e :
  effects (evs ++ [e])
  = effects evs ++ match e with EvBody t op r => [(t, op, r)] | _ => [] end.
Proof. unfold effects. rewrite omap_app. by destruct e. Qed.

Section linearization.
Context (P : Platform) (catches : bool).

Lemma call_Some_free t op s w x : ThreadSafeVector.call P t op s w = Some x → mtx s = None.
Proof.
  destruct op; simpl;
    unfold ThreadSafeVector.add, ThreadSafeVector.get, ThreadSafeVector.size;
    destruct (ThreadSafeVector.guarded _ _ _ _) as [y|] eqn:Hg; try done;
    intros _; by eapply guarded_Some.
Qed.

Lemma seq_calls_snoc calls s0 w0 log s w t op r s' w' :
  seq_calls P calls s0 w0 = Some (log, s, w) →
  ThreadSafeVector.call P t op s w = Some (r, s', w') →
  seq_calls P (calls ++ [(t, op)]) s0 w0 = Some (log ++ [(t, op, r)], s', handled r w').
Proof.
  revert s0 w0 log. induction calls as [|[t1 op1] calls IH]; intros s0 w0 log; simpl.
  - intros [= <- <- <-] ->. done.
  - destruct (ThreadSafeVector.call P t1 op1 s0 w0) as [[[r1 s1] w1]|]; [|done]. simpl.
    destruct (seq_calls P calls s1 _) as [[[log1 s2] w2]|] eqn:Hseq; [|done]. simpl.
    intros [= <- <- <-] Hcall. by rewrite (IH _ _ _ Hseq Hcall).
Qed.

Lemma calls_of_snoc t log t' op r :
  calls_of t (log ++ [(t', op, r)])
  = calls_of t log ++ if decide (t' = t) then [(op, r)] else [].
Proof. unfold calls_of. rewrite omap_app. simpl. by destruct (decide (t' = t)). Qed.

Lemma step_event t m m' : step P catches t m = Some m' → is_Some (event P t m).
Proof.
  unfold step, event. destruct (aborted m); [done|].
  destruct (threads m !! t) as [th|]; [|done]. simpl.
  destruct (phase th); [|done..]. by destruct (prog th).
Qed.

Lemma history_run sched m evs m' :
  history P catches sched m = Some (evs, m') → run P catches sched m = Some m'.
Proof.
  revert m evs. induction sched as [|t sched IH]; intros m evs; simpl.
  - by intros [= _ <-].
  - destruct (event P t m) as [e|]; [|done]. simpl.
    destruct (step P catches t m) as [m1|]; [|done]. simpl.
    destruct (history P catches sched m1) as [[evs1 m2]|] eqn:Hh; [|done]. simpl.
    intros [= _ <-]. by eapply IH.
Qed.

Lemma run_history sched m m' :
  run P catches sched m = Some m' → ∃ evs, history P catches sched m = Some (evs, m').
Proof.
  revert m. induction sched as [|t sched IH]; intros m; simpl.
  - intros [= <-]. by exists [].
  - destruct (step P catches t m) as [m1|] eqn:Hs; [|done]. simpl. intros Hrun.
    destruct (step_event _ _ _ Hs) as [e ->]. simpl.
    destruct (IH _ Hrun) as [evs ->]. simpl. by eexists.
Qed.

(** What holds of the empty history and is kept when a step adds its
    event holds of the history of a run. *)
Lemma history_invariant (I : list Event → Machine → Prop) :
  (∀ t evs m e m', I evs m → event P t m = Some e → Step P catches t m m' → I (evs ++ [e]) m') →
  ∀ sched pre m evs m', I pre m → history P catches sched m = Some (evs, m') → I (pre ++ evs) m'.
Proof.
  intros Hstep sched. induction sched as [|t sched IH]; intros pre m evs m' Hpre; simpl.
  - intros [= <- <-]. by rewrite app_nil_r.
  - destruct (event P t m) as [e|] eqn:He; [|done]. simpl.
    destruct (step P catches t m) as [m1|] eqn:Hs; [|done]. simpl.
    destruct (history P catches sched m1) as [[evs1 m2]|] eqn:Hh; [|done]. simpl.
    intros [= <- <-]. replace (pre ++ e :: evs1) with ((pre ++ [e]) ++ evs1) by (by rewrite <- app_assoc).
    eapply IH; [|done]. eapply Hstep; [done..|]. by apply step_Step.
Qed.

Lemma quiet m :
  mutex_inv m → aborted m = false → messages (world m) = [] ∨ pending m →
  (∀ t th op e, threads m !! t = Some th → phase th = Leaving op (Throw e) →
     mtx (obj m) = Some t → False) →
  messages (world m) = [].
Proof.
  intros [Hin _] Hab [Hq|[Habt|(t & th & op & e & Hth & Hph)]] Hno; [done|congruence|].
  exfalso. eapply Hno; [done..|]. apply (Hin _ _ Hth). unfold inside. by rewrite Hph.
Qed.

Lemma linear_step t m m' evs e :
  mutex_inv m → linear P m evs → event P t m = Some e → Step P catches t m m' →
  linear P m' (evs ++ [e]).
Proof.
  intros Hmi (Hchain & Hlast & Hmsg & Hseq & Hans) He Hstep.
  pose proof Hmi as [Hin Hown].
  unfold linear. rewrite last_snoc, effects_snoc.
  destruct Hstep as [th op rest Hab Hth Hph Hprog Hm | th op r s w Hab Hth Hph Hb | th op r Hab Hth Hph Hm];
    unfold event in He; rewrite Hth in He; simpl in He; rewrite Hph in He; simpl.
  - rewrite Hprog in He. injection He as <-. rewrite app_nil_r.
    assert (messages (world m) = []) as Hq.
    { apply quiet; [done..|]. intros; congruence. }
    split_and!.
    + apply one_at_a_time_snoc; [done|].
      destruct (last evs) as [[t0 op0|t0 op0 r0|t0 op0 r0]|]; simpl; [| |done..].
      * destruct Hlast as (th0 & Hth0 & Hph0).
        assert (mtx (obj m) = Some t0) by (apply (Hin _ _ Hth0); unfold inside; by rewrite Hph0).
        congruence.
      * destruct Hlast as (th0 & Hth0 & Hph0).
        assert (mtx (obj m) = Some t0) by (apply (Hin _ _ Hth0); unfold inside; by rewrite Hph0).
        congruence.
    + eexists. split; [apply list_lookup_insert_eq; by eapply lookup_lt_Some|done].
    + by left.
    + done.
    + intros i th' [(<- & <- & _)|[Hne Hth']]%list_lookup_insert_Some; [|by apply Hans].
      rewrite (Hans _ _ Hth). unfold answered, leaving. simpl. by rewrite Hph.
  - rewrite Hb in He. injection He as <-.
    assert (mtx (obj m) = Some t) as Hm.
    { apply (Hin _ _ Hth). unfold inside. by rewrite Hph. }
    assert (messages (world m) = []) as Hq.
    { apply quiet; [done..|]. intros t2 th2 op2 e2 Hth2 Hph2 Hm2.
      rewrite Hm in Hm2. injection Hm2 as <-. congruence. }
    assert (is_Throw r = false → messages w = []) as Hw.
    { intros Hr. pose proof (body_messages P op (obj m) (world m)) as Hbm.
      rewrite Hb in Hbm. simpl in Hbm. by rewrite Hbm. }
    split_and!.
    + apply one_at_a_time_snoc; [done|].
      destruct (last evs) as [[t0 op0|t0 op0 r0|t0 op0 r0]|]; simpl; [| |congruence..].
      * destruct Hlast as (th0 & Hth0 & Hph0).
        assert (mtx (obj m) = Some t0) as Hm0
          by (apply (Hin _ _ Hth0); unfold inside; by rewrite Hph0).
        rewrite Hm in Hm0. injection Hm0 as <-. split; [done|]. congruence.
      * destruct Hlast as (th0 & Hth0 & Hph0).
        assert (mtx (obj m) = Some t0) as Hm0
          by (apply (Hin _ _ Hth0); unfold inside; by rewrite Hph0).
        rewrite Hm in Hm0. injection Hm0 as <-. congruence.
    + eexists. split; [apply list_lookup_insert_eq; by eapply lookup_lt_Some|done].
    + destruct r as [a|e0]; [left; by apply Hw|].
      right. right. exists t, {| prog := prog th; phase := Leaving op (Throw e0); done := done th |}, op, e0.
      split; [apply list_lookup_insert_eq; by eapply lookup_lt_Some|done].
    + rewrite fmap_app. simpl.
      rewrite (seq_calls_snoc _ _ _ _ _ _ t op r {| data := data s; mtx := None |} w Hseq).
      * by rewrite handled_exception_destroyed.
      * rewrite call_free by done. simpl. rewrite exception_destroyed_id by done.
        destruct (obj m) as [d mt] eqn:Hobj. simpl in *. subst mt. by rewrite Hb.
    + intros i th' [(<- & <- & _)|[Hne Hth']]%list_lookup_insert_Some.
      * rewrite calls_of_snoc, decide_True by done. rewrite (Hans _ _ Hth).
        unfold answered, leaving. simpl. by rewrite Hph, app_nil_r.
      * rewrite calls_of_snoc, decide_False, app_nil_r by done. by apply Hans.
  - injection He as <-. rewrite app_nil_r.
    split_and!.
    + apply one_at_a_time_snoc; [done|].
      destruct (last evs) as [[t0 op0|t0 op0 r0|t0 op0 r0]|]; simpl; [| |congruence..].
      * destruct Hlast as (th0 & Hth0 & Hph0).
        assert (mtx (obj m) = Some t0) as Hm0
          by (apply (Hin _ _ Hth0); unfold inside; by rewrite Hph0).
        rewrite Hm in Hm0. injection Hm0 as <-. congruence.
      * destruct Hlast as (th0 & Hth0 & Hph0).
        assert (mtx (obj m) = Some t0) as Hm0
          by (apply (Hin _ _ Hth0); unfold inside; by rewrite Hph0).
        rewrite Hm in Hm0. injection Hm0 as <-.
        rewrite Hth in Hth0. injection Hth0 as <-. rewrite Hph in Hph0.
        by injection Hph0 as <- <-.
    + done.
    + destruct r as [a|e0].
      * left.
        assert (messages (world m) = []) as Hq.
        { apply quiet; [done..|]. intros t2 th2 op2 e2 Hth2 Hph2 Hm2.
          rewrite Hm in Hm2. injection Hm2 as <-. congruence. }
        by destruct catches.
      * destruct catches; [by left|]. right. by left.
    + by rewrite exception_destroyed_handled.
    + intros i th' [(<- & <- & _)|[Hne Hth']]%list_lookup_insert_Some; [|by apply Hans].
      rewrite (Hans _ _ Hth). unfold answered, leaving. simpl. by rewrite Hph, app_nil_r.
Qed.

Lemma history_linear progs sched evs m :
  history P catches sched (boot progs) = Some (evs, m) → mutex_inv m ∧ linear P m evs.
Proof.
  intros Hh.
  apply (history_invariant (λ evs m, mutex_inv m ∧ linear P m evs)) with (pre := []) in Hh;
    [done| |].
  - intros t evs1 m1 e m2 [Hmi Hl] He Hs. split.
    + by eapply mutex_inv_step.
    + by eapply linear_step.
  - split; [apply mutex_inv_boot|].
    split_and!; try done; [by left|].
    intros t th Hth. simpl in Hth. apply list_lookup_fmap_Some in Hth as (p & -> & _). done.
Qed.

End linearization.

(** X3: the calls are linearizable.  The steps of every run form a chain
    of whole calls, one call after another: a thread enters a call by
    taking the mutex, the body of that call runs, and that call returns
    with the body's outcome, before any call is entered again; so, in
    the run, every body runs between the entry and the return of its own
    call, and a call that has returned before another is entered has had
    its body run before the other's.  (A thread that waits for the mutex
    has made its call no later than it enters.)  And the calls whose
    bodies have run, made one after the other on a new container in the
    order in which the bodies ran, have the outcomes they had in the run,
    every thread its own in its order, and leave the elements of the run
    and, once the exceptions on their way are destroyed, its world. *)
Theorem calls_are_linearizable (P : Platform) (catches : bool) (progs : list (list Op))
    (sched : list nat) (m : Machine) :
  run P catches sched (boot progs) = Some m →
  ∃ evs,
    history P catches sched (boot progs) = Some (evs, m)
    ∧ one_at_a_time None evs
    ∧ (∀ k t op, evs !! k = Some (EvEnter t op) →
         k = 0%nat ∨ ∃ j t' op' r', k = S j ∧ evs !! j = Some (EvReturn t' op' r'))
    ∧ (∀ k t op r, evs !! k = Some (EvBody t op r) →
         ∃ j, k = S j ∧ evs !! j = Some (EvEnter t op))
    ∧ (∀ k t op r, evs !! k = Some (EvReturn t op r) →
         ∃ j, k = S j ∧ evs !! j = Some (EvBody t op r))
    ∧ seq_calls P (effects evs).*1 ThreadSafeVector.new world0
      = Some (effects evs, {| data := data (obj m); mtx := None |},
              exception_destroyed (world m))
    ∧ (∀ t th, threads m !! t = Some th → calls_of t (effects evs) = answered th).
Proof.
  intros Hrun. destruct (run_history P catches _ _ _ Hrun) as [evs Hh].
  exists evs. split; [done|].
  destruct (history_linear P catches _ _ _ _ Hh) as [_ (Hchain & _ & _ & Hseq & Hans)].
  split; [done|]. split_and!; [| | |done..].
  - intros k t op Hk. pose proof (one_at_a_time_lookup _ _ _ _ Hchain Hk) as Hf.
    destruct k as [|j]; [by left|right].
    destruct (evs !! j) as [[t0 op0|t0 op0 r0|t0 op0 r0]|] eqn:Hj; try done.
    + by exists j, t0, op0, r0.
    + apply lookup_ge_None in Hj. apply lookup_lt_Some in Hk. lia.
  - intros k t op r Hk. pose proof (one_at_a_time_lookup _ _ _ _ Hchain Hk) as Hf.
    destruct k as [|j]; [done|].
    destruct (evs !! j) as [[t0 op0|t0 op0 r0|t0 op0 r0]|] eqn:Hj; try done.
    destruct Hf as [-> ->]. by exists j.
  - intros k t op r Hk. pose proof (one_at_a_time_lookup _ _ _ _ Hchain Hk) as Hf.
    destruct k as [|j]; [done|].
    destruct (evs !! j) as [[t0 op0|t0 op0 r0|t0 op0 r0]|] eqn:Hj; try done.
    destruct Hf as (-> & -> & ->). by exists j.
Qed.

Lemma calls_are_linearizable_witness :
  ∃ m, run libstdcxx true [0; 0; 0; 1; 1; 1; 0; 0; 0]%nat (boot [[Get 0; Size]; [Add 5]]) = Some m
       ∧ answered <$> threads m
         = [[(Get 0, Throw (DataException "Индекс за пределами вектора")); (Size, Ok (RetSize 1))];
            [(Add 5%Z, Ok RetVoid)]]
       ∧ ∃ evs,
           effects evs
           = [(0%nat, Get 0, Throw (DataException "Индекс за пределами вектора"));
              (1%nat, Add 5%Z, Ok RetVoid); (0%nat, Size, Ok (RetSize 1))]
           ∧ one_at_a_time None evs
           ∧ seq_calls libstdcxx (effects evs).*1 ThreadSafeVector.new world0
             = Some (effects evs, {| data := data (obj m); mtx := None |},
                     exception_destroyed (world m)).
Proof.
  eexists. split; [vm_compute; reflexivity|]. split; [reflexivity|].
  destruct (calls_are_linearizable libstdcxx true [[Get 0; Size]; [Add 5]]
              [0; 0; 0; 1; 1; 1; 0; 0; 0]%nat _ ltac:(vm_compute; reflexivity))
    as (evs & Hh & Hchain & _ & _ & _ & Hseq & _).
  exists evs. split; [|split; [exact Hchain | exact Hseq]].
  vm_compute in Hh. by injection Hh as <-.
Defined.

(** ** A value added is a value read *)

(** X4: after [add(value)] has returned on a container of size [n],
    [get(n)] returns [value], [size()] returns [n + 1], and [get(i)] for
    [i < n] returns what it returned before, for any calling thread. *)
Theorem add_then_get (P : Platform) (t t' : nat) (value : Z) (s s' : ThreadSafeVector)
    (w w' : World) :
  ThreadSafeVector.add P t value s w = Some (Ok (), s', w') →
  ThreadSafeVector.get P t' (Vector.size (data s)) s' w' = Some (Ok value, s', w')
  ∧ ThreadSafeVector.size t' s' w' = Some (Ok (Vector.size (data s) + 1), s', w')
  ∧ (∀ index, index < Vector.size (data s) →
       ∃ x, ThreadSafeVector.get P t' index s w = Some (Ok x, s, w)
            ∧ ThreadSafeVector.get P t' index s' w' = Some (Ok x, s', w')).
Proof.
  intros H. pose proof (guarded_Some _ _ _ _ _ H) as Hfree.
  rewrite add_free in H by done.
  destruct (Vector.push_back _ _ _ _) as [[r d] w1] eqn:Hpb.
  injection H as -> <- <-. apply push_back_Ok in Hpb.
  split; [|split].
  - apply get_inside; [done|]. simpl. unfold Vector.size.
    by rewrite Hpb, Nat2N.id, lookup_app_r, Nat.sub_diag.
  - rewrite size_free by done. unfold Vector.size. simpl.
    rewrite Hpb, length_app. simpl. do 4 f_equal. lia.
  - intros index Hlt. unfold Vector.size in Hlt.
    assert (is_Some (elems (data s) !! N.to_nat index)) as [x Hx]
      by (apply lookup_lt_is_Some; lia).
    exists x. split; apply get_inside; try done. simpl.
    rewrite Hpb, lookup_app_l by (by eapply lookup_lt_Some). done.
Qed.

Lemma add_then_get_witness :
  ThreadSafeVector.get libstdcxx 1 2
    {| data := {| elems := [10; 20; 30]%Z; storage := Some (2%nat, 4) |}; mtx := None |} world0
  = Some (Ok 30%Z,
          {| data := {| elems := [10; 20; 30]%Z; storage := Some (2%nat, 4) |}; mtx := None |},
          world0).
Proof.
  refine (proj1 (add_then_get libstdcxx 0 1 30
                   {| data := {| elems := [10; 20]%Z; storage := Some (2%nat, 4) |}; mtx := None |}
                   {| data := {| elems := [10; 20; 30]%Z; storage := Some (2%nat, 4) |}; mtx := None |}
                   world0 world0 _)).
  reflexivity.
Defined.

(** ** The books of the allocator *)

Lemma imap_pair_snoc {A} (l : list A) (x : A) :
  imap pair (l ++ [x]) = imap pair l ++ [(length l, x)].
Proof. rewrite imap_app. simpl. by rewrite Nat.add_0_r. Qed.

Lemma acquired_snoc out l :
  acquired (out ++ [l]) = acquired out ++ match l with LineAllocate n => [n] | _ => [] end.
Proof. unfold acquired. rewrite omap_app. by destruct l. Qed.

Lemma released_snoc out l :
  released (out ++ [l]) = released out ++ match l with LineDeallocate n => [n] | _ => [] end.
Proof. unfold released. rewrite omap_app. by destruct l. Qed.

Lemma granted_blocks_snoc (P : Platform) (w w' : World) (b : N) :
  new_requests w' = new_requests w ++ [b] →
  granted_blocks P w'
  = granted_blocks P w
    ++ if operator_new_ok P (length (new_requests w)) b then [length (new_requests w)] else [].
Proof.
  intros Hreq. unfold granted_blocks. rewrite Hreq, imap_pair_snoc, omap_app. simpl.
  by destruct (operator_new_ok _ _ _).
Qed.

Lemma all_granted_lookup (P : Platform) (w : World) (k : nat) (b : N) :
  all_granted P w = true → new_requests w !! k = Some b → operator_new_ok P k b = true.
Proof.
  unfold all_granted. rewrite forallb_forall. intros Hall Hk.
  apply (Hall (k, b)). apply list_elem_of_In, list_elem_of_lookup. exists k.
  by rewrite list_lookup_imap, Hk.
Qed.

Section books.
Context (P : Platform).

Lemma granted_counts_snoc ks ns k n :
  length ks = length ns →
  granted_counts P (ks ++ [k]) (ns ++ [n])
  = granted_counts P ks ns
    ++ if operator_new_ok P k (LoggingAllocator.byte_count P n) then [n] else [].
Proof.
  intros Hlen. unfold granted_counts. rewrite zip_with_app by done.
  rewrite omap_app. simpl. by destruct (operator_new_ok _ _ _).
Qed.

(** A request that has no line, and a line that is not the allocator's,
    leave the books as they are. *)
Lemma books_ext v w w' ks extra :
  acquired (cout w') = acquired (cout w) → released (cout w') = released (cout w) →
  new_requests w' = new_requests w ++ extra →
  books P v w ks → books P v w' ks.
Proof.
  intros Hacq Hrel Hreq (Hsub & Hall & Hcnt). unfold books.
  rewrite Hacq, Hrel, Hreq. split_and!; [| |done].
  - rewrite length_app, seq_app. by apply sublist_inserts_r.
  - eapply Forall2_impl; [done|]. intros k n Hk. simpl in Hk.
    by apply lookup_app_l_Some.
Qed.

(** A line of [allocate] with its request. *)
Lemma books_allocate v v' w w' ks n :
  acquired (cout w') = acquired (cout w) ++ [n] →
  new_requests w' = new_requests w ++ [LoggingAllocator.byte_count P n] →
  released (cout w') ++ caps v'
    = (released (cout w) ++ caps v)
      ++ (if operator_new_ok P (length (new_requests w)) (LoggingAllocator.byte_count P n)
          then [n] else []) →
  books P v w ks → books P v' w' (ks ++ [length (new_requests w)]).
Proof.
  intros Hacq Hreq Hrel (Hsub & Hall & Hcnt). unfold books.
  rewrite Hacq, Hreq, Hrel. split_and!.
  - rewrite length_app, Nat.add_1_r, seq_S. simpl. by apply sublist_app.
  - apply Forall2_app.
    + eapply Forall2_impl; [done|]. intros k m Hk. simpl in Hk. by apply lookup_app_l_Some.
    + constructor; [by rewrite list_lookup_middle|constructor].
  - rewrite granted_counts_snoc by (by eapply Forall2_length). by rewrite Hcnt.
Qed.

Lemma raise_books v w ks e : books P v w ks → books P v (raise P e w).2 ks.
Proof.
  apply books_ext with (extra := [message_bytes P (what e)]).
  - by rewrite raise_cout.
  - by rewrite raise_cout.
  - apply raise_requests.
Qed.

Lemma push_back_books x v w ks :
  books P v w ks →
  ∃ ks', books P (Vector.push_back P x v w).1.2 (Vector.push_back P x v w).2 ks'.
Proof.
  unfold Vector.push_back. intros Hb.
  destruct (_ <? _); [by exists ks|].
  destruct (_ <=? _).
  { exists ks. pose proof (raise_books v w ks (length_error "vector::_M_realloc_insert") Hb).
    by destruct (raise _ _ _). }
  exists (ks ++ [length (new_requests w)]).
  unfold LoggingAllocator.allocate, operator_new. cbn [print_cout cout new_requests].
  destruct (operator_new_ok P _ _) eqn:Hok; simpl.
  - eapply books_allocate; [| | |exact Hb].
    + unfold Vector.release. destruct (storage v) as [[q c]|]; simpl;
        rewrite ?acquired_snoc, ?app_nil_r; simpl; by rewrite ?acquired_snoc.
    + unfold Vector.release. by destruct (storage v) as [[q c]|].
    + rewrite Hok. unfold Vector.release, caps.
      destruct (storage v) as [[q c]|]; simpl;
        rewrite ?released_snoc, ?app_nil_r; simpl; by rewrite ?released_snoc, ?app_nil_r.
  - eapply books_allocate; [| | |exact Hb]; simpl.
    + by rewrite acquired_snoc.
    + done.
    + by rewrite Hok, released_snoc, !app_nil_r.
Qed.

Lemma body_books op s w ks :
  books P (data s) w ks →
  ∃ ks', books P (data (ThreadSafeVector.body P op s w).1.2) (ThreadSafeVector.body P op s w).2 ks'.
Proof.
  intros Hb. destruct op as [v|i|]; simpl.
  - unfold ThreadSafeVector.add_body.
    pose proof (push_back_books v (data s) w ks Hb) as Hpb.
    by destruct (Vector.push_back _ _ _ _) as [[[[]|e] d] w1].
  - unfold ThreadSafeVector.get_body. destruct (_ <=? _); [|by exists ks].
    exists ks.
    pose proof (raise_books (data s) w ks (DataException "Индекс за пределами вектора") Hb).
    by destruct (raise _ _ _).
  - by exists ks.
Qed.

Lemma step_books catches t m m' :
  (∃ ks, books P (data (obj m)) (world m) ks) → Step P catches t m m' →
  ∃ ks, books P (data (obj m')) (world m') ks.
Proof.
  intros [ks Hb] [th op rest Hab Hth Hph Hprog Hm | th op r s w Hab Hth Hph Hb' | th op r Hab Hth Hph Hm];
    simpl.
  - by exists ks.
  - pose proof (body_books op (obj m) (world m) ks Hb) as H. by rewrite Hb' in H.
  - exists ks. eapply books_ext with (extra := []); [..|exact Hb].
    + by rewrite handled_if_cout.
    + by rewrite handled_if_cout.
    + by rewrite handled_if_requests, app_nil_r.
Qed.

Lemma run_books catches progs sched m :
  run P catches sched (boot progs) = Some m → ∃ ks, books P (data (obj m)) (world m) ks.
Proof.
  apply (run_invariant P catches (λ m, ∃ ks, books P (data (obj m)) (world m) ks)).
  - intros t m1 m2 Hb Hs. by eapply step_books.
  - exists []. by split_and!.
Qed.

Lemma raise_blocks v w e : blocks_inv P v w → blocks_inv P v (raise P e w).2.
Proof.
  unfold blocks_inv, raise, operator_new. intros Hb.
  destruct (operator_new_ok P _ _) eqn:Hok; simpl.
  - rewrite (granted_blocks_snoc P w _ (message_bytes P (what e))) by done.
    rewrite Hok, <- Hb, !app_assoc. done.
  - rewrite (granted_blocks_snoc P w _ (message_bytes P (what e))) by done.
    by rewrite Hok, app_nil_r.
Qed.

Lemma handled_blocks {A} v w (c : bool) (r : result A) :
  blocks_inv P v w → blocks_inv P v (if c then handled r w else w).
Proof.
  destruct c, r; try done. unfold blocks_inv, handled, exception_destroyed, granted_blocks.
  simpl. intros <-. rewrite app_nil_r.
  rewrite <- (assoc_L (++)). f_equiv. apply Permutation_app_comm.
Qed.

Lemma push_back_blocks x v w :
  blocks_inv P v w →
  blocks_inv P (Vector.push_back P x v w).1.2 (Vector.push_back P x v w).2.
Proof.
  unfold Vector.push_back. intros Hb.
  destruct (_ <? _); [done|].
  destruct (_ <=? _).
  { pose proof (raise_blocks v w (length_error "vector::_M_realloc_insert") Hb).
    by destruct (raise _ _ _). }
  unfold LoggingAllocator.allocate, operator_new. cbn [print_cout cout new_requests].
  unfold blocks_inv in *.
  destruct (operator_new_ok P _ _) eqn:Hok; simpl.
  - rewrite (granted_blocks_snoc P w _
               (LoggingAllocator.byte_count P (vec_check_len P (Vector.size v))))
      by (unfold Vector.release; by destruct (storage v) as [[q c]|]).
    rewrite Hok, <- Hb. unfold Vector.release, held.
    destruct (storage v) as [[q c]|]; simpl.
    + rewrite <- !(assoc_L (++)). f_equiv. simpl. f_equiv. apply Permutation_cons_append.
    + rewrite <- (assoc_L (++)). f_equiv. apply Permutation_cons_append.
  - rewrite (granted_blocks_snoc P w _
               (LoggingAllocator.byte_count P (vec_check_len P (Vector.size v)))) by done.
    by rewrite Hok, app_nil_r.
Qed.

Lemma body_blocks op s w :
  blocks_inv P (data s) w →
  blocks_inv P (data (ThreadSafeVector.body P op s w).1.2) (ThreadSafeVector.body P op s w).2.
Proof.
  intros Hb. destruct op as [v|i|]; simpl.
  - unfold ThreadSafeVector.add_body.
    pose proof (push_back_blocks v (data s) w Hb) as Hpb.
    by destruct (Vector.push_back _ _ _ _) as [[[[]|e] d] w1].
  - unfold ThreadSafeVector.get_body. destruct (_ <=? _); [|done].
    pose proof (raise_blocks (data s) w (DataException "Индекс за пределами вектора") Hb).
    by destruct (raise _ _ _).
  - done.
Qed.

Lemma run_blocks catches progs sched m :
  run P catches sched (boot progs) = Some m → blocks_inv P (data (obj m)) (world m).
Proof.
  apply (run_invariant P catches (λ m, blocks_inv P (data (obj m)) (world m)));
    [|by unfold blocks_inv].
  intros t m1 m2 Hinv [th op rest Hab Hth Hph Hprog Hm | th op r s w Hab Hth Hph Hb | th op r Hab Hth Hph Hm];
    simpl.
  - done.
  - pose proof (body_blocks op (obj m1) (world m1) Hinv) as H. by rewrite Hb in H.
  - by apply handled_blocks.
Qed.

Lemma granted_blocks_sublist (w : World) :
  granted_blocks P w `sublist_of` seq 0 (length (new_requests w)).
Proof.
  unfold granted_blocks. induction (new_requests w) as [|b l IH] using rev_ind; [done|].
  rewrite imap_pair_snoc, omap_app, length_app, Nat.add_1_r, seq_S. simpl.
  apply sublist_app; [done|].
  destruct (operator_new_ok _ _ _); [done|]. apply sublist_nil_l.
Qed.

Lemma granted_counts_all ks ns w :
  all_granted P w = true →
  Forall2 (λ k n, new_requests w !! k = Some (LoggingAllocator.byte_count P n)) ks ns →
  granted_counts P ks ns = ns.
Proof.
  intros Hall. unfold granted_counts. induction 1 as [|k n ks ns Hk _ IH]; [done|].
  simpl. rewrite (all_granted_lookup P w k _ Hall Hk). simpl. by f_equal.
Qed.

End books.

(** X5: at the end of the container's life, whether or not a request has
    been refused: every line of [allocate] stands for one call of
    [::operator new], for the bytes of its count, and these calls were
    made in the order of the lines (other calls, for the text of an
    exception, may lie between them); the lines of [deallocate] name, in
    order, exactly the counts of the lines of [allocate] whose request
    was granted; so when every request was granted, the lines of
    [deallocate] name the counts of the lines of [allocate], one for
    one. *)
Theorem release_lines_mirror_grants (P : Platform) (catches : bool) (progs : list (list Op))
    (sched : list nat) (w : World) :
  lifetime P catches progs sched = Some w →
  ∃ ks,
    ks `sublist_of` seq 0 (length (new_requests w))
    ∧ Forall2 (λ k n, new_requests w !! k = Some (LoggingAllocator.byte_count P n))
              ks (acquired (cout w))
    ∧ released (cout w) = granted_counts P ks (acquired (cout w))
    ∧ (all_granted P w = true → released (cout w) = acquired (cout w)).
Proof.
  unfold lifetime. intros Hlife.
  destruct (run P catches sched (boot progs)) as [m|] eqn:Hrun; [|done].
  injection Hlife as <-.
  destruct (run_books P catches progs sched m Hrun) as (ks & Hsub & Hall & Hcnt).
  exists ks.
  assert (new_requests (ThreadSafeVector.destroy (obj m) (world m)) = new_requests (world m)
          ∧ acquired (cout (ThreadSafeVector.destroy (obj m) (world m))) = acquired (cout (world m))
          ∧ released (cout (ThreadSafeVector.destroy (obj m) (world m)))
            = released (cout (world m)) ++ caps (data (obj m))) as (Hreq & Hacq & Hrel).
  { unfold ThreadSafeVector.destroy, Vector.destroy, Vector.release, caps.
    destruct (storage (data (obj m))) as [[q c]|]; simpl.
    - by rewrite released_snoc, acquired_snoc, app_nil_r.
    - by rewrite app_nil_r. }
  rewrite Hreq, Hacq, Hrel. split_and!; [done..|].
  intros Hg. rewrite <- Hcnt. eapply granted_counts_all; [|done].
  unfold all_granted in *. by rewrite <- Hreq.
Qed.

Lemma release_lines_mirror_grants_witness :
  lifetime (failing_after 3) true [[Add 1; Add 2; Get 7; Add 3; Add 4]] (replicate 15 0%nat)
  = Some {| cout := [LineAllocate 1; LineAllocate 2; LineDeallocate 1; LineAllocate 4;
                     LineAllocate 4; LineDeallocate 2];
            cerr := []; new_requests := [4; 8; 76; 16; 16]; deleted := [0; 2; 1]%nat;
            messages := [] |}
  ∧ ∃ ks,
      ks `sublist_of` seq 0 5
      ∧ Forall2 (λ k n, [4; 8; 76; 16; 16] !! k
                        = Some (LoggingAllocator.byte_count (failing_after 3) n))
                ks [1; 2; 4; 4]
      ∧ [1; 2] = granted_counts (failing_after 3) ks [1; 2; 4; 4].
Proof.
  split; [vm_compute; reflexivity|].
  destruct (release_lines_mirror_grants (failing_after 3) true
              [[Add 1; Add 2; Get 7; Add 3; Add 4]]%Z (replicate 15 0%nat)
              {| cout := [LineAllocate 1; LineAllocate 2; LineDeallocate 1; LineAllocate 4;
                          LineAllocate 4; LineDeallocate 2];
                 cerr := []; new_requests := [4; 8; 76; 16; 16]; deleted := [0; 2; 1]%nat;
                 messages := [] |} ltac:(vm_compute; reflexivity))
    as (ks & Hsub & Hall & Hrel & _).
  by exists ks.
Defined.

(** X6: in every state that the threads can reach, the blocks given to
    [::operator delete], the block that the vector holds and the blocks
    of the exceptions alive are, each once, exactly the blocks that
    [::operator new] has returned: no block is deleted twice, the block in
    use and the text of a live exception have not been deleted; while no
    call is under way and the process lives, no exception is alive; and
    once the exceptions are destroyed and the container is, every block
    has been given back. *)
Theorem blocks_given_back_once (P : Platform) (catches : bool) (progs : list (list Op))
    (sched : list nat) (m : Machine) :
  run P catches sched (boot progs) = Some m →
  deleted (world m) ++ held (data (obj m)) ++ messages (world m) ≡ₚ granted_blocks P (world m)
  ∧ NoDup (deleted (world m) ++ held (data (obj m)) ++ messages (world m))
  ∧ (aborted m = false → mtx (obj m) = None → messages (world m) = [])
  ∧ deleted (exception_destroyed (ThreadSafeVector.destroy (obj m) (world m)))
    ≡ₚ granted_blocks P (world m)
  ∧ granted_blocks P (exception_destroyed (ThreadSafeVector.destroy (obj m) (world m)))
    = granted_blocks P (world m).
Proof.
  intros Hrun. pose proof (run_blocks P catches progs sched m Hrun) as Hblk.
  unfold blocks_inv in Hblk. split; [done|]. split; [|split; [|split]].
  - rewrite Hblk. eapply sublist_NoDup; [apply NoDup_seq|apply granted_blocks_sublist].
  - intros Hab Hfree. destruct (run_history P catches _ _ _ Hrun) as [evs Hh].
    destruct (history_linear P catches _ _ _ _ Hh) as [[Hin Hown] (_ & _ & Hmsg & _)].
    apply quiet; [done..|]. intros; congruence.
  - rewrite <- Hblk. unfold ThreadSafeVector.destroy, Vector.destroy, Vector.release, held.
    destruct (storage (data (obj m))) as [[q c]|]; simpl; [by rewrite <- (assoc_L (++))|done].
  - unfold ThreadSafeVector.destroy, Vector.destroy, Vector.release.
    by destruct (storage (data (obj m))) as [[q c]|].
Qed.

Lemma blocks_given_back_once_witness :
  ∃ m, run (failing_after 3) true (replicate 11 0%nat) (boot [[Add 1; Add 2; Get 7; Get 8]]) = Some m
       ∧ deleted (world m) = [0; 2]%nat
       ∧ held (data (obj m)) = [1%nat]
       ∧ messages (world m) = []
       ∧ new_requests (world m) = [4; 8; 76; 76]
       ∧ deleted (world m) ++ held (data (obj m)) ++ messages (world m)
         ≡ₚ granted_blocks (failing_after 3) (world m).
Proof.
  eexists. split; [vm_compute; reflexivity|].
  split; [reflexivity|]. split; [reflexivity|]. split; [reflexivity|]. split; [reflexivity|].
  refine (proj1 (blocks_given_back_once (failing_after 3) true [[Add 1; Add 2; Get 7; Get 8]]%Z
                   (replicate 11 0%nat) _ _)).
  vm_compute; reflexivity.
Defined.

(** ** The wrap-around is out of the container's reach *)

Lemma push_back_acquired_Forall (P : Platform) (Q : N → Prop) x v w :
  (∀ k, Q (vec_check_len P k)) →
  Forall Q (acquired (cout w)) →
  Forall Q (acquired (cout (Vector.push_back P x v w).2)).
Proof.
  intros HQ Hall. unfold Vector.push_back.
  destruct (_ <? _); [done|].
  destruct (_ <=? _).
  { pose proof (raise_cout P (length_error "vector::_M_realloc_insert") w) as Hc.
    destruct (raise _ _ _). simpl in *. by rewrite Hc. }
  unfold LoggingAllocator.allocate, operator_new. simpl.
  destruct (operator_new_ok P _ _); simpl.
  - unfold Vector.release. destruct (storage v) as [[q c]|]; simpl;
      rewrite ?acquired_snoc, ?app_nil_r; simpl; rewrite ?acquired_snoc;
      apply Forall_app; split; auto.
  - rewrite acquired_snoc. apply Forall_app; split; auto.
Qed.

Lemma run_acquired_Forall (P : Platform) (Q : N → Prop) catches progs sched m :
  (∀ k, Q (vec_check_len P k)) →
  run P catches sched (boot progs) = Some m →
  Forall Q (acquired (cout (world m))).
Proof.
  intros HQ. apply (run_invariant P catches (λ m, Forall Q (acquired (cout (world m)))));
    [|by apply Forall_nil].
  intros t m1 m2 Hall [th op rest Hab Hth Hph Hprog Hm | th op r s w Hab Hth Hph Hb | th op r Hab Hth Hph Hm];
    simpl; [done| |by rewrite handled_if_cout].
  destruct op as [v|i|]; simpl in Hb.
  - unfold ThreadSafeVector.add_body in Hb.
    pose proof (push_back_acquired_Forall P Q v (data (obj m1)) (world m1) HQ Hall) as Hpb.
    destruct (Vector.push_back _ _ _ _) as [[[[]|e] d] w1]; by simplify_eq/=.
  - unfold ThreadSafeVector.get_body in Hb.
    pose proof (raise_cout P (DataException "Индекс за пределами вектора") (world m1)) as Hc.
    destruct (_ <=? _); [destruct (raise _ _ _)|]; simplify_eq/=; [by rewrite Hc|done].
  - by simplify_eq/=.
Qed.

(** X7: the counts that the container passes to [allocate] are capacities
    chosen by the vector's growth policy; so on a platform where the byte
    size of every such capacity fits [size_t], the request that
    [allocate] makes of [::operator new] for a line naming [n] is for
    exactly [n * sizeof(T)] bytes: the product of [allocate] never
    wraps.  These requests are made in the order of the lines; the other
    requests are for the text of an exception. *)
Theorem container_requests_exact (P : Platform) (catches : bool) (progs : list (list Op))
    (sched : list nat) (m : Machine) :
  (∀ k, vec_check_len P k * sizeof_T P < 2 ^ size_bits P) →
  run P catches sched (boot progs) = Some m →
  Forall (λ n, ∃ k, n = vec_check_len P k) (acquired (cout (world m)))
  ∧ ∃ ks,
      ks `sublist_of` seq 0 (length (new_requests (world m)))
      ∧ Forall2 (λ k n, new_requests (world m) !! k = Some (n * sizeof_T P))
                ks (acquired (cout (world m))).
Proof.
  intros Hfit Hrun. split.
  - eapply run_acquired_Forall; [|done]. intros k. by exists k.
  - destruct (run_books P catches progs sched m Hrun) as (ks & Hsub & Hall & _).
    exists ks. split; [done|].
    pose proof (run_acquired_Forall P (λ n, n * sizeof_T P < 2 ^ size_bits P)
                  catches progs sched m Hfit Hrun) as Hsmall.
    clear Hsub. revert Hall Hsmall. generalize (acquired (cout (world m))). intros ns Hall.
    induction Hall as [|k n ks' ns Hk _ IH]; intros Hsmall; [constructor|].
    apply Forall_cons in Hsmall as [Hn Hns]. constructor; [|by apply IH].
    rewrite Hk. unfold LoggingAllocator.byte_count. by rewrite N.mod_small.
Qed.

Lemma container_requests_exact_witness :
  ∃ m, run libstdcxx true (replicate 12 0%nat) (boot [[Add 1; Get 3; Add 2; Add 3]]) = Some m
       ∧ acquired (cout (world m)) = [1; 2; 4]
       ∧ new_requests (world m) = [4; 76; 8; 16]
       ∧ ∃ ks,
           ks `sublist_of` seq 0 (length (new_requests (world m)))
           ∧ Forall2 (λ k n, new_requests (world m) !! k = Some (n * 4))
                     ks (acquired (cout (world m))).
Proof.
  eexists. split; [vm_compute; reflexivity|]. split; [reflexivity|]. split; [reflexivity|].
  refine (proj2 (container_requests_exact libstdcxx true [[Add 1; Get 3; Add 2; Add 3]]%Z
                   (replicate 12 0%nat) _ _ _)).
  - intros k. cbn [vec_check_len sizeof_T size_bits libstdcxx].
    change ((2 ^ 63 - 1) `div` 4) with 2305843009213693951.
    change (2 ^ 64) with 18446744073709551616. lia.
  - vm_compute; reflexivity.
Defined.

(** ** Every run comes to an end *)

Lemma sum_list_fmap_insert {A} (f : A → nat) (l : list A) (t : nat) (x x' : A) :
  l !! t = Some x →
  (sum_list (f <$> <[t := x']> l) + f x = sum_list (f <$> l) + f x')%nat.
Proof.
  revert t. induction l as [|y l IH]; intros [|t] Hl; simplify_eq/=; [lia|].
  specialize (IH t Hl). lia.
Qed.

Section termination.
Context (P : Platform) (catches : bool).

Lemma step_remaining t m m' : Step P catches t m m' → remaining m = S (remaining m').
Proof.
  intros [th op rest Hab Hth Hph Hprog Hm | th op r s w Hab Hth Hph Hb | th op r Hab Hth Hph Hm];
    unfold remaining; cbn [threads];
    match goal with
    | |- _ = S (sum_list (weight <$> <[_ := ?th']> _)) =>
        pose proof (sum_list_fmap_insert weight _ _ _ th' Hth) as Hsum;
        assert (weight th = S (weight th')) as Hw
          by (unfold weight; cbn [prog phase]; rewrite Hph, ?Hprog; simpl; lia)
    end; lia.
Qed.

Lemma run_remaining sched m m' :
  run P catches sched m = Some m' → remaining m = (length sched + remaining m')%nat.
Proof.
  revert m. induction sched as [|t sched IH]; intros m; simpl.
  - by intros [= <-].
  - destruct (step P catches t m) as [m1|] eqn:Hs; [|done]. simpl. intros Hrun.
    apply step_Step, step_remaining in Hs. rewrite Hs, (IH _ Hrun). done.
Qed.

Lemma remaining_boot progs : remaining (boot progs) = (3 * length (concat progs))%nat.
Proof.
  unfold remaining. cbn [threads boot]. induction progs as [|p progs IH]; [done|].
  rewrite !fmap_cons. cbn [sum_list_with]. rewrite IH. cbn [concat]. rewrite length_app.
  unfold weight. simpl. lia.
Qed.

Lemma run_mutex_inv_from sched m m' :
  mutex_inv m → run P catches sched m = Some m' → mutex_inv m'.
Proof.
  apply (run_invariant P catches mutex_inv). intros t m1 m2. apply mutex_inv_step.
Qed.

Lemma run_to_end n m :
  (remaining m ≤ n)%nat → mutex_inv m →
  ∃ sched m', run P catches sched m = Some m'
              ∧ (aborted m' = true ∨ forallb finished (threads m') = true).
Proof.
  revert m. induction n as [|n IH]; intros m Hn Hinv.
  - destruct (aborted m) eqn:Hab; [exists [], m; auto|].
    destruct (progress P catches m Hinv Hab) as [Hfin|[t [m1 Hs]]]; [exists [], m; auto|].
    apply step_Step, step_remaining in Hs. lia.
  - destruct (aborted m) eqn:Hab; [exists [], m; auto|].
    destruct (progress P catches m Hinv Hab) as [Hfin|[t [m1 Hs]]]; [exists [], m; auto|].
    pose proof Hs as Hs'. apply step_Step in Hs'.
    destruct (IH m1) as (sched & m' & Hrun & Hend).
    + apply step_remaining in Hs'. lia.
    + by eapply mutex_inv_step.
    + exists (t :: sched), m'. simpl. rewrite Hs. simpl. done.
Qed.

End termination.

(** X8: a run takes three steps for each call: the steps taken and the
    steps left always add up to three times the number of calls of the
    programs, so no schedule runs longer than that; and no run gets
    stuck: every run can be continued to one at whose end all the threads
    have made all their calls, or the process has been terminated. *)
Theorem runs_end (P : Platform) (catches : bool) (progs : list (list Op))
    (sched : list nat) (m : Machine) :
  run P catches sched (boot progs) = Some m →
  (length sched + remaining m = 3 * length (concat progs))%nat
  ∧ ∃ sched' m',
      run P catches (sched ++ sched') (boot progs) = Some m'
      ∧ (aborted m' = true ∨ forallb finished (threads m') = true).
Proof.
  intros Hrun. split.
  - by rewrite <- (run_remaining P catches sched _ m Hrun), remaining_boot.
  - destruct (run_to_end P catches (remaining m) m) as (sched' & m' & Hrun' & Hend);
      [done|by eapply run_mutex_inv|].
    exists sched', m'. rewrite run_app, Hrun. done.
Qed.

Lemma runs_end_witness :
  ∃ m, run libstdcxx false (take 20 round_robin) (boot workers) = Some m
       ∧ remaining m = 25%nat
       ∧ (20 + remaining m = 3 * 15)%nat.
Proof.
  eexists. split; [vm_compute; reflexivity|]. split; [reflexivity|].
  refine (proj1 (runs_end libstdcxx false workers (take 20 round_robin) _ _)).
  vm_compute; reflexivity.
Defined.

(** ** Calls that throw *)

(** X11: a call that throws leaves the container exactly as it found it,
    whichever member function it is.  [size] never throws.  [get] throws
    only for an index not below the size: it asks [::operator new] for
    the store of its message, and throws [DataException] with the message
    when that is granted, [std::bad_alloc] when it is refused; nothing is
    printed.  [add] throws [std::bad_alloc] when the request just logged
    was refused; or, when the vector is at its maximal size, it asks for
    the store of a message, logging nothing, and throws
    [std::length_error] when that is granted and [std::bad_alloc] when it
    is refused. *)
Theorem failed_call_changes_nothing (P : Platform) (t : nat) (op : Op)
    (s s' : ThreadSafeVector) (w w' : World) (e : exception) :
  ThreadSafeVector.call P t op s w = Some (Throw e, s', w') →
  s' = s
  ∧ match op with
    | Add _ =>
        (e = bad_alloc
         ∧ Vector.size (data s) < vec_max_size P
         ∧ operator_new_ok P (length (new_requests w))
             (LoggingAllocator.byte_count P (vec_check_len P (Vector.size (data s)))) = false
         ∧ w' = {| cout := cout w ++ [LineAllocate (vec_check_len P (Vector.size (data s)))];
                   cerr := cerr w;
                   new_requests := new_requests w
                     ++ [LoggingAllocator.byte_count P (vec_check_len P (Vector.size (data s)))];
                   deleted := deleted w; messages := messages w |})
        ∨ (vec_max_size P ≤ Vector.size (data s)
           ∧ ∃ msg,
               (e, w')
               = if operator_new_ok P (length (new_requests w)) (message_bytes P msg)
                 then (length_error msg,
                       {| cout := cout w; cerr := cerr w;
                          new_requests := new_requests w ++ [message_bytes P msg];
                          deleted := deleted w;
                          messages := messages w ++ [length (new_requests w)] |})
                 else (bad_alloc,
                       {| cout := cout w; cerr := cerr w;
                          new_requests := new_requests w ++ [message_bytes P msg];
                          deleted := deleted w; messages := messages w |}))
    | Get index =>
        Vector.size (data s) ≤ index
        ∧ ∃ msg,
            (e, w')
            = if operator_new_ok P (length (new_requests w)) (message_bytes P msg)
              then (DataException msg,
                    {| cout := cout w; cerr := cerr w;
                       new_requests := new_requests w ++ [message_bytes P msg];
                       deleted := deleted w;
                       messages := messages w ++ [length (new_requests w)] |})
              else (bad_alloc,
                    {| cout := cout w; cerr := cerr w;
                       new_requests := new_requests w ++ [message_bytes P msg];
                       deleted := deleted w; messages := messages w |})
    | Size => False
    end.
Proof.
  intros Hcall. pose proof (call_Some_free P _ _ _ _ _ Hcall) as Hfree.
  rewrite call_free in Hcall by done.
  assert ({| data := data s; mtx := None |} = s) as Hs by (destruct s; simpl in *; by subst).
  destruct op as [v|i|]; simpl in Hcall.
  - unfold ThreadSafeVector.add_body, Vector.push_back in Hcall. simpl in Hcall.
    destruct (_ <? _); [done|].
    destruct (N.leb_spec (vec_max_size P) (Vector.size (data s))).
    { unfold raise, operator_new in Hcall. simpl in Hcall.
      split; [destruct (operator_new_ok _ _ _); by simplify_eq/=|].
      right. split; [done|]. exists "vector::_M_realloc_insert".
      destruct (operator_new_ok _ _ _); by simplify_eq/=. }
    unfold LoggingAllocator.allocate, operator_new in Hcall. simpl in Hcall.
    destruct (operator_new_ok _ _ _) eqn:Hok; simplify_eq/=.
    split; [done|]. left. done.
  - unfold ThreadSafeVector.get_body in Hcall. simpl in Hcall.
    destruct (N.leb_spec (Vector.size (data s)) i); [|by simplify_eq/=].
    unfold raise, operator_new in Hcall. simpl in Hcall.
    split; [destruct (operator_new_ok _ _ _); by simplify_eq/=|].
    split; [done|]. exists "Индекс за пределами вектора".
    destruct (operator_new_ok _ _ _); by simplify_eq/=.
  - simplify_eq/=.
Qed.

Lemma failed_call_changes_nothing_witness :
  ThreadSafeVector.call (failing_after 2) 0 (Get 2)
    {| data := {| elems := [10; 20]%Z; storage := Some (1%nat, 2) |}; mtx := None |}
    {| cout := [LineAllocate 1; LineAllocate 2; LineDeallocate 1]; cerr := [];
       new_requests := [4; 8]; deleted := [0%nat]; messages := [] |}
  = Some (Throw bad_alloc,
          {| data := {| elems := [10; 20]%Z; storage := Some (1%nat, 2) |}; mtx := None |},
          {| cout := [LineAllocate 1; LineAllocate 2; LineDeallocate 1]; cerr := [];
             new_requests := [4; 8; 76]; deleted := [0%nat]; messages := [] |})
  ∧ {| data := {| elems := [10; 20]%Z; storage := Some (1%nat, 2) |}; mtx := None |}
    = {| data := {| elems := [10; 20]%Z; storage := Some (1%nat, 2) |}; mtx := None |}.
Proof.
  split; [vm_compute; reflexivity|].
  refine (proj1 (failed_call_changes_nothing (failing_after 2) 0 (Get 2)
                   {| data := {| elems := [10; 20]%Z; storage := Some (1%nat, 2) |}; mtx := None |}
                   _
                   {| cout := [LineAllocate 1; LineAllocate 2; LineDeallocate 1]; cerr := [];
                      new_requests := [4; 8]; deleted := [0%nat]; messages := [] |}
                   {| cout := [LineAllocate 1; LineAllocate 2; LineDeallocate 1];
                      cerr := []; new_requests := [4; 8; 76]; deleted := [0%nat];
                      messages := [] |}
                   bad_alloc _)).
  vm_compute; reflexivity.
Defined.

(** ** The text of the lines *)

Lemma append_cons (c : Ascii.ascii) (s t : string) : String c s +:+ t = String c (s +:+ t).
Proof. reflexivity. Qed.

Lemma append_nil_l (t : string) : "" +:+ t = t.
Proof. reflexivity. Qed.

Lemma append_length (s t : string) :
  String.length (s +:+ t) = (String.length s + String.length t)%nat.
Proof. induction s as [|c s IH]; [done|]. rewrite append_cons. simpl. by rewrite IH. Qed.

Lemma append_inj_r (s1 s2 t : string) : s1 +:+ t = s2 +:+ t → s1 = s2.
Proof.
  intros H.
  assert (String.length s1 = String.length s2) as Hlen.
  { apply (f_equal String.length) in H. rewrite !append_length in H. lia. }
  revert s2 H Hlen. induction s1 as [|c s1 IH]; intros [|c2 s2] H Hlen; simpl in Hlen;
    [done|done|done|].
  rewrite !append_cons in H. injection H as -> H. f_equal. apply IH; [done|lia].
Qed.

Lemma append_endl_ne_nil (s : string) : s +:+ endl ≠ "".
Proof. by destruct s. Qed.

(** X12: the text of a line tells which line it is: two lines with the
    same text are the same line, so that the count of an [allocate] or
    [deallocate] line, the total, the first element and the message of an
    error can be read back from the output, and no line of one kind reads
    as a line of another. *)
Theorem render_inj (l l' : Line) : render l = render l' → l = l'.
Proof.
  destruct l, l'; unfold render; intros H;
    repeat (rewrite ?append_cons, ?append_nil_l in H; simplify_eq);
    try done;
    try (by apply append_inj_r in H; apply (inj pretty) in H; subst);
    try (by apply append_inj_r in H; subst);
    try (by apply append_endl_ne_nil in H);
    try (by symmetry in H; apply append_endl_ne_nil in H).
Qed.

Lemma render_inj_witness : LineAllocate 16 = LineAllocate 16.
Proof. apply (render_inj (LineAllocate 16) (LineAllocate 16)). reflexivity. Defined.

(** ** With memory enough, [add] does not throw *)

Lemma landed_sublist_script (th : Thread) : landed th `sublist_of` supplied (script th).
Proof.
  unfold landed, script. rewrite !supplied_app. apply sublist_app.
  - apply added_by_sublist_supplied.
  - apply sublist_inserts_r. unfold landing, current.
    destruct (phase th) as [|op|[v|i|] [a|e]]; try apply sublist_nil_l. done.
Qed.

Lemma concat_sublist_length {A B} (f g : A → list B) (l : list A) :
  (∀ x, f x `sublist_of` g x) →
  (length (concat (f <$> l)) ≤ length (concat (g <$> l)))%nat.
Proof.
  intros Hfg. induction l as [|x l IH]; [done|].
  rewrite !fmap_cons. cbn [concat]. rewrite !length_app.
  pose proof (sublist_length _ _ (Hfg x)). lia.
Qed.

Lemma size_bound (progs : list (list Op)) (m : Machine) :
  content_inv m → script <$> threads m = progs →
  (length (elems (data (obj m))) ≤ length (concat (supplied <$> progs)))%nat.
Proof.
  unfold content_inv. intros Hc <-. rewrite Hc, <- list_fmap_compose.
  apply concat_sublist_length. intros th. apply landed_sublist_script.
Qed.

(** A step appends to what the thread that takes it has been answered:
    nothing, or the outcome of the body that it runs. *)
Lemma step_answered (P : Platform) catches t m m' :
  Step P catches t m m' →
  ∃ th th' extra,
    threads m !! t = Some th
    ∧ threads m' = <[t := th']> (threads m)
    ∧ answered th' = answered th ++ extra
    ∧ (extra = []
       ∨ ∃ op r, extra = [(op, r)]
                 ∧ ThreadSafeVector.body P op (obj m) (world m) = (r, obj m', world m')).
Proof.
  intros [th op rest Hab Hth Hph Hprog Hm | th op r s w Hab Hth Hph Hb | th op r Hab Hth Hph Hm].
  - exists th, {| prog := rest; phase := Inside op; done := done th |}, []. simpl.
    split; [done|]. split; [done|]. split; [|by left].
    unfold answered, leaving. simpl. by rewrite Hph, !app_nil_r.
  - exists th, {| prog := prog th; phase := Leaving op r; done := done th |}, [(op, r)]. simpl.
    split; [done|]. split; [done|]. split; [|right; by exists op, r].
    unfold answered, leaving. simpl. by rewrite Hph, app_nil_r.
  - exists th, {| prog := prog th; phase := Outside; done := done th ++ [(op, r)] |}, []. simpl.
    split; [done|]. split; [done|]. split; [|by left].
    unfold answered, leaving. simpl. by rewrite Hph, !app_nil_r.
Qed.

Section enough.
Context (P : Platform) (catches : bool).
Hypothesis heap_grants : ∀ k bytes, operator_new_ok P k bytes = true.

Lemma body_Throw_is_get op s w e s' w' :
  Vector.size (data s) < vec_max_size P →
  ThreadSafeVector.body P op s w = (Throw e, s', w') →
  ∃ index msg, op = Get index ∧ e = DataException msg.
Proof.
  intros Hroom. destruct op as [v|i|]; simpl.
  - unfold ThreadSafeVector.add_body, Vector.push_back.
    destruct (_ <? _); [done|].
    destruct (N.leb_spec (vec_max_size P) (Vector.size (data s))); [lia|].
    unfold LoggingAllocator.allocate, operator_new. by rewrite heap_grants.
  - unfold ThreadSafeVector.get_body, raise, operator_new. rewrite heap_grants.
    destruct (_ <=? _); intros [=]; subst; by eexists _, _.
  - done.
Qed.

Lemma run_throws_are_gets progs sched m :
  N.of_nat (length (concat (supplied <$> progs))) < vec_max_size P →
  run P catches sched (boot progs) = Some m →
  ∀ t th op e, threads m !! t = Some th → (op, Throw e) ∈ answered th →
               ∃ index msg, op = Get index ∧ e = DataException msg.
Proof.
  intros Hroom Hrun.
  assert (content_inv m ∧ script <$> threads m = progs
          ∧ ∀ t th op e, threads m !! t = Some th → (op, Throw e) ∈ answered th →
                         ∃ index msg, op = Get index ∧ e = DataException msg) as (_ & _ & H);
    [|done].
  revert Hrun. apply (run_invariant P catches
    (λ m, content_inv m ∧ script <$> threads m = progs
          ∧ ∀ t th op e, threads m !! t = Some th → (op, Throw e) ∈ answered th →
                         ∃ index msg, op = Get index ∧ e = DataException msg)).
  - intros t m1 m2 (Hc & Hs & Hinv) Hstep.
    split; [by eapply content_inv_step|]. split; [by rewrite (script_step P catches t m1 m2)|].
    pose proof (size_bound progs m1 Hc Hs) as Hsize.
    destruct (step_answered _ _ _ _ _ Hstep) as (th & th' & extra & Hth & Hths & Hans & Hextra).
    intros t0 th0 op e Hth0 Hin. rewrite Hths in Hth0.
    apply list_lookup_insert_Some in Hth0 as [(<- & <- & _)|[Hne Hth0]]; [|by eapply Hinv].
    rewrite Hans in Hin. apply elem_of_app in Hin as [Hin|Hin]; [by eapply Hinv|].
    destruct Hextra as [->|(op1 & r1 & -> & Hb)]; [by apply elem_of_nil in Hin|].
    apply list_elem_of_singleton in Hin. simplify_eq.
    eapply body_Throw_is_get; [|done]. unfold Vector.size. lia.
  - split; [|split].
    + by apply (run_content_inv P catches progs []).
    + by apply (run_script P catches progs []).
    + intros t th op e Hth. simpl in Hth. apply list_lookup_fmap_Some in Hth as (p & -> & _).
      unfold answered. simpl. by intros ?%elem_of_nil.
Qed.

End enough.

(** X13: when [::operator new] never refuses and the vector's maximal
    size exceeds the number of values that the programs supply, no [add]
    and no [size] ever throws: the only exception that a thread meets is
    the [DataException] of a [get]. *)
Theorem only_get_throws (P : Platform) (catches : bool) (progs : list (list Op))
    (sched : list nat) (m : Machine) (t : nat) (th : Thread) (op : Op) (e : exception) :
  (∀ k bytes, operator_new_ok P k bytes = true) →
  N.of_nat (length (concat (supplied <$> progs))) < vec_max_size P →
  run P catches sched (boot progs) = Some m →
  threads m !! t = Some th →
  (op, Throw e) ∈ answered th →
  ∃ index msg, op = Get index ∧ e = DataException msg.
Proof. intros Hheap Hroom Hrun. by eapply run_throws_are_gets. Qed.

Lemma only_get_throws_witness :
  ∃ index msg, Get 1 = Get index ∧ DataException "Индекс за пределами вектора" = DataException msg.
Proof.
  refine (only_get_throws libstdcxx true [[Add 1; Get 1]] (replicate 6 0%nat) _ 0
            {| prog := []; phase := Outside;
               done := [(Add 1%Z, Ok RetVoid);
                        (Get 1, Throw (DataException "Индекс за пределами вектора"))] |}
            (Get 1) (DataException "Индекс за пределами вектора") _ _ _ _ _).
  - intros k bytes. reflexivity.
  - vm_compute. reflexivity.
  - vm_compute. reflexivity.
  - reflexivity.
  - unfold answered. simpl. rewrite !elem_of_cons. auto.
Defined.

(** ** What a thread was told stays true *)

Lemma still_true_prefix (els els' : list Z) (c : Op * result Ret) :
  els `prefix_of` els' → still_true els c → still_true els' c.
Proof.
  intros Hpre. destruct c as [[v|i|] [ret|e]]; simpl; try done.
  - intros Hin. destruct Hpre as [k ->]. apply elem_of_app. by left.
  - destruct ret; try done. intros Hx. by eapply prefix_lookup_Some.
  - destruct ret; try done. pose proof (prefix_length _ _ Hpre). lia.
Qed.

Lemma body_still_true (P : Platform) op s w r s' w' :
  ThreadSafeVector.body P op s w = (r, s', w') → still_true (elems (data s')) (op, r).
Proof.
  intros Hb. pose proof (body_elems P _ _ _ _ _ _ Hb) as He.
  destruct op as [v|i|]; simpl in *.
  - destruct r as [ret|e]; [|done]. rewrite He, elem_of_app, list_elem_of_singleton. auto.
  - unfold ThreadSafeVector.get_body, Vector.size, Vector.at_index in Hb.
    destruct (N.leb_spec (N.of_nat (length (elems (data s)))) i) as [|Hlt];
      [destruct (raise _ _ _); by simplify_eq/=|].
    assert (is_Some (elems (data s) !! N.to_nat i)) as [x Hx]
      by (apply lookup_lt_is_Some; lia).
    rewrite Hx in Hb. by simplify_eq/=.
  - by simplify_eq/=.
Qed.

(** X15: what the container has told a thread is never taken back: in
    every state that the threads can reach, every size that a thread was
    given is at most the present size, every element that a [get]
    returned is still at its index, and every value whose [add] returned
    is among the elements. *)
Theorem answers_stay_true (P : Platform) (catches : bool) (progs : list (list Op))
    (sched : list nat) (m : Machine) (t : nat) (th : Thread) (c : Op * result Ret) :
  run P catches sched (boot progs) = Some m →
  threads m !! t = Some th →
  c ∈ answered th →
  still_true (elems (data (obj m))) c.
Proof.
  intros Hrun. revert t th c. revert Hrun.
  apply (run_invariant P catches
    (λ m, ∀ t th c, threads m !! t = Some th → c ∈ answered th →
                    still_true (elems (data (obj m))) c)).
  - intros t m1 m2 Hinv Hstep t0 th0 c Hth0 Hin.
    pose proof (step_elems_prefix P catches _ _ _ Hstep) as Hpre.
    destruct (step_answered _ _ _ _ _ Hstep) as (th & th' & extra & Hth & Hths & Hans & Hextra).
    rewrite Hths in Hth0.
    apply list_lookup_insert_Some in Hth0 as [(<- & <- & _)|[Hne Hth0]];
      [|apply (still_true_prefix _ _ _ Hpre); exact (Hinv _ _ _ Hth0 Hin)].
    rewrite Hans in Hin. apply elem_of_app in Hin as [Hin|Hin];
      [apply (still_true_prefix _ _ _ Hpre); exact (Hinv _ _ _ Hth Hin)|].
    destruct Hextra as [->|(op1 & r1 & -> & Hb)]; [by apply elem_of_nil in Hin|].
    apply list_elem_of_singleton in Hin as ->. by eapply body_still_true.
  - intros t th c Hth. simpl in Hth. apply list_lookup_fmap_Some in Hth as (p & -> & _).
    unfold answered. simpl. by intros ?%elem_of_nil.
Qed.

Lemma answers_stay_true_witness :
  ∃ m, run libstdcxx true [0; 0; 0; 1; 1; 1; 0; 0; 0; 1; 1; 1]%nat
         (boot [[Add 7; Size]; [Add 8; Add 9]]) = Some m
       ∧ elems (data (obj m)) = [7; 8; 9]%Z
       ∧ still_true (elems (data (obj m))) (Size, Ok (RetSize 2)).
Proof.
  eexists. split; [vm_compute; reflexivity|]. split; [reflexivity|].
  refine (answers_stay_true libstdcxx true [[Add 7; Size]; [Add 8; Add 9]]%Z
            [0; 0; 0; 1; 1; 1; 0; 0; 0; 1; 1; 1]%nat _ 0
            {| prog := []; phase := Outside;
               done := [(Add 7%Z, Ok RetVoid); (Size, Ok (RetSize 2))] |}
            (Size, Ok (RetSize 2)) _ _ _).
  - vm_compute; reflexivity.
  - reflexivity.
  - unfold answered. simpl. rewrite !elem_of_cons. auto.
Defined.

(** ** The block is large enough *)

Lemma push_back_capacity (P : Platform) x v w :
  (∀ n, n < vec_max_size P → n < vec_check_len P n) →
  Vector.size v ≤ Vector.capacity v →
  Vector.size (Vector.push_back P x v w).1.2 ≤ Vector.capacity (Vector.push_back P x v w).1.2
  ∧ Vector.capacity v ≤ Vector.capacity (Vector.push_back P x v w).1.2.
Proof.
  intros Hgrow Hcap. unfold Vector.push_back.
  destruct (N.ltb_spec (Vector.size v) (Vector.capacity v)).
  - unfold Vector.size, Vector.capacity in *. simpl. rewrite length_app. simpl. lia.
  - destruct (N.leb_spec (vec_max_size P) (Vector.size v));
      [destruct (raise _ _ _); simpl; lia|].
    pose proof (Hgrow _ H0).
    destruct (LoggingAllocator.allocate _ _ _) as [[p|e] w1]; simpl; [|lia].
    unfold Vector.size, Vector.capacity in *. simpl. rewrite length_app. simpl. lia.
Qed.

(** X16: when the growth policy, asked below the maximal size, answers
    with more than the size, the block that the vector holds always has
    room for its elements: in every state that the threads can reach the
    size is at most the capacity, and a run never lowers the capacity. *)
Theorem capacity_covers_size (P : Platform) (catches : bool) (progs : list (list Op))
    (sched sched' : list nat) (m m' : Machine) :
  (∀ n, n < vec_max_size P → n < vec_check_len P n) →
  run P catches sched (boot progs) = Some m →
  run P catches sched' m = Some m' →
  Vector.size (data (obj m)) ≤ Vector.capacity (data (obj m))
  ∧ Vector.capacity (data (obj m)) ≤ Vector.capacity (data (obj m')).
Proof.
  intros Hgrow Hrun Hrun'.
  assert (∀ t m1 m2, Step P catches t m1 m2 →
            Vector.size (data (obj m1)) ≤ Vector.capacity (data (obj m1)) →
            Vector.size (data (obj m2)) ≤ Vector.capacity (data (obj m2))
            ∧ Vector.capacity (data (obj m1)) ≤ Vector.capacity (data (obj m2))) as Hstep.
  { intros t m1 m2 [th op rest Hab Hth Hph Hprog Hm | th op r s w Hab Hth Hph Hb | th op r Hab Hth Hph Hm]
      Hcap; simpl; [done| |done].
    destruct op as [v|i|]; simpl in Hb.
    - unfold ThreadSafeVector.add_body in Hb.
      pose proof (push_back_capacity P v (data (obj m1)) (world m1) Hgrow Hcap) as Hpb.
      destruct (Vector.push_back _ _ _ _) as [[[[]|e] d] w1]; by simplify_eq/=.
    - unfold ThreadSafeVector.get_body in Hb.
      destruct (_ <=? _); [destruct (raise _ _ _)|]; by simplify_eq/=.
    - by simplify_eq/=. }
  assert (∀ sched0 m0, run P catches sched0 (boot progs) = Some m0 →
            Vector.size (data (obj m0)) ≤ Vector.capacity (data (obj m0))) as Hall.
  { intros sched0 m0. apply (run_invariant P catches
      (λ m, Vector.size (data (obj m)) ≤ Vector.capacity (data (obj m)))); [|done].
    intros t m1 m2 Hcap Hs. by destruct (Hstep t m1 m2 Hs Hcap). }
  split; [by eapply Hall|].
  assert (Vector.size (data (obj m)) ≤ Vector.capacity (data (obj m))
          → Vector.size (data (obj m')) ≤ Vector.capacity (data (obj m'))
            ∧ Vector.capacity (data (obj m)) ≤ Vector.capacity (data (obj m'))) as H;
    [|by apply H, (Hall sched)].
  revert Hrun'. clear Hrun. revert m m'.
  induction sched' as [|t sched' IH]; intros m m'; simpl.
  - intros [= <-]. done.
  - destruct (step P catches t m) as [m1|] eqn:Hs; [|done]. simpl. intros Hrun' Hcap.
    apply step_Step in Hs. destruct (Hstep t m m1 Hs Hcap) as [Hcap1 Hle].
    destruct (IH m1 m' Hrun' Hcap1) as [Hcap' Hle']. split; [done|]. by etrans.
Qed.

Lemma capacity_covers_size_witness :
  ∃ m m', run libstdcxx true (replicate 9 0%nat) (boot [[Add 1; Add 2; Add 3; Add 4; Add 5]]) = Some m
          ∧ run libstdcxx true (replicate 6 0%nat) m = Some m'
          ∧ (Vector.size (data (obj m)), Vector.capacity (data (obj m))) = (3, 4)
          ∧ (Vector.size (data (obj m')), Vector.capacity (data (obj m'))) = (5, 8)
          ∧ Vector.size (data (obj m)) ≤ Vector.capacity (data (obj m))
          ∧ Vector.capacity (data (obj m)) ≤ Vector.capacity (data (obj m')).
Proof.
  eexists. eexists. split; [vm_compute; reflexivity|]. split; [vm_compute; reflexivity|].
  split; [reflexivity|]. split; [reflexivity|].
  refine (capacity_covers_size libstdcxx true [[Add 1; Add 2; Add 3; Add 4; Add 5]]%Z
            (replicate 9 0%nat) (replicate 6 0%nat) _ _ _ _ _).
  - intros n Hn. cbn [vec_check_len vec_max_size libstdcxx] in *.
    change ((2 ^ 63 - 1) `div` 4) with 2305843009213693951 in *. lia.
  - vm_compute; reflexivity.
  - vm_compute; reflexivity.
Defined.

(** * The driver *)

(** ** What a step of a thread keeps *)

Lemma existsb_insert_same {A} (f : A → bool) (l : list A) (t : nat) (x x' : A) :
  l !! t = Some x → f x' = f x → existsb f (<[t := x']> l) = existsb f l.
Proof.
  revert t. induction l as [|y l IH]; intros [|t] Hl Hf; simplify_eq/=.
  - by rewrite Hf.
  - by rewrite (IH t).
Qed.

Lemma existsb_insert_keep {A} (f : A → bool) (l : list A) (t : nat) (x x' : A) :
  l !! t = Some x →
  existsb f l = true ∨ f x' = true →
  (f x = true → f x' = true) →
  existsb f (<[t := x']> l) = true.
Proof.
  revert t. induction l as [|y l IH]; intros [|t] Hl Hor Hmono; simplify_eq/=.
  - destruct Hor as [[Hx|Hl]%orb_true_iff|Hx'].
    + by rewrite Hmono.
    + by rewrite Hl, orb_true_r.
    + by rewrite Hx'.
  - destruct (f y) eqn:Hy; [done|]. simpl in *. by apply IH.
Qed.

Lemma concat_nil_lookup {A} (ls : list (list A)) (i : nat) (l : list A) :
  concat ls = [] → ls !! i = Some l → l = [].
Proof.
  revert i. induction ls as [|k ls IH]; intros [|i] Hc Hl; simplify_eq/=;
    apply app_eq_nil in Hc as [? ?]; [done|by eapply IH].
Qed.

Section steps.
Context (P : Platform) (catches : bool).

Lemma step_not_finished t m m' :
  Step P catches t m m' → ∃ th, threads m !! t = Some th ∧ finished th = false.
Proof.
  intros [th op rest Hab Hth Hph Hprog Hm | th op r s w Hab Hth Hph Hb | th op r Hab Hth Hph Hm];
    exists th; (split; [done|]); unfold finished; rewrite Hph; [by rewrite Hprog|done..].
Qed.

Lemma step_threads_length t m m' :
  Step P catches t m m' → length (threads m') = length (threads m).
Proof.
  intros [th op rest Hab Hth Hph Hprog Hm | th op r s w Hab Hth Hph Hb | th op r Hab Hth Hph Hm];
    simpl; by rewrite length_insert.
Qed.

Lemma step_finished_kept t m m' t0 th0 :
  Step P catches t m m' → threads m !! t0 = Some th0 → finished th0 = true →
  threads m' !! t0 = Some th0.
Proof.
  intros Hs Hth0 Hfin. destruct (step_not_finished _ _ _ Hs) as (th & Hth & Hnf).
  assert (t ≠ t0) as Hne by (intros ->; congruence).
  destruct Hs; simpl; by rewrite list_lookup_insert_ne.
Qed.

Lemma step_cerr t m m' : Step P catches t m m' → cerr (world m') = cerr (world m).
Proof.
  intros [th op rest Hab Hth Hph Hprog Hm | th op r s w Hab Hth Hph Hb | th op r Hab Hth Hph Hm];
    simpl; [done| |by rewrite handled_if_cerr].
  pose proof (body_cerr P op (obj m) (world m)) as H. by rewrite Hb in H.
Qed.

Lemma step_aborted_before t m m' : Step P catches t m m' → aborted m = false.
Proof. by intros []. Qed.

Lemma step_threw t m m' :
  Step P catches t m m' → catches = false → aborted m' = false →
  existsb threw (threads m') = existsb threw (threads m).
Proof.
  intros [th op rest Hab Hth Hph Hprog Hm | th op r s w Hab Hth Hph Hb | th op r Hab Hth Hph Hm]
    -> Hab'; simpl in *; apply (existsb_insert_same threw _ _ th); try done.
  unfold threw. simpl. rewrite existsb_app. simpl.
  destruct r; [by rewrite !orb_false_r|done].
Qed.

(** A step appends to the elements what it appends to the values landed
    by the thread that takes it. *)
Lemma step_landed t m m' :
  Step P catches t m m' →
  ∃ th th' extra,
    threads m !! t = Some th
    ∧ threads m' = <[t := th']> (threads m)
    ∧ landed th' = landed th ++ extra
    ∧ elems (data (obj m')) = elems (data (obj m)) ++ extra.
Proof.
  intros [th op rest Hab Hth Hph Hprog Hm | th op r s w Hab Hth Hph Hb | th op r Hab Hth Hph Hm].
  - eexists th, _, []. simpl. split_and!; [done|done| |by rewrite app_nil_r].
    rewrite app_nil_r. unfold landed, landing. simpl. by rewrite Hph.
  - eexists th, _, (match op, r with Add v, Ok _ => [v] | _, _ => [] end). simpl.
    split_and!; [done|done| |by eapply body_elems].
    unfold landed, landing. simpl. rewrite Hph, app_nil_r.
    by destruct op as [v|i|], r as [a|e].
  - eexists th, _, []. simpl. split_and!; [done|done| |by rewrite app_nil_r].
    rewrite app_nil_r. unfold landed, landing. simpl. rewrite Hph, app_nil_r.
    unfold added_by at 1. simpl. rewrite added_by_snoc.
    by destruct op as [v|i|], r as [a|e].
Qed.

(** The first element is the first value landed by some thread. *)
Lemma step_first_landed t m m' :
  content_inv m →
  (∀ x, head (elems (data (obj m))) = Some x →
        ∃ t th, threads m !! t = Some th ∧ head (landed th) = Some x) →
  Step P catches t m m' →
  ∀ x, head (elems (data (obj m'))) = Some x →
       ∃ t th, threads m' !! t = Some th ∧ head (landed th) = Some x.
Proof.
  intros Hc Hfirst Hstep.
  destruct (step_landed _ _ _ Hstep) as (th & th' & extra & Hth & -> & Hl & ->).
  pose proof (lookup_lt_Some _ _ _ Hth) as Hlt.
  intros x Hx. destruct (elems (data (obj m))) as [|y l] eqn:He.
  - exists t, th'. split; [by rewrite list_lookup_insert_eq|].
    unfold content_inv in Hc. rewrite He in Hc.
    apply Permutation_nil in Hc.
    assert (landed th = []) as Hnil.
    { eapply (concat_nil_lookup _ t); [exact Hc|]. by rewrite list_lookup_fmap, Hth. }
    by rewrite Hl, Hnil.
  - simpl in Hx. destruct (Hfirst y eq_refl) as (t0 & th0 & Hth0 & Hh0). simplify_eq.
    destruct (decide (t = t0)) as [<-|Hne].
    + exists t, th'. split; [by rewrite list_lookup_insert_eq|]. simplify_eq.
      rewrite Hl. by destruct (landed th).
    + exists t0, th0. split; [by rewrite list_lookup_insert_ne|done].
Qed.

(** A vector with elements holds a block. *)
Lemma step_storage t m m' :
  (storage (data (obj m)) = None → elems (data (obj m)) = []) →
  Step P catches t m m' →
  storage (data (obj m')) = None → elems (data (obj m')) = [].
Proof.
  intros Hinv [th op rest Hab Hth Hph Hprog Hm | th op r s w Hab Hth Hph Hb | th op r Hab Hth Hph Hm];
    simpl; [done| |done].
  destruct op as [v|i|]; simpl in Hb.
  - unfold ThreadSafeVector.add_body, Vector.push_back, Vector.size, Vector.capacity in Hb.
    destruct (storage (data (obj m))) as [[q c]|] eqn:Hst.
    + destruct (_ <? _); [simplify_eq/=; intros; congruence|].
      destruct (_ <=? _); [destruct (raise _ _ _); simplify_eq/=; intros; congruence|].
      destruct (LoggingAllocator.allocate _ _ _) as [[p|e] w1]; simplify_eq/=; intros; congruence.
    + rewrite (Hinv eq_refl) in Hb. simpl in Hb.
      destruct (_ <=? _); [destruct (raise _ _ _); simplify_eq/=; intros; by apply Hinv|].
      destruct (LoggingAllocator.allocate _ _ _) as [[p|e] w1]; simplify_eq/=; [done|].
      intros _. by apply Hinv.
  - unfold ThreadSafeVector.get_body in Hb.
    destruct (_ <=? _); [destruct (raise _ _ _)|]; by simplify_eq/=.
  - by simplify_eq/=.
Qed.

Lemma body_granted_mono op s w :
  all_granted P (ThreadSafeVector.body P op s w).2 = true → all_granted P w = true.
Proof.
  destruct op as [v|i|]; simpl.
  - unfold ThreadSafeVector.add_body.
    pose proof (push_back_granted P v (data s) w) as H.
    by destruct (Vector.push_back _ _ _ _) as [[[[]|e] d] w1].
  - unfold ThreadSafeVector.get_body. destruct (_ <=? _); [|done].
    pose proof (all_granted_raise P (DataException "Индекс за пределами вектора") w) as Hg.
    destruct (raise _ _ _) as [e w1]. simpl in *. rewrite Hg. by intros [H _]%andb_true_iff.
  - done.
Qed.

Lemma step_granted_mono t m m' :
  Step P catches t m m' → all_granted P (world m') = true → all_granted P (world m) = true.
Proof.
  intros [th op rest Hab Hth Hph Hprog Hm | th op r s w Hab Hth Hph Hb | th op r Hab Hth Hph Hm];
    simpl; [done| |by rewrite handled_if_granted].
  pose proof (body_granted_mono op (obj m) (world m)) as H. by rewrite Hb in H.
Qed.

Lemma body_refused op s w :
  all_granted P w = true →
  all_granted P (ThreadSafeVector.body P op s w).2 = false →
  is_Throw (ThreadSafeVector.body P op s w).1.1 = true.
Proof.
  destruct op as [v|i|]; simpl.
  - unfold ThreadSafeVector.add_body, Vector.push_back.
    destruct (_ <? _); [simpl; congruence|].
    destruct (_ <=? _); [by destruct (raise _ _ _)|].
    destruct (LoggingAllocator.allocate _ _ _) as [[p|e] w1] eqn:Ha; simpl; [|done].
    intros Hw. rewrite release_granted.
    pose proof (all_granted_operator_new P
                  (LoggingAllocator.byte_count P (vec_check_len P (Vector.size (data s))))
                  (print_cout (LineAllocate (vec_check_len P (Vector.size (data s)))) w)) as Hg.
    destruct (allocate_Ok P _ _ _ _ Ha) as [_ Hok].
    unfold LoggingAllocator.allocate in Ha. rewrite Ha in Hg. simpl in Hg.
    rewrite Hg. simpl in Hok. rewrite Hok, andb_true_r.
    change (all_granted P (print_cout (LineAllocate (vec_check_len P (Vector.size (data s)))) w))
      with (all_granted P w). congruence.
  - unfold ThreadSafeVector.get_body.
    destruct (_ <=? _); [by destruct (raise _ _ _)|simpl; congruence].
  - congruence.
Qed.

(** A refused request shows as a call that has thrown. *)
Lemma step_refused t m m' :
  (all_granted P (world m) = false → existsb failing (threads m) = true) →
  Step P catches t m m' →
  all_granted P (world m') = false → existsb failing (threads m') = true.
Proof.
  intros Hinv [th op rest Hab Hth Hph Hprog Hm | th op r s w Hab Hth Hph Hb | th op r Hab Hth Hph Hm];
    simpl; intros Hw.
  - apply (existsb_insert_keep failing _ _ th); [done|auto|].
    unfold failing. simpl. by rewrite Hph.
  - apply (existsb_insert_keep failing _ _ th); [done| |].
    + destruct (all_granted P (world m)) eqn:Hw1; [right|by left; apply Hinv].
      pose proof (body_refused op (obj m) (world m) Hw1) as Hr. rewrite Hb in Hr.
      specialize (Hr Hw). unfold failing. simpl. destruct r; [done|]. by rewrite orb_true_r.
    + unfold failing, threw. simpl. rewrite Hph.
      intros [H|H]%orb_true_iff; [by rewrite H|done].
  - rewrite handled_if_granted in Hw.
    apply (existsb_insert_keep failing _ _ th); [done|auto|].
    unfold failing, threw. simpl. rewrite Hph, existsb_app. simpl.
    by destruct r; rewrite ?orb_false_r, ?orb_true_r.
Qed.

(** An [add] throws for a cause: its request was refused, or the vector
    is at its maximal size. *)
Lemma add_body_Throw_cause v s w e s' w' :
  ThreadSafeVector.body P (Add v) s w = (Throw e, s', w') →
  all_granted P w' = false ∨ vec_max_size P ≤ Vector.size (data s).
Proof.
  simpl. unfold ThreadSafeVector.add_body, Vector.push_back.
  destruct (_ <? _); [done|].
  destruct (N.leb_spec (vec_max_size P) (Vector.size (data s))); [by right|].
  destruct (LoggingAllocator.allocate _ _ _) as [[p|e1] w1] eqn:Ha; [done|].
  intros [= <- <- <-]. left.
  destruct (allocate_Throw P _ _ _ _ Ha) as [_ Hno].
  pose proof (all_granted_operator_new P
                (LoggingAllocator.byte_count P (vec_check_len P (Vector.size (data s))))
                (print_cout (LineAllocate (vec_check_len P (Vector.size (data s)))) w)) as Hg.
  unfold LoggingAllocator.allocate in Ha. rewrite Ha in Hg. simpl in Hg, Hno.
  by rewrite Hg, Hno, andb_false_r.
Qed.

(** In a run of threads that only add, a call that has thrown has a
    cause. *)
Lemma step_cause t m m' (bound : N) :
  (∀ th op, threads m !! t = Some th → op ∈ script th → ∃ v, op = Add v) →
  Vector.size (data (obj m)) ≤ bound →
  (existsb failing (threads m) = true →
     all_granted P (world m) = false ∨ vec_max_size P ≤ bound) →
  Step P catches t m m' →
  existsb failing (threads m') = true →
  all_granted P (world m') = false ∨ vec_max_size P ≤ bound.
Proof.
  intros Hadds Hsize Hinv Hstep Hfail.
  destruct (existsb failing (threads m)) eqn:Hold.
  { destruct (Hinv eq_refl) as [Hg|?]; [left|by right].
    destruct (all_granted P (world m')) eqn:Hg'; [|done].
    by rewrite (step_granted_mono _ _ _ Hstep Hg') in Hg. }
  destruct Hstep as [th op rest Hab Hth Hph Hprog Hm | th op r s w Hab Hth Hph Hb | th op r Hab Hth Hph Hm];
    simpl in *; rewrite (existsb_insert_fresh failing _ _ th) in Hfail by done;
    pose proof (existsb_lookup_false failing _ _ _ Hold Hth) as Hth_ok;
    unfold failing, threw in Hfail, Hth_ok; simpl in Hfail; rewrite Hph in Hth_ok;
    apply orb_false_iff in Hth_ok as [Hthrew Hphase].
  - by rewrite Hthrew in Hfail.
  - rewrite Hthrew in Hfail. simpl in Hfail. destruct r as [a|e]; [done|].
    destruct (Hadds th op Hth) as [v ->].
    { unfold script, current. rewrite Hph. rewrite !elem_of_app, list_elem_of_singleton. auto. }
    destruct (add_body_Throw_cause _ _ _ _ _ _ Hb) as [?|Hmax]; [by left|right]. lia.
  - rewrite existsb_app, Hthrew in Hfail. simpl in Hfail.
    destruct r; simpl in *; done.
Qed.

End steps.

(** ** The steps of [main] *)

Lemma operator_delete_granted (P : Platform) p w :
  all_granted P (operator_delete p w) = all_granted P w.
Proof. done. Qed.

Lemma throw_thread_error_spec (P : Platform) w :
  cout (throw_thread_error P w).2 = cout w
  ∧ cerr (throw_thread_error P w).2 = cerr w
  ∧ (∃ extra, new_requests (throw_thread_error P w).2 = new_requests w ++ extra)
  ∧ ∀ msg, (throw_thread_error P w).1 ≠ DataException msg.
Proof.
  unfold throw_thread_error, raise, operator_new. simpl.
  destruct (_ <? _)%nat; repeat (destruct (operator_new_ok _ _ _); simpl);
    (split_and!; [done|done| |done]); rewrite <- ?(assoc_L (++)); by eexists.
Qed.

Lemma make_MainStep (P : Platform) (d : Driver) (i : nat) :
  pc d = Emplace i ∨ pc d = Make i → MainStep P d (make P i d).
Proof.
  intros Hpc. unfold make, operator_new.
  destruct (operator_new_ok P _ _) eqn:Hok.
  - eapply (MS_alloc P d i _ _ _ (Start i _)); simpl;
      [done|right; by eexists|destruct Hpc as [-> | ->]; simpl; lia|done|done|by eexists|].
    unfold all_granted. simpl. rewrite imap_app, forallb_app. simpl.
    by rewrite Nat.add_0_r, Hok, !andb_true_r.
  - eapply (MS_fail P d i bad_alloc); simpl; [tauto|done|done|by eexists|done|left].
    unfold all_granted. simpl. rewrite imap_app, forallb_app. simpl.
    by rewrite Nat.add_0_r, Hok, andb_false_r.
Qed.

Lemma main_step_MainStep (P : Platform) (d d' : Driver) :
  main_step P d = Some d' → MainStep P d d'.
Proof.
  unfold main_step. destruct (pc d) as [i|i|i st|i|i| |o] eqn:Hpc.
  - destruct (_ <? _).
    { intros [= <-]. apply make_MainStep. by left. }
    unfold operator_new. destruct (operator_new_ok P _ _) eqn:Hok; intros [= <-].
    + eapply (MS_alloc P d i _ _ _ (Make i)); simpl;
        [by left|by left|rewrite Hpc; simpl; lia|done|done|by eexists|].
      unfold all_granted. simpl. rewrite imap_app, forallb_app. simpl.
      by rewrite Nat.add_0_r, Hok, !andb_true_r.
    + eapply (MS_fail P d i bad_alloc); simpl; [tauto|done|done|by eexists|done|left].
      unfold all_granted. simpl. rewrite imap_app, forallb_app. simpl.
      by rewrite Nat.add_0_r, Hok, andb_false_r.
  - intros [= <-]. apply make_MainStep. by right.
  - destruct (thread_start_ok P i) eqn:Hok.
    + intros [= <-]. destruct (fresh d) as [f|], (handles d) as [h|];
        eapply (MS_spawn P d i st); eauto.
    + destruct (throw_thread_error_spec P (world (mach d))) as (Hc & He & Hr & Hne).
      destruct (throw_thread_error P (world (mach d))) as [e w1]. intros [= <-].
      eapply (MS_fail P d i e); simpl in *; [right; right; by eexists|done..|by right].
  - intros [= <-].
    destruct d as [[o w ths ab] h f sts c]; simpl in *.
    destruct h as [[q cq]|].
    + exact (MS_settle P {| mach := {| obj := o; world := w; threads := ths; aborted := ab |};
                            handles := Some (q, cq); fresh := f; states := sts; pc := c |}
               i (operator_delete q w) f None Hpc eq_refl eq_refl eq_refl).
    + exact (MS_settle P {| mach := {| obj := o; world := w; threads := ths; aborted := ab |};
                            handles := None; fresh := f; states := sts; pc := c |}
               i w f None Hpc eq_refl eq_refl eq_refl).
  - destruct (states d !! i) as [[st|]|] eqn:Hst; intros [= <-]. by apply MS_join.
  - intros Hstep.
    destruct (report P (obj (mach d)) (world (mach d))) as [[[r s] w']|] eqn:Hr; [|done].
    eapply MS_report; [done..|]. unfold main_step. by rewrite Hpc, Hr.
  - done.
Qed.

(** ** What the driver keeps *)

Lemma length_workers : length workers = 5%nat.
Proof. reflexivity. Qed.

Lemma workers_only_add (p : list Op) (op : Op) :
  p ∈ workers → op ∈ p → ∃ v, op = Add v.
Proof.
  unfold workers, worker.
  intros (i & -> & _)%list_elem_of_fmap_1 (j & -> & _)%list_elem_of_fmap_1. by eexists.
Qed.

Lemma take_workers_only_add (n : nat) (p : list Op) (op : Op) :
  p ∈ take n workers → op ∈ p → ∃ v, op = Add v.
Proof.
  intros Hp. apply workers_only_add. rewrite <- (take_drop n workers).
  apply elem_of_app. by left.
Qed.

Lemma supplied_take_workers (n : nat) :
  (length (concat (supplied <$> take n workers)) ≤ 15)%nat.
Proof.
  destruct (decide (n < 5)%nat) as [Hn|Hn].
  - destruct n as [|[|[|[|[|n]]]]]; [..|lia]; by apply Nat.leb_le.
  - rewrite take_ge by (rewrite length_workers; lia). by apply Nat.leb_le.
Qed.

Lemma finished_added_scripts (m : Machine) :
  forallb finished (threads m) = true → existsb threw (threads m) = false →
  added m = concat (supplied <$> (script <$> threads m)).
Proof.
  intros Hfin Hno. unfold added. f_equal. rewrite <- list_fmap_compose.
  apply list_fmap_ext. intros t th Hth. simpl.
  rewrite forallb_forall in Hfin. specialize (Hfin th).
  rewrite <- list_elem_of_In in Hfin. specialize (Hfin (list_elem_of_lookup_2 _ _ _ Hth)).
  rewrite finished_script by done. apply added_by_supplied.
  by eapply existsb_lookup_false.
Qed.

Lemma finished_not_failing (ths : list Thread) :
  forallb finished ths = true → existsb failing ths = existsb threw ths.
Proof.
  induction ths as [|th ths IH]; [done|]. simpl. intros [Hth Hths]%andb_true_iff.
  rewrite IH by done. f_equal. unfold failing, finished in *.
  destruct (phase th); [|done..]. by rewrite orb_false_r.
Qed.

Lemma release_cerr v w : cerr (Vector.release v w) = cerr w.
Proof. unfold Vector.release. by destruct (storage v) as [[p c]|]. Qed.

Lemma report_free (P : Platform) (s : ThreadSafeVector) (w : World) :
  mtx s = None →
  report P s w
  = Some match elems (data s) with
         | x :: _ =>
             (Ok (), s, print_cout (LineFirst x) (print_cout (LineTotal (Vector.size (data s))) w))
         | [] =>
             let '(e, w1) := raise P (DataException "Индекс за пределами вектора")
                               (print_cout (LineTotal 0) w) in
             (Throw e, s, print_cout LineFirstLabel w1)
         end.
Proof.
  intros Hfree. unfold report. rewrite size_free by done. simpl.
  rewrite get_free by done. simpl.
  unfold ThreadSafeVector.get_body, Vector.size, Vector.at_index.
  destruct (elems (data s)) as [|x l]; simpl; [|done].
  by destruct (raise _ _ _).
Qed.

Lemma after_emplace_aligned (n : nat) (sts : list (option nat)) i :
  n = S i → (i < 5)%nat →
  match after_emplace i with
  | Emplace j | Make j | Start j _ => n = j ∧ (j < 5)%nat
  | Settle j => n = S j ∧ (j < 5)%nat
  | Join j => n = 5%nat ∧ (j < 5)%nat ∧ ∀ k, (k < j)%nat → sts !! k = Some None
  | Report => n = 5%nat ∧ ∀ k, (k < 5)%nat → sts !! k = Some None
  | Ended _ => True
  end.
Proof.
  intros Hlen Hi. unfold after_emplace. rewrite length_workers.
  destruct (decide _); [done|]. split; [lia|]. split; [lia|]. intros k Hk. lia.
Qed.

Section driver.
Context (P : Platform).

(** [main] asks for a block, or gives one back, or a thread ends. *)
Lemma running_heap d w' h' f' sts' c' :
  running P d →
  cout w' = cout (world (mach d)) → cerr w' = cerr (world (mach d)) →
  (∃ extra, new_requests w' = new_requests (world (mach d)) ++ extra) →
  all_granted P w' = all_granted P (world (mach d)) →
  aligned {| mach := mach d; handles := h'; fresh := f'; states := sts'; pc := c' |} →
  running P {| mach := set_world w' (mach d); handles := h'; fresh := f';
               states := sts'; pc := c' |}.
Proof.
  intros (Hal & Hab & Hmi & Hci & Hthrew & Hcerr & Hnone & Hst & Hfirst & Href & Hcause & [ks Hbooks])
    Hcout Hcerr' [extra Hreq] Hgr Hal'.
  unfold running. simpl. rewrite Hgr, Hcout, Hcerr'.
  split_and!; try done.
  exists ks. eapply books_ext; [..|exact Hbooks]; simpl; by rewrite ?Hcout.
Qed.

Lemma running_spawn d i st h' f' c' :
  running P d → pc d = Start i st → c' = Settle i ∨ c' = after_emplace i →
  running P {| mach := {| obj := obj (mach d); world := world (mach d);
                          threads := threads (mach d) ++ [spawn (default [] (workers !! i))];
                          aborted := aborted (mach d) |};
               handles := h'; fresh := f'; states := states d ++ [Some st]; pc := c' |}.
Proof.
  intros ((Hlen & Hscr & Hdone & Hpc) & Hab & [Hin Hown] & Hci & Hthrew & Hcerr & Hnone & Hst
          & Hfirst & Href & Hcause & Hbooks) Hstart Hc'.
  rewrite Hstart in Hpc. destruct Hpc as [Hn Hi].
  assert (is_Some (workers !! i)) as [p Hp] by (apply lookup_lt_is_Some; by rewrite length_workers).
  rewrite Hp. simpl.
  unfold running. simpl. split_and!; try done.
  - unfold aligned. simpl. rewrite !length_app, fmap_app, Hscr, Hn. simpl.
    split_and!.
    + lia.
    + rewrite Nat.add_1_r. by rewrite (take_S_r _ _ _ Hp).
    + intros t Ht. apply lookup_app_Some in Ht as [Ht|[_ Ht]].
      * destruct (Hdone t Ht) as (th & Hth & Hfin). exists th.
        split; [by apply lookup_app_l_Some|done].
      * by destruct (t - length (states d))%nat as [|[|k]].
    + destruct Hc' as [->| ->]; [split; lia|].
      apply after_emplace_aligned; [lia|done].
  - split.
    + intros t th Ht. apply lookup_app_Some in Ht as [Ht|[Hge Ht]]; [by apply Hin|].
      destruct (t - length (threads (mach d)))%nat as [|k] eqn:Hk; [|by destruct k].
      injection Ht as <-. split; [done|]. intros Hm.
      apply Hown in Hm as [th Hth]. apply lookup_lt_Some in Hth. lia.
    + intros t Hm. apply Hown in Hm as [th Hth]. exists th. by apply lookup_app_l_Some.
  - unfold content_inv in *. simpl. rewrite fmap_app, concat_app. simpl.
    by rewrite !app_nil_r.
  - rewrite existsb_app, Hthrew. done.
  - intros H. by apply app_eq_nil in H as [_ [=]].
  - intros x Hx. destruct (Hfirst x Hx) as (t & th & Hth & Hh).
    exists t, th. split; [by apply lookup_app_l_Some|done].
  - intros Hg. rewrite existsb_app, (Href Hg). done.
  - rewrite existsb_app. simpl. rewrite !orb_false_r. exact Hcause.
Qed.

Lemma running_join d i :
  running P d → pc d = Join i → states d !! i = Some None →
  running P {| mach := mach d; handles := handles d; fresh := fresh d;
               states := states d; pc := after_join i |}.
Proof.
  intros ((Hlen & Hscr & Hdone & Hpc) & Hrest) Hjoin Hst.
  split; [|exact Hrest].
  rewrite Hjoin in Hpc. destruct Hpc as (Hn & Hi & Hjoined).
  unfold aligned. simpl. split_and!; try done.
  unfold after_join. rewrite length_workers. destruct (decide _).
  - split; [done|]. split; [done|]. intros j Hj.
    destruct (decide (j = i)) as [->|]; [done|]. apply Hjoined. lia.
  - split; [done|]. intros j Hj.
    destruct (decide (j = i)) as [->|]; [done|]. apply Hjoined. lia.
Qed.

End driver.

Lemma scope_exit_cerr d w : cerr (scope_exit d w) = cerr w.
Proof.
  unfold scope_exit, ThreadSafeVector.destroy, Vector.destroy. rewrite release_cerr.
  by destruct (handles d) as [[q c]|].
Qed.

Lemma scope_exit_requests d w : new_requests (scope_exit d w) = new_requests w.
Proof.
  unfold scope_exit, ThreadSafeVector.destroy, Vector.destroy, Vector.release.
  by destruct (storage _) as [[p c]|], (handles d) as [[q c']|].
Qed.

Lemma scope_exit_cout d w :
  cout (scope_exit d w) = cout w ++ (LineDeallocate <$> caps (data (obj (mach d)))).
Proof.
  unfold scope_exit, ThreadSafeVector.destroy, Vector.destroy, Vector.release, caps.
  destruct (storage _) as [[p c]|], (handles d) as [[q c']|]; simpl; by rewrite ?app_nil_r.
Qed.

Lemma main_catch_cout e w : cout (main_catch e w) = cout w.
Proof. by destruct e. Qed.

Lemma main_catch_requests e w : new_requests (main_catch e w) = new_requests w.
Proof. by destruct e. Qed.

Lemma main_catch_cerr e w :
  cerr (main_catch e w)
  = cerr w ++ [match e with
               | DataException msg => LineDataError msg
               | _ => LineGeneralError (what e)
               end].
Proof. by destruct e. Qed.

Section driver.
Context (P : Platform).

Lemma fail_final d i e w1 :
  running P d →
  pc d = Emplace i ∨ pc d = Make i ∨ (∃ st, pc d = Start i st) →
  cout w1 = cout (world (mach d)) → cerr w1 = cerr (world (mach d)) →
  (∀ msg, e ≠ DataException msg) →
  all_granted P w1 = false ∨ thread_start_ok P i = false →
  driver_inv P (fail_spawn e d w1).
Proof.
  intros ((Hlen & Hscr & Hdone & Hpc) & Hab & Hmi & Hci & Hthrew & Hcerr & Hnone & Hst
          & Hfirst & Href & Hcause & Hbooks) Hat Hcout Hcerr' Hne Hwhy.
  assert (length (threads (mach d)) = i) as Hn.
  { destruct Hat as [H|[H|[st H]]]; rewrite H in Hpc; by destruct Hpc. }
  unfold fail_spawn.
  set (w2 := match fresh d with Some (q, _) => operator_delete q w1 | None => w1 end).
  assert (cout w2 = cout w1 ∧ cerr w2 = cerr w1 ∧ new_requests w2 = new_requests w1)
    as (Hc2 & He2 & Hr2) by (unfold w2; by destruct (fresh d) as [[q c]|]).
  destruct (states d) as [|o sts] eqn:Hsts; simpl.
  - unfold driver_inv, final. simpl.
    assert (threads (mach d) = []) as Hnil by (apply nil_length_inv; by rewrite <- Hlen).
    destruct (Hnone Hnil) as [Hcout0 Hst0].
    split; [done|right]. split_and!; [done| | |].
    + rewrite main_catch_cout, scope_exit_cout. unfold caps. rewrite Hst0. simpl.
      by rewrite app_nil_r, Hc2, Hcout, Hcout0.
    + destruct Hwhy as [Hg|Hok]; [left|right].
      * unfold all_granted in *. simpl.
        by rewrite main_catch_requests, scope_exit_requests, Hr2.
      * rewrite Hnil in Hn. simpl in Hn. by subst i.
    + exists e. split; [done|]. rewrite main_catch_cerr, scope_exit_cerr, He2, Hcerr', Hcerr.
      simpl. destruct e; try done. by destruct (Hne msg).
  - unfold driver_inv, final. simpl. split_and!.
    + by rewrite He2, Hcerr', Hcerr.
    + intros Hnil. rewrite Hnil in Hlen. done.
    + destruct Hwhy as [Hg|Hok]; [left|right; right; by exists i].
      unfold all_granted in *. by rewrite Hr2.
Qed.

Lemma report_final d d' :
  running P d → pc d = Report → main_step P d = Some d' → driver_inv P d'.
Proof.
  intros ((Hlen & Hscr & Hdone & Hpc) & Hab & Hmi & Hci & Hthrew & Hcerr & Hnone & Hst
          & Hfirst & Href & Hcause & [ks (Hsub & Hall & Hcnt)]) Hat Hstep.
  rewrite Hat in Hpc. destruct Hpc as [Hn Hjoined].
  assert (∀ t th, threads (mach d) !! t = Some th → finished th = true) as Hfin_all.
  { intros t th Hth. pose proof (lookup_lt_Some _ _ _ Hth) as Hlt. rewrite Hn in Hlt.
    destruct (Hdone t (Hjoined t Hlt)) as (th' & Hth' & Hfin). congruence. }
  assert (forallb finished (threads (mach d)) = true) as Hfin.
  { apply forallb_forall. intros th Hth%list_elem_of_In.
    apply list_elem_of_lookup in Hth as [t Hth]. by eapply Hfin_all. }
  pose proof (finished_all_outside _ Hmi Hfin) as Hfree.
  assert (script <$> threads (mach d) = workers) as Hscripts.
  { rewrite Hscr, Hn. reflexivity. }
  assert (length (elems (data (obj (mach d)))) = 15%nat) as Hlen15.
  { unfold content_inv in Hci. rewrite Hci, finished_landed by done.
    fold (added (mach d)). rewrite finished_added_scripts, Hscripts by done.
    reflexivity. }
  assert (all_granted P (world (mach d)) = true) as Hgr.
  { destruct (all_granted P (world (mach d))) eqn:Hg; [done|].
    specialize (Href eq_refl). rewrite finished_not_failing in Href by done. congruence. }
  unfold main_step in Hstep. rewrite Hat, report_free in Hstep by done.
  unfold Vector.size in Hstep. rewrite Hlen15 in Hstep.
  destruct (elems (data (obj (mach d)))) as [|x l] eqn:He; [done|].
  simpl in Hstep. injection Hstep as <-.
  destruct (storage (data (obj (mach d)))) as [[q c]|] eqn:Hsto; [|by specialize (Hst eq_refl)].
  unfold driver_inv, final. simpl. split; [done|left].
  rewrite scope_exit_cerr, scope_exit_cout. unfold caps. simpl. rewrite Hsto. simpl.
  split_and!.
  - done.
  - unfold all_granted in *. by rewrite scope_exit_requests.
  - rewrite (granted_counts_all P ks _ _ Hgr Hall) in Hcnt.
    unfold caps in Hcnt. rewrite Hsto in Hcnt.
    unfold released, acquired in *. rewrite <- !(assoc_L (++)), !omap_app. simpl.
    by rewrite app_nil_r, Hcnt.
  - exists (cout (world (mach d))), x, c. split; [by rewrite <- !(assoc_L (++))|].
    destruct (Hfirst x eq_refl) as (t & th & Hth & Hhead).
    assert (threw th = false) as Hth_no by (by eapply existsb_lookup_false).
    pose proof (Hfin_all _ _ Hth) as Hth_fin.
    assert (landed th = supplied (script th)) as Hl.
    { unfold landed, landing. rewrite finished_script, added_by_supplied by done.
      unfold finished in Hth_fin. destruct (phase th); [|done..]. by rewrite app_nil_r. }
    assert (workers !! t = Some (script th)) as Hw.
    { rewrite <- Hscripts. by rewrite list_lookup_fmap, Hth. }
    rewrite Hl in Hhead.
    destruct t as [|[|[|[|[|t]]]]]; simpl in Hw; simplify_eq; rewrite <- Hw in Hhead;
      vm_compute in Hhead; simplify_eq; rewrite !elem_of_cons; auto 10.
Qed.

Lemma running_main d d' : running P d → main_step P d = Some d' → driver_inv P d'.
Proof.
  intros Hrun Hstep. pose proof Hrun as ((Hlen & Hscr & Hdone & Hpc) & _).
  destruct (main_step_MainStep P d d' Hstep)
    as [i w' h' f' c' Hat Hc' Hlt Hcout Hcerr Hreq Hgr
       | i w' h' f' Hat Hcout Hcerr Hreq
       | i st h' f' c' Hat Hok Hc'
       | i Hat Hst
       | i e w1 Hat Hcout Hcerr Hreq Hne Hwhy
       | r s w' d'' Hat Hrep Hmain].
  - assert (running P {| mach := set_world w' (mach d); handles := h'; fresh := f';
                         states := states d; pc := c' |}) as H.
    { apply running_heap; try done. unfold aligned. simpl. split_and!; try done.
      destruct Hat as [Hat|Hat]; rewrite Hat in Hpc;
        destruct Hc' as [->|[st ->]]; done. }
    unfold driver_inv. simpl. by destruct Hc' as [->|[st ->]].
  - assert (running P {| mach := set_world w' (mach d); handles := h'; fresh := f';
                         states := states d; pc := after_emplace i |}) as H.
    { apply running_heap; try done.
      - exists []. by rewrite app_nil_r.
      - unfold all_granted. by rewrite Hreq.
      - unfold aligned. simpl. split_and!; try done.
        rewrite Hat in Hpc. destruct Hpc as [Hn Hi]. by apply after_emplace_aligned. }
    unfold driver_inv. simpl. unfold after_emplace in *. by destruct (decide _).
  - pose proof (running_spawn P d i st h' f' c' Hrun Hat Hc') as H.
    unfold driver_inv. simpl.
    destruct Hc' as [->| ->]; [done|]. unfold after_emplace in *. by destruct (decide _).
  - pose proof (running_join P d i Hrun Hat Hst) as H.
    unfold driver_inv. simpl. unfold after_join in *. by destruct (decide _).
  - by eapply fail_final.
  - by eapply report_final.
Qed.

Lemma running_worker d t d' : running P d → worker_step P t d = Some d' → driver_inv P d'.
Proof.
  intros Hrun Hstep. pose proof Hrun as ((Hlen & Hscr & Hdone & Hpc) & Hab & Hmi & Hci & Hthrew
    & Hcerr & Hnone & Hst & Hfirst & Href & Hcause & Hbooks).
  unfold worker_step in Hstep.
  assert (∃ th, threads (mach d) !! t = Some th
          ∧ (if finished th
             then match states d !! t with
                  | Some (Some st) =>
                      Some {| mach := set_world (operator_delete st (world (mach d))) (mach d);
                              handles := handles d; fresh := fresh d;
                              states := <[t := None]> (states d); pc := pc d |}
                  | _ => None
                  end
             else m ← step P false t (mach d);
                  Some {| mach := m; handles := handles d; fresh := fresh d; states := states d;
                          pc := if aborted m then Ended Terminated else pc d |}) = Some d'
          ∧ ∀ o, pc d ≠ Ended o) as (th & Hth & Hbody & Hlive).
  { destruct (pc d); try done;
      (destruct (threads (mach d) !! t) as [th|]; [|done]); by exists th. }
  clear Hstep. destruct (finished th) eqn:Hfin.
  - destruct (states d !! t) as [[st|]|] eqn:Hst_t; [|done..]. injection Hbody as <-.
    assert (running P {| mach := set_world (operator_delete st (world (mach d))) (mach d);
                         handles := handles d; fresh := fresh d;
                         states := <[t := None]> (states d); pc := pc d |}) as H.
    { apply running_heap; try done.
      - exists []. by rewrite app_nil_r.
      - pose proof (lookup_lt_Some _ _ _ Hst_t) as Hlt.
        unfold aligned. simpl. rewrite length_insert. split_and!; try done.
        + intros t0 [(<- & _ & _)|[Hne Ht0]]%list_lookup_insert_Some; [by exists th|].
          by apply Hdone.
        + assert (∀ j, states d !! j = Some None → <[t := None]> (states d) !! j = Some None)
            as Hkeep.
          { intros j Hj. destruct (decide (t = j)) as [<-|Hne'].
            - by rewrite list_lookup_insert_eq.
            - by rewrite list_lookup_insert_ne. }
          destruct (pc d); try done.
          * destruct Hpc as (? & ? & Hj). split_and!; [done..|]. intros j Hlt'. auto.
          * destruct Hpc as (? & Hj). split_and!; [done|]. intros j Hlt'. auto. }
    revert H. unfold driver_inv. simpl. destruct (pc d) as [| | | | | |o]; try done.
    by destruct (Hlive o).
  - destruct (step P false t (mach d)) as [m|] eqn:Hs; [|done]. injection Hbody as <-.
    apply step_Step in Hs.
    pose proof (step_threads_length P false _ _ _ Hs) as Hlen_m.
    pose proof (script_step P false _ _ _ Hs) as Hscr_m.
    assert (∀ th0 op, threads (mach d) !! t = Some th0 → op ∈ script th0 → ∃ v, op = Add v)
      as Hadds.
    { intros th0 op Hth0 Hop.
      apply (take_workers_only_add (length (threads (mach d))) (script th0)); [|done].
      rewrite <- Hscr. apply list_elem_of_fmap_2. by eapply list_elem_of_lookup_2. }
    assert (Vector.size (data (obj (mach d))) ≤ 15) as Hsize.
    { pose proof (size_bound _ _ Hci Hscr) as Hb.
      pose proof (supplied_take_workers (length (threads (mach d)))).
      unfold Vector.size. lia. }
    pose proof (step_cause P false t _ _ 15 Hadds Hsize Hcause Hs) as Hcause_m.
    pose proof (step_cerr P false _ _ _ Hs) as Hcerr_m.
    destruct (aborted m) eqn:Hab_m.
    + unfold driver_inv, final. simpl. split_and!.
      * congruence.
      * intros Hnil. rewrite Hnil in Hlen_m. simpl in Hlen_m.
        apply lookup_lt_Some in Hth. lia.
      * assert (existsb failing (threads m) = true) as Hf.
        { destruct Hs as [th1 op rest Hab1 Hth1 Hph Hprog Hm | th1 op r s w Hab1 Hth1 Hph Hb
                         | th1 op r Hab1 Hth1 Hph Hm]; simpl in *; try done.
          apply (existsb_insert_keep failing _ _ th1); [done| |].
          - right. unfold failing, threw. simpl. rewrite existsb_app. simpl.
            destruct r; [done|]. by rewrite !orb_true_r.
          - intros _. unfold failing, threw. simpl. rewrite existsb_app. simpl.
            destruct r; [done|]. by rewrite !orb_true_r. }
        destruct (Hcause_m Hf) as [?|?]; auto.
    + assert (running P {| mach := m; handles := handles d; fresh := fresh d;
                           states := states d; pc := pc d |}) as H.
      { unfold running. simpl. split_and!.
        - unfold aligned. simpl. rewrite Hlen_m, Hscr_m. split_and!; try done.
          intros t0 Ht0. destruct (Hdone t0 Ht0) as (th0 & Hth0 & Hfin0).
          exists th0. split; [|done]. by eapply step_finished_kept.
        - done.
        - by eapply mutex_inv_step.
        - by eapply content_inv_step.
        - by rewrite (step_threw P false _ _ _ Hs).
        - congruence.
        - intros Hnil. rewrite Hnil in Hlen_m. simpl in Hlen_m.
          apply lookup_lt_Some in Hth. lia.
        - by eapply step_storage.
        - by eapply step_first_landed.
        - by eapply step_refused.
        - done.
        - by eapply step_books. }
      revert H. unfold driver_inv. simpl. destruct (pc d) as [| | | | | |o]; try done.
      by destruct (Hlive o).
Qed.

Lemma driver_inv_step a d d' : driver_inv P d → dstep P a d = Some d' → driver_inv P d'.
Proof.
  intros Hinv Hstep.
  assert (running P d) as Hrun.
  { unfold driver_inv in Hinv. destruct (pc d) eqn:Hpc; try done.
    unfold dstep, main_step, worker_step in Hstep. rewrite Hpc in Hstep.
    by destruct (decide _). }
  unfold dstep in Hstep. destruct (decide _).
  - by eapply running_main.
  - by eapply running_worker.
Qed.

Lemma driver0_inv : driver_inv P driver0.
Proof.
  unfold driver_inv, running. simpl. split; [|split_and!; try done].
  - unfold aligned. simpl. split_and!; try done. lia.
  - by unfold content_inv.
  - by exists [].
Qed.

Lemma drive_inv_from sched d d' : driver_inv P d → drive P sched d = Some d' → driver_inv P d'.
Proof.
  revert d. induction sched as [|a sched IH]; intros d Hinv; simpl.
  - by intros [= <-].
  - destruct (dstep P a d) as [d1|] eqn:Hs; [|done]. simpl.
    apply IH. by eapply driver_inv_step.
Qed.

Lemma drive_inv sched d : drive P sched driver0 = Some d → driver_inv P d.
Proof. apply drive_inv_from, driver0_inv. Qed.

End driver.

(** ** The driver comes to an end *)

Lemma workers_lookup_length (i : nat) (p : list Op) :
  workers !! i = Some p → length p = 3%nat.
Proof.
  destruct i as [|[|[|[|[|i]]]]]; simpl; intros [=]; by subst.
Qed.

Lemma drive_app (P : Platform) sched1 sched2 d :
  drive P (sched1 ++ sched2) d = d1 ← drive P sched1 d; drive P sched2 d1.
Proof.
  revert d. induction sched1 as [|a sched1 IH]; intros d; simpl; [done|].
  destruct (dstep P a d) as [d1|]; simpl; [apply IH|done].
Qed.

Section ending.
Context (P : Platform).

Lemma togo_main d d' : running P d → main_step P d = Some d' → (togo d' < togo d)%nat.
Proof.
  intros ((Hlen & Hscr & Hdone & Hpc) & _) Hstep.
  destruct (main_step_MainStep P d d' Hstep)
    as [i w' h' f' c' Hat Hc' Hlt Hcout Hcerr Hreq Hgr
       | i w' h' f' Hat Hcout Hcerr Hreq
       | i st h' f' c' Hat Hok Hc'
       | i Hat Hst
       | i e w1 Hat Hcout Hcerr Hreq Hne Hwhy
       | r s w' d'' Hat Hrep Hmain];
    unfold togo; simpl.
  - unfold remaining. simpl. lia.
  - rewrite Hat in *. destruct Hpc as [Hn Hi]. unfold remaining. simpl.
    unfold after_emplace. rewrite length_workers. destruct (decide _); simpl; lia.
  - rewrite Hat in *. destruct Hpc as [Hn Hi].
    assert (is_Some (workers !! i)) as [p Hp] by (apply lookup_lt_is_Some; by rewrite length_workers).
    rewrite Hp. simpl. unfold remaining. simpl.
    rewrite !fmap_app, !sum_list_with_app, length_app. simpl.
    unfold weight at 2. simpl. rewrite (workers_lookup_length _ _ Hp).
    assert (pc_weight c' < 4 * (5 - i) + 4)%nat.
    { destruct Hc' as [->| ->]; simpl; [lia|].
      unfold after_emplace. rewrite length_workers. destruct (decide _); simpl; lia. }
    lia.
  - rewrite Hat in *. destruct Hpc as (Hn & Hi & _). simpl.
    unfold after_join. rewrite length_workers. destruct (decide _); simpl; lia.
  - unfold fail_spawn, leave_try.
    assert (0 < pc_weight (pc d))%nat.
    { destruct Hat as [H|[H|[st H]]]; rewrite H in *; destruct Hpc; simpl; lia. }
    destruct (match states d with [] => false | _ :: _ => true end); simpl;
      unfold remaining; simpl; lia.
  - unfold main_step in Hmain. rewrite Hat, Hrep in Hmain. simpl in Hmain.
    injection Hmain as <-. rewrite Hat. unfold leave_try.
    destruct r; simpl; unfold remaining; simpl; lia.
Qed.

Lemma togo_worker d t d' : running P d → worker_step P t d = Some d' → (togo d' < togo d)%nat.
Proof.
  intros ((Hlen & Hscr & Hdone & Hpc) & _) Hstep. unfold worker_step in Hstep.
  assert (∃ th, threads (mach d) !! t = Some th
          ∧ (if finished th
             then match states d !! t with
                  | Some (Some st) =>
                      Some {| mach := set_world (operator_delete st (world (mach d))) (mach d);
                              handles := handles d; fresh := fresh d;
                              states := <[t := None]> (states d); pc := pc d |}
                  | _ => None
                  end
             else m ← step P false t (mach d);
                  Some {| mach := m; handles := handles d; fresh := fresh d; states := states d;
                          pc := if aborted m then Ended Terminated else pc d |}) = Some d')
    as (th & Hth & Hbody).
  { destruct (pc d); try done;
      (destruct (threads (mach d) !! t) as [th|]; [|done]); by exists th. }
  clear Hstep. destruct (finished th).
  - destruct (states d !! t) as [[st|]|] eqn:Hst; [|done..]. injection Hbody as <-.
    unfold togo. simpl.
    pose proof (sum_list_fmap_insert (λ o : option nat, if o is Some _ then 1 else 0)%nat
                  _ _ _ None Hst) as Hsum.
    simpl in Hsum. unfold remaining. simpl. lia.
  - destruct (step P false t (mach d)) as [m|] eqn:Hs; [|done]. injection Hbody as <-.
    apply step_Step in Hs.
    pose proof (step_remaining P false _ _ _ Hs) as Hrem.
    pose proof (step_threads_length P false _ _ _ Hs) as Hlen_m.
    unfold togo. simpl. rewrite Hlen_m, Hrem.
    destruct (aborted m); simpl; lia.
Qed.

Lemma togo_step a d d' : running P d → dstep P a d = Some d' → (togo d' < togo d)%nat.
Proof.
  intros Hrun Hstep. unfold dstep in Hstep. destruct (decide _).
  - by eapply togo_main.
  - by eapply togo_worker.
Qed.

Lemma step_worker_step d t m :
  (∀ o, pc d ≠ Ended o) → step P false t (mach d) = Some m →
  is_Some (worker_step P t d).
Proof.
  intros Hlive Hs. destruct (step_not_finished P false _ _ _ (proj1 (step_Step P false _ _ _) Hs))
    as (th & Hth & Hnf).
  unfold worker_step. rewrite Hth. simpl. rewrite Hnf, Hs. simpl.
  destruct (pc d) as [| | | | | |o]; try done. by destruct (Hlive o).
Qed.

Lemma dstep_main d : dstep P main_thread d = main_step P d.
Proof. unfold dstep. by destruct (decide _). Qed.

Lemma dstep_worker t d : t ≠ main_thread → dstep P t d = worker_step P t d.
Proof. intros Hne. unfold dstep. by destruct (decide _). Qed.

(** While [main] has not ended, [main] or a worker can step. *)
Lemma driver_progress d :
  driver_inv P d → (∃ o, pc d = Ended o) ∨ ∃ a d', dstep P a d = Some d'.
Proof.
  unfold driver_inv. destruct (pc d) as [i|i|i st|i|i| |o] eqn:Hpc; [..|left; by exists o];
    intros ((Hlen & Hscr & Hdone & Hal) & Hab & Hmi & Hrest); right.
  - exists main_thread. rewrite dstep_main. unfold main_step. rewrite Hpc.
    destruct (_ <? _); [by eexists|].
    destruct (operator_new _ _ _) as [[q|e] w1]; by eexists.
  - exists main_thread. rewrite dstep_main. unfold main_step. rewrite Hpc. by eexists.
  - exists main_thread. rewrite dstep_main. unfold main_step. rewrite Hpc.
    destruct (thread_start_ok P i); [by eexists|].
    destruct (throw_thread_error _ _) as [e w1]. by eexists.
  - exists main_thread. rewrite dstep_main. unfold main_step. rewrite Hpc. by eexists.
  - rewrite Hpc in Hal. destruct Hal as (Hn & Hi & Hjoined).
    assert (is_Some (states d !! i)) as [o Ho] by (apply lookup_lt_is_Some; lia).
    destruct o as [st|].
    + assert (is_Some (threads (mach d) !! i)) as [th Hth] by (apply lookup_lt_is_Some; lia).
      assert (i ≠ main_thread) as Hne by (unfold main_thread; lia).
      destruct (finished th) eqn:Hfin.
      * exists i. rewrite dstep_worker by done. unfold worker_step. rewrite Hpc, Hth.
        simpl. rewrite Hfin, Ho. by eexists.
      * destruct (progress P false (mach d) Hmi Hab) as [Hall|[t [m Hs]]].
        { rewrite forallb_forall in Hall. specialize (Hall th).
          rewrite <- list_elem_of_In in Hall.
          specialize (Hall (list_elem_of_lookup_2 _ _ _ Hth)). congruence. }
        assert (t ≠ main_thread) as Hne'.
        { apply step_Step, step_not_finished in Hs as (th' & Hth' & _).
          apply lookup_lt_Some in Hth'. unfold main_thread. lia. }
        exists t. rewrite dstep_worker by done.
        destruct (step_worker_step d t m) as [d' Hd']; [by rewrite Hpc|done|].
        by exists d'.
    + exists main_thread. rewrite dstep_main. unfold main_step. rewrite Hpc, Ho.
      by eexists.
  - rewrite Hpc in Hal. destruct Hal as (Hn & Hjoined).
    assert (forallb finished (threads (mach d)) = true) as Hfin.
    { apply forallb_forall. intros th Hth%list_elem_of_In.
      apply list_elem_of_lookup in Hth as [t Hth].
      pose proof (lookup_lt_Some _ _ _ Hth) as Hlt. rewrite Hn in Hlt.
      destruct (Hdone t (Hjoined t Hlt)) as (th' & Hth' & Hfin). congruence. }
    exists main_thread. rewrite dstep_main. unfold main_step. rewrite Hpc.
    rewrite report_free by (by apply finished_all_outside).
    destruct (elems (data (obj (mach d)))); simpl; [destruct (raise _ _ _)|]; simpl;
      by eexists.
Qed.

Lemma drive_to_end n d :
  driver_inv P d → (togo d ≤ n)%nat →
  ∃ sched d' o, drive P sched d = Some d' ∧ pc d' = Ended o.
Proof.
  revert d. induction n as [|n IH]; intros d Hinv Hn;
    (destruct (driver_progress d Hinv) as [[o Ho]|(a & d1 & Hs)]; [by exists [], d, o|]);
    assert (running P d) as Hrun
      by (unfold driver_inv in Hinv; destruct (pc d) eqn:Hpc; try done;
          unfold dstep, main_step, worker_step in Hs; rewrite Hpc in Hs; by destruct (decide _));
    pose proof (togo_step _ _ _ Hrun Hs) as Hlt; [lia|].
  destruct (IH d1) as (sched & d' & o & Hdrive & Ho); [by eapply driver_inv_step|lia|].
  exists (a :: sched), d', o. simpl. rewrite Hs. done.
Qed.

Lemma drive_togo sched d d' :
  driver_inv P d → drive P sched d = Some d' → (length sched + togo d' ≤ togo d)%nat.
Proof.
  revert d. induction sched as [|a sched IH]; intros d Hinv; simpl.
  - intros [= <-]. lia.
  - destruct (dstep P a d) as [d1|] eqn:Hs; [|done]. simpl. intros Hdrive.
    assert (running P d) as Hrun
      by (unfold driver_inv in Hinv; destruct (pc d) eqn:Hpc; try done;
          unfold dstep, main_step, worker_step in Hs; rewrite Hpc in Hs; by destruct (decide _)).
    pose proof (togo_step _ _ _ Hrun Hs) as Hlt.
    pose proof (IH d1 (driver_inv_step P _ _ _ Hinv Hs) Hdrive). lia.
Qed.

End ending.


Lemma all_granted_heap (P : Platform) (w : World) :
  (∀ k bytes, operator_new_ok P k bytes = true) → all_granted P w = true.
Proof. intros Hheap. unfold all_granted. apply forallb_forall. intros [k b] _. apply Hheap. Qed.

Lemma main_final (P : Platform) (sched : list nat) (o : Outcome) (w : World) :
  main P sched = Some (o, w) →
  ∃ d, drive P sched driver0 = Some d ∧ pc d = Ended o ∧ world (mach d) = w ∧ final P o d.
Proof.
  unfold main. intros Hmain.
  destruct (drive P sched driver0) as [d|] eqn:Hdrive; [|done]. simpl in Hmain.
  pose proof (drive_inv P sched d Hdrive) as Hinv. unfold driver_inv in Hinv.
  destruct (pc d) as [| | | | | |o'] eqn:Hpc; try done.
  injection Hmain as <- <-. by exists d.
Qed.



(** A run of the driver in which the heap gives out under the vector: the
    third worker's first [add] throws and the process is terminated. *)
Example main_terminated :
  main (failing_after 11) (replicate 17 main_thread ++ take 9 round_robin)
  = Some (Terminated,
          {| cout := [LineAllocate 1; LineAllocate 2; LineDeallocate 1; LineAllocate 4];
             cerr := []; new_requests := [8; 24; 16; 24; 32; 24; 24; 64; 24; 4; 8; 16];
             deleted := [0; 2; 4; 9]%nat; messages := [] |}).
Proof. vm_compute. reflexivity. Qed.

(** A run in which the heap refuses the first request of [main]: the
    handler of [main] reports [std::bad_alloc], and [main] returns 0. *)
Example main_handler :
  main (failing_after 0) [main_thread]
  = Some (Returned 0,
          {| cout := []; cerr := [LineGeneralError "std::bad_alloc"];
             new_requests := [8]; deleted := []; messages := [] |}).
Proof. vm_compute. reflexivity. Qed.

(** A run in which the second thread cannot be started: the first is
    joinable, and the process is terminated. *)
Example main_cannot_start :
  main (threads_up_to 1) (replicate 6 main_thread)
  = Some (Terminated,
          {| cout := []; cerr := []; new_requests := [8; 24; 16; 24; 33; 57];
             deleted := [4; 3; 2]%nat; messages := [5%nat] |}).
Proof. vm_compute. reflexivity. Qed.

(** A run in which the first worker adds its first value while [main] is
    still starting the others: the requests of the vector and those of
    [main] are interleaved, and the report is the same. *)
Example main_early_bird :
  main libstdcxx early_bird
  = Some (Returned 0,
          {| cout := [LineAllocate 1; LineAllocate 2; LineDeallocate 1; LineAllocate 4;
                      LineDeallocate 2; LineAllocate 8; LineDeallocate 4; LineAllocate 16;
                      LineDeallocate 8; LineTotal 15; LineFirst 100; LineDeallocate 16];
             cerr := [];
             new_requests := [8; 24; 4; 16; 24; 32; 24; 24; 64; 24; 8; 16; 32; 64];
             deleted := [0; 3; 5; 2; 10; 11; 12; 9; 7; 6; 4; 1; 8; 13]%nat;
             messages := [] |}).
Proof. vm_compute. reflexivity. Qed.

(** X9: the driver cannot hang: whatever [main] and the workers have
    done so far, there is a way on for them after which [main] ends, by
    returning or by termination; and the process takes 76 steps at
    most. *)
Theorem main_can_finish (P : Platform) (sched : list nat) (d : Driver) :
  drive P sched driver0 = Some d →
  (∃ sched' o w, main P (sched ++ sched') = Some (o, w))
  ∧ (length sched + togo d ≤ 76)%nat.
Proof.
  intros Hdrive. pose proof (drive_inv P sched d Hdrive) as Hinv. split.
  - destruct (drive_to_end P (togo d) d Hinv) as (sched' & d' & o & Hd' & Ho); [done|].
    exists sched', o, (world (mach d')). unfold main.
    rewrite drive_app, Hdrive. simpl. rewrite Hd'. simpl. by rewrite Ho.
  - apply (drive_togo P sched driver0 d (driver0_inv P) Hdrive).
Qed.

Lemma main_can_finish_witness :
  ∃ d, drive libstdcxx (replicate 17 main_thread ++ take 20 round_robin) driver0 = Some d
       ∧ pc d = Join 0
       ∧ (∃ sched' o w,
            main libstdcxx ((replicate 17 main_thread ++ take 20 round_robin) ++ sched')
            = Some (o, w))
       ∧ (length (replicate 17 main_thread ++ take 20 round_robin) + togo d ≤ 76)%nat.
Proof.
  eexists. split; [vm_compute; reflexivity|]. split; [reflexivity|].
  refine (main_can_finish libstdcxx (replicate 17 main_thread ++ take 20 round_robin) _ _).
  vm_compute; reflexivity.
Defined.

(** X10: whenever [main] returns, it returns 0, and one of two things has
    happened.  Either [main] has made its report: the last three lines of
    the output are the total of 15, the first element, which is the first
    value of one of the workers (100, 200, 300, 400 or 500, depending on
    the schedule), and the release of the vector's last block; nothing is
    on the error stream; no request for storage has been refused; and the
    lines of [deallocate] name the same counts as the lines of
    [allocate], in the same order.  Or [main] itself has failed before
    any thread was started, of a request refused or of the first thread
    that could not be started: then there is no report, nothing at all on
    the output, and the handler has written one line to the error stream,
    the one for exceptions other than [DataException]. *)
Theorem main_report (P : Platform) (sched : list nat) (code : Z) (w : World) :
  main P sched = Some (Returned code, w) →
  code = 0%Z
  ∧ ((cerr w = []
      ∧ all_granted P w = true
      ∧ released (cout w) = acquired (cout w)
      ∧ ∃ pre x c,
          cout w = pre ++ [LineTotal 15; LineFirst x; LineDeallocate c]
          ∧ x ∈ [100; 200; 300; 400; 500]%Z)
     ∨ (cout w = []
        ∧ (all_granted P w = false ∨ thread_start_ok P 0 = false)
        ∧ ∃ e, (∀ msg, e ≠ DataException msg) ∧ cerr w = [LineGeneralError (what e)])).
Proof.
  intros Hmain. destruct (main_final P sched _ w Hmain) as (d & _ & _ & <- & Hfin).
  simpl in Hfin. destruct Hfin as [-> [Hok|(_ & Hfail)]]; (split; [done|]); [by left|by right].
Qed.

Lemma main_report_witness :
  main libstdcxx (main_first (reverse one_by_one))
  = Some (Returned 0,
          {| cout := [LineAllocate 1; LineAllocate 2; LineDeallocate 1; LineAllocate 4;
                      LineDeallocate 2; LineAllocate 8; LineDeallocate 4; LineAllocate 16;
                      LineDeallocate 8; LineTotal 15; LineFirst 500; LineDeallocate 16];
             cerr := [];
             new_requests := [8; 24; 16; 24; 32; 24; 24; 64; 24; 4; 8; 16; 32; 64];
             deleted := [0; 2; 4; 9; 10; 11; 12; 1; 3; 5; 6; 8; 7; 13]%nat;
             messages := [] |})
  ∧ 0%Z = 0%Z.
Proof.
  split; [vm_compute; reflexivity|].
  refine (proj1 (main_report libstdcxx (main_first (reverse one_by_one)) 0
                   {| cout := [LineAllocate 1; LineAllocate 2; LineDeallocate 1; LineAllocate 4;
                               LineDeallocate 2; LineAllocate 8; LineDeallocate 4; LineAllocate 16;
                               LineDeallocate 8; LineTotal 15; LineFirst 500; LineDeallocate 16];
                      cerr := [];
                      new_requests := [8; 24; 16; 24; 32; 24; 24; 64; 24; 4; 8; 16; 32; 64];
                      deleted := [0; 2; 4; 9; 10; 11; 12; 1; 3; 5; 6; 8; 7; 13]%nat;
                      messages := [] |} _)).
  vm_compute; reflexivity.
Defined.

(** X14: on a platform where [::operator new] never refuses, every thread
    can be started, and a vector can hold more than 15 elements, [main]
    is never terminated and its handlers never run: whatever the
    schedule, if [main] ends it returns 0 after its report, with nothing
    on the error stream. *)
Theorem main_succeeds (P : Platform) (sched : list nat) (o : Outcome) (w : World) :
  (∀ k bytes, operator_new_ok P k bytes = true) →
  (∀ i, thread_start_ok P i = true) →
  15 < vec_max_size P →
  main P sched = Some (o, w) →
  o = Returned 0 ∧ cerr w = [] ∧ LineTotal 15 ∈ cout w.
Proof.
  intros Hheap Hstart Hroom Hmain.
  destruct (main_final P sched o w Hmain) as (d & _ & _ & <- & Hfin).
  pose proof (all_granted_heap P (world (mach d)) Hheap) as Hg.
  destruct o as [code|]; simpl in Hfin.
  - destruct Hfin as [-> [(Hcerr & _ & _ & pre & x & c & Hcout & _)|(_ & _ & [Hno|Hno] & _)]].
    + split_and!; [done..|]. rewrite Hcout, elem_of_app, !elem_of_cons. auto.
    + congruence.
    + by rewrite Hstart in Hno.
  - destruct Hfin as (_ & _ & [Hno|[Hmax|[i Hno]]]).
    + congruence.
    + lia.
    + by rewrite Hstart in Hno.
Qed.

Lemma main_succeeds_witness :
  main libstdcxx (main_first round_robin)
  = Some (Returned 0,
          {| cout := [LineAllocate 1; LineAllocate 2; LineDeallocate 1; LineAllocate 4;
                      LineDeallocate 2; LineAllocate 8; LineDeallocate 4; LineAllocate 16;
                      LineDeallocate 8; LineTotal 15; LineFirst 100; LineDeallocate 16];
             cerr := [];
             new_requests := [8; 24; 16; 24; 32; 24; 24; 64; 24; 4; 8; 16; 32; 64];
             deleted := [0; 2; 4; 9; 10; 11; 12; 1; 3; 5; 6; 8; 7; 13]%nat;
             messages := [] |})
  ∧ Returned 0 = Returned 0.
Proof.
  split; [vm_compute; reflexivity|].
  refine (proj1 (main_succeeds libstdcxx (main_first round_robin) (Returned 0)
                   {| cout := [LineAllocate 1; LineAllocate 2; LineDeallocate 1; LineAllocate 4;
                               LineDeallocate 2; LineAllocate 8; LineDeallocate 4; LineAllocate 16;
                               LineDeallocate 8; LineTotal 15; LineFirst 100; LineDeallocate 16];
                      cerr := [];
                      new_requests := [8; 24; 16; 24; 32; 24; 24; 64; 24; 4; 8; 16; 32; 64];
                      deleted := [0; 2; 4; 9; 10; 11; 12; 1; 3; 5; 6; 8; 7; 13]%nat;
                      messages := [] |} _ _ _ _)).
  - intros k bytes. reflexivity.
  - intros i. reflexivity.
  - reflexivity.
  - vm_compute. reflexivity.
Defined.
